(** * tv-ss: playlist aggregation and probe scheduling

    A shallow embedding of the parser/aggregator ([utils/parser.ts]) and of
    the check cycle of [App.tsx].

    JavaScript strings are sequences of UTF-16 code units; the regular
    expressions of the source have no [u] flag and therefore work on code
    units.  A string is a [list N] here. *)

From Stdlib Require Import Ascii String.
From Stdlib Require Import List NArith ZArith QArith Qround Bool Lia Arith.
From Stdlib Require Import Permutation Sorted.
Import ListNotations.

Set Implicit Arguments.

(** ** JavaScript strings *)

Module JS.

Definition jsstring := list N.

(** An ASCII literal as a JavaScript string. *)
Definition str (s : String.string) : jsstring :=
  map N_of_ascii (String.list_ascii_of_string s).
Arguments str s%_string.

Definition jseqb (a b : jsstring) : bool :=
  if list_eq_dec N.eq_dec a b then true else false.

(** [LineTerminator]: LF, CR, U+2028, U+2029.  The regexp atom [.] matches
    every code unit but these. *)
Definition isLineTerminator (c : N) : bool :=
  ((c =? 10) || (c =? 13) || (c =? 8232) || (c =? 8233))%N.

(** The class [\s], which is also the set removed by [String.prototype.trim]:
    TAB LF VT FF CR SP NBSP U+1680 U+2000..U+200A U+2028 U+2029 U+202F U+205F
    U+3000 U+FEFF. *)
Definition isWhiteSpace (c : N) : bool :=
  ((c =? 9) || (c =? 10) || (c =? 11) || (c =? 12) || (c =? 13) || (c =? 32)
   || (c =? 160) || (c =? 5760) || ((8192 <=? c) && (c <=? 8202))
   || (c =? 8232) || (c =? 8233) || (c =? 8239) || (c =? 8287)
   || (c =? 12288) || (c =? 65279))%N.

(** The class [\d]. *)
Definition isDigit (c : N) : bool := ((48 <=? c) && (c <=? 57))%N.

Definition isAscii (c : N) : bool := (c <? 128)%N.

Definition upperAscii (c : N) : N :=
  if ((97 <=? c) && (c <=? 122))%N then (c - 32)%N else c.

Fixpoint takeWhile (p : N -> bool) (s : jsstring) : jsstring :=
  match s with
  | [] => []
  | c :: r => if p c then c :: takeWhile p r else []
  end.

Fixpoint dropWhile (p : N -> bool) (s : jsstring) : jsstring :=
  match s with
  | [] => []
  | c :: r => if p c then dropWhile p r else s
  end.

(** [s.trim()] *)
Definition trim (s : jsstring) : jsstring :=
  rev (dropWhile isWhiteSpace (rev (dropWhile isWhiteSpace s))).

(** [s.startsWith(p)]; [stripPrefix] also returns what follows the prefix. *)
Fixpoint stripPrefix (p s : jsstring) : option jsstring :=
  match p, s with
  | [], _ => Some s
  | _ :: _, [] => None
  | a :: p', c :: s' => if (a =? c)%N then stripPrefix p' s' else None
  end.

Definition startsWith (s p : jsstring) : bool :=
  match stripPrefix p s with Some _ => true | None => false end.

(** [s.includes(c)] for a one-unit needle. *)
Definition includesUnit (s : jsstring) (c : N) : bool :=
  existsb (N.eqb c) s.

(** [s.includes(p)] *)
Fixpoint includes (s p : jsstring) : bool :=
  startsWith s p ||
  match s with
  | [] => false
  | _ :: r => includes r p
  end.

(** [s.split(sep)] for a one-unit separator: never the empty array. *)
Fixpoint split (sep : N) (s : jsstring) : list jsstring :=
  match s with
  | [] => [[]]
  | c :: r =>
      if (c =? sep)%N then [] :: split sep r
      else match split sep r with
           | h :: t => (c :: h) :: t
           | [] => [[c]]
           end
  end.

(** [parts.join(sep)] *)
Fixpoint join (sep : N) (parts : list jsstring) : jsstring :=
  match parts with
  | [] => []
  | [p] => p
  | p :: rest => p ++ sep :: join sep rest
  end.

(** [s.replace(re, ...)] with a global regexp: matches are looked for from
    left to right, and the search resumes after each one.  [matchAt s] says
    whether the regexp matches at the start of [s]: how many units the match
    spans and what it is replaced with.  Every regexp of this program spans at
    least one unit where it matches; [skip] counts the units of the current
    match that are still to be passed over. *)
Fixpoint replaceFrom (matchAt : jsstring -> option (nat * jsstring))
    (skip : nat) (s : jsstring) : jsstring :=
  match s with
  | [] => []
  | c :: r =>
      match skip with
      | S k => replaceFrom matchAt k r
      | O =>
          match matchAt s with
          | Some (S k, rep) => rep ++ replaceFrom matchAt k r
          | Some (O, rep) => rep ++ c :: replaceFrom matchAt 0 r
          | None => c :: replaceFrom matchAt 0 r
          end
      end
  end.

Definition replaceAll (matchAt : jsstring -> option (nat * jsstring))
    (s : jsstring) : jsstring :=
  replaceFrom matchAt 0 s.

(** [s.replace(re, ...)] with a regexp that is not global: the leftmost match
    only. *)
Fixpoint replaceFirst (matchAt : jsstring -> option (nat * jsstring))
    (s : jsstring) : jsstring :=
  match matchAt s with
  | Some (n, rep) => rep ++ skipn n s
  | None =>
      match s with
      | [] => []
      | c :: r => c :: replaceFirst matchAt r
      end
  end.

(** [s.match(re)] with a regexp that is not global: the leftmost match. *)
Fixpoint matchFirst (A : Type) (matchAt : jsstring -> option A)
    (s : jsstring) : option A :=
  match matchAt s with
  | Some a => Some a
  | None =>
      match s with
      | [] => None
      | _ :: r => matchFirst matchAt r
      end
  end.

(** [[...s.matchAll(re)]]: every match, left to right; [matchAt] gives the
    span of a match and what is kept of it. *)
Fixpoint matchAllFrom (A : Type) (matchAt : jsstring -> option (nat * A))
    (skip : nat) (s : jsstring) : list A :=
  match s with
  | [] => []
  | _ :: r =>
      match skip with
      | S k => matchAllFrom matchAt k r
      | O =>
          match matchAt s with
          | Some (S k, a) => a :: matchAllFrom matchAt k r
          | Some (O, a) => a :: matchAllFrom matchAt 0 r
          | None => matchAllFrom matchAt 0 r
          end
      end
  end.

Definition matchAll (A : Type) (matchAt : jsstring -> option (nat * A))
    (s : jsstring) : list A :=
  matchAllFrom matchAt 0 s.

(** [parseInt(digits, 10)] on a run of decimal digits. *)
Definition parseInt (digits : jsstring) : N :=
  fold_left (fun acc d => (10 * acc + (d - 48))%N) digits 0%N.

Fixpoint unitsOfUint (d : Decimal.uint) : jsstring :=
  match d with
  | Decimal.Nil => []
  | Decimal.D0 r => 48%N :: unitsOfUint r
  | Decimal.D1 r => 49%N :: unitsOfUint r
  | Decimal.D2 r => 50%N :: unitsOfUint r
  | Decimal.D3 r => 51%N :: unitsOfUint r
  | Decimal.D4 r => 52%N :: unitsOfUint r
  | Decimal.D5 r => 53%N :: unitsOfUint r
  | Decimal.D6 r => 54%N :: unitsOfUint r
  | Decimal.D7 r => 55%N :: unitsOfUint r
  | Decimal.D8 r => 56%N :: unitsOfUint r
  | Decimal.D9 r => 57%N :: unitsOfUint r
  end.

(** The decimal digits of a number, as a template literal prints them. *)
Definition numberToString (n : N) : jsstring := unitsOfUint (N.to_uint n).

(** [s.toUpperCase()].  ASCII letters are mapped here; the Unicode case
    table for the other code points is not part of the repository, and is
    taken as [upperNonAscii], applied to each maximal run of non-ASCII units
    (upper-casing maps code points one by one and ASCII to ASCII). *)
Section ToUpperCase.
Variable upperNonAscii : jsstring -> jsstring.

Definition flushRun (run : jsstring) : jsstring :=
  match run with
  | [] => []
  | _ :: _ => upperNonAscii run
  end.

Fixpoint upperFrom (run : jsstring) (s : jsstring) : jsstring :=
  match s with
  | [] => flushRun run
  | c :: r =>
      if isAscii c then flushRun run ++ upperAscii c :: upperFrom [] r
      else upperFrom (run ++ [c]) r
  end.

Definition toUpperCase (s : jsstring) : jsstring := upperFrom [] s.
End ToUpperCase.

End JS.
Import JS.

(** ** utils/parser.ts: the canonical name *)

Module Re.

(** [/\[.*?\]/], the same with the full-width parentheses U+FF08 and
    U+FF09, and [/\(.*?\)/]: an opening unit, the shortest
    run of units that are not line terminators, a closing unit.
    [lazyUntil close s] is the number of units of [s] up to and including
    the first [close], when no line terminator comes before it. *)
Fixpoint lazyUntil (close : N) (s : jsstring) : option nat :=
  match s with
  | [] => None
  | c :: r =>
      if (c =? close)%N then Some 1%nat
      else if isLineTerminator c then None
      else option_map S (lazyUntil close r)
  end.

Definition bracketed (open close : N) (s : jsstring)
    : option (nat * jsstring) :=
  match s with
  | [] => None
  | c :: r =>
      if (c =? open)%N
      then option_map (fun n => (S n, @nil N)) (lazyUntil close r)
      else None
  end.

(** [/CCTV\s*[-]?\s*(\d+)(\+)?/] with the replacement ['CCTV-$1$2'].  White
    space, the hyphen and the digits are disjoint classes, so the greedy
    choices are the only way to match. *)
Definition cctv (s : jsstring) : option (nat * jsstring) :=
  match stripPrefix (str "CCTV") s with
  | None => None
  | Some r1 =>
      let w1 := takeWhile isWhiteSpace r1 in
      let r2 := dropWhile isWhiteSpace r1 in
      let dash := match r2 with c :: _ => (c =? 45)%N | [] => false end in
      let r3 := if dash then tl r2 else r2 in
      let w2 := takeWhile isWhiteSpace r3 in
      let r4 := dropWhile isWhiteSpace r3 in
      let digits := takeWhile isDigit r4 in
      let r5 := dropWhile isDigit r4 in
      let plus := match r5 with c :: _ => (c =? 43)%N | [] => false end in
      match digits with
      | [] => None
      | _ :: _ =>
          Some ((4 + length w1 + (if dash then 1 else 0) + length w2
                 + length digits + (if plus then 1 else 0))%nat,
                str "CCTV-" ++ digits ++ (if plus then [43%N] else []))
      end
  end.

(** [new RegExp(k, 'g')] for a keyword [k]: of the regexp metacharacters only
    the dot occurs in the vocabulary; every other unit stands for itself. *)
Inductive atom := Lit (c : N) | AnyUnit.

Definition compile (k : jsstring) : list atom :=
  map (fun c => if (c =? 46)%N then AnyUnit else Lit c) k.

Fixpoint atomsMatch (p : list atom) (s : jsstring) : bool :=
  match p, s with
  | [], _ => true
  | _ :: _, [] => false
  | Lit a :: p', c :: s' => (a =? c)%N && atomsMatch p' s'
  | AnyUnit :: p', c :: s' => negb (isLineTerminator c) && atomsMatch p' s'
  end.

Definition keyword (k : jsstring) (s : jsstring) : option (nat * jsstring) :=
  if atomsMatch (compile k) s then Some (length k, @nil N) else None.

(** [/\s+/] *)
Definition spaces (s : jsstring) : option (nat * jsstring) :=
  match takeWhile isWhiteSpace s with
  | [] => None
  | w => Some (length w, @nil N)
  end.

(** [/[-_]+$/]: a non-empty run of hyphens and underscores that reaches the
    end of the string. *)
Definition isSeparator (c : N) : bool := ((c =? 45) || (c =? 95))%N.

Definition trailingSeparators (s : jsstring) : option (nat * jsstring) :=
  match s with
  | [] => None
  | _ :: _ => if forallb isSeparator s then Some (length s, @nil N) else None
  end.

End Re.

Definition keywords : list jsstring :=
  [ str "HD"; str "FHD"; str "SD"; str "UHD";
    str "HEVC"; str "H.265"; str "H264";
    str "IPTV"; str "LIVE"; [30452; 25773]%N;
    [39640; 28165]%N; [36229; 28165]%N; [26631; 28165]%N; [39057; 36947]%N;
    str "TEST"; [27979; 35797]%N;
    str "IPV6"; str "IPV4";
    str "1080P"; str "720P"; str "4K"; str "8K";
    str "50FPS"; str "60FPS";
    [30005; 20449]%N; [32852; 36890]%N; [31227; 21160]%N; [37202; 24215]%N ].

(** [ks.forEach(k => { n = n.replace(new RegExp(k, 'g'), ''); })] *)
Definition removeKeywords (ks : list jsstring) (n : jsstring) : jsstring :=
  fold_left (fun n k => replaceAll (Re.keyword k) n) ks n.

Section Normalizer.
Variable upperNonAscii : jsstring -> jsstring.

Definition normalizeName (name : jsstring) : jsstring :=
  let n := toUpperCase upperNonAscii name in
  let n := replaceAll (Re.bracketed 91 93) n in
  let n := replaceAll (Re.bracketed 65288 65289) n in
  let n := replaceAll (Re.bracketed 40 41) n in
  let n := replaceAll Re.cctv n in
  let n := removeKeywords keywords n in
  let n := replaceAll Re.spaces n in
  let n := replaceFirst Re.trailingSeparators n in
  trim n.
End Normalizer.

(** ** types.ts *)

Inductive Status := idle | checking | online | offline | error.

Inductive Category := China | International | Other.

Module Source.
Record t := mk {
  id : jsstring;
  url : jsstring;
  status : Status;
  latency : option Z;          (* [number | null], in ms *)
  resolution : option jsstring (* [string | undefined] *)
}.
End Source.

Module Channel.
Record t := mk {
  id : jsstring;
  name : jsstring;
  group : jsstring;
  category : Category;
  sources : list Source.t;
  bestSource : option Source.t
}.
End Channel.

(** The objects of the program are never modified once they can be reached
    from [bestSource]: the aggregator leaves [bestSource] undefined, and the
    check cycle copies every object it changes.  A reference to a source is
    therefore modelled by the source itself. *)

(** ** A [Map] with string keys

    Entries are kept in insertion order, which is the order of
    [channelMap.values()]. *)

Module StrMap.
Section WithValues.
Variable V : Type.

Definition t := list (jsstring * V).

Fixpoint get (k : jsstring) (m : t) : option V :=
  match m with
  | [] => None
  | (k', v) :: r => if jseqb k' k then Some v else get k r
  end.

Definition has (k : jsstring) (m : t) : bool :=
  match get k m with Some _ => true | None => false end.

(** [set] keeps the position of a key that is present and appends a new
    one. *)
Fixpoint set (k : jsstring) (v : V) (m : t) : t :=
  match m with
  | [] => [(k, v)]
  | (k', v') :: r =>
      if jseqb k' k then (k', v) :: r else (k', v') :: set k v r
  end.

Definition values (m : t) : list V := map snd m.
End WithValues.
End StrMap.

(** [Array.prototype.sort] is stable; with a consistent comparator its
    result is the one of any stable sort. *)
Section Sort.
Variable A : Type.
Variable cmp : A -> A -> Z.

Fixpoint insertSorted (x : A) (l : list A) : list A :=
  match l with
  | [] => [x]
  | y :: r => if (cmp x y <=? 0)%Z then x :: l else y :: insertSorted x r
  end.

Definition sort (l : list A) : list A := fold_right insertSorted [] l.
End Sort.

(** ** utils/parser.ts: the line grammar

    The loop over the lines of a playlist calls [addChannelToMap] for every
    record it recognises.  The loop is written over the callback [add] and
    the state [Acc] the callback works on, so that the records themselves can
    be observed too. *)

Record Pending := mkPending {
  currentName : jsstring;
  currentGroup : jsstring
}.

(** The regexps for the attributes [group-title] and [tvg-name]: the key, an
    equals sign, a double quote, a capture of units that are not double
    quotes, a double quote.  The capture is what stands between the opening
    quote and the next one. *)
Fixpoint untilQuote (s : jsstring) : option jsstring :=
  match s with
  | [] => None
  | c :: r => if (c =? 34)%N then Some [] else option_map (cons c) (untilQuote r)
  end.

Definition attribute (key : jsstring) (s : jsstring) : option jsstring :=
  match stripPrefix (key ++ [61; 34]%N) s with
  | Some r => untilQuote r
  | None => None
  end.

Definition looksLikeUrl (s : jsstring) : bool :=
  startsWith s (str "http") || startsWith s (str "rtmp")
  || startsWith s (str "p2p").

(** The [#EXTINF:] branch: what becomes pending. *)
Definition readExtinf (line : jsstring) : Pending :=
  let groupMatch := matchFirst (attribute (str "group-title")) line in
  let currentGroup :=
    match groupMatch with
    | Some g => g
    | None => str "Uncategorized"
    end in
  let tvgNameMatch := matchFirst (attribute (str "tvg-name")) line in
  let nameParts := split 44 line in
  let trailingName := trim (last nameParts []) in
  let currentName :=
    match tvgNameMatch with
    | Some n => n
    | None => trailingName
    end in
  let currentName :=
    match currentName with
    | [] => trailingName
    | _ :: _ => currentName
    end in
  mkPending currentName currentGroup.

Section Parser.
Variable Acc : Type.
Variable add : jsstring -> jsstring -> jsstring -> Category -> Acc -> Acc.

Definition processLine (category : Category) (st : Pending * Acc)
    (rawLine : jsstring) : Pending * Acc :=
  let line := trim rawLine in
  match line with
  | [] => st
  | _ :: _ =>
      if startsWith line (str "#EXTINF:") then (readExtinf line, snd st)
      else if includesUnit line 44 && negb (startsWith line (str "#")) then
        let parts := split 44 line in
        let possibleUrl := trim (last parts []) in
        if looksLikeUrl possibleUrl then
          let name := trim (join 44 (removelast parts)) in
          (mkPending [] (currentGroup (fst st)),
           add name (str "Other") possibleUrl category (snd st))
        else st
      else if negb (startsWith line (str "#"))
              && (startsWith line (str "http") || startsWith line (str "rtmp"))
      then
        match currentName (fst st) with
        | [] => st
        | _ :: _ =>
            (fst st,
             add (currentName (fst st)) (currentGroup (fst st)) line category
               (snd st))
        end
      else st
  end.

(** One playlist: [content.split('\n')], then the loop, which starts with
    nothing pending. *)
Definition parseLines (category : Category) (lines : list jsstring)
    (acc : Acc) : Pending * Acc :=
  fold_left (processLine category) lines (mkPending [] [], acc).

Record Playlist := mkPlaylist {
  content : jsstring;
  playlistCategory : Category
}.

Definition parsePlaylist (acc : Acc) (p : Playlist) : Acc :=
  snd (parseLines (playlistCategory p) (split 10 (content p)) acc).

Definition parsePlaylists (playlists : list Playlist) (acc : Acc) : Acc :=
  fold_left parsePlaylist playlists acc.
End Parser.

(** The records of the specification: the arguments of the successive calls
    of the callback. *)
Record ParsedRecord := mkRecord {
  recName : jsstring;
  recGroup : jsstring;
  recUrl : jsstring;
  recCategory : Category
}.

Definition emit (n g u : jsstring) (c : Category) (acc : list ParsedRecord)
    : list ParsedRecord :=
  acc ++ [mkRecord n g u c].

Definition recordsOfLines (category : Category) (lines : list jsstring)
    : list ParsedRecord :=
  snd (parseLines emit category lines []).

Definition recordsOf (p : Playlist) : list ParsedRecord :=
  parsePlaylist emit [] p.

(** ** utils/parser.ts: the aggregator *)

Record AggState := mkAgg {
  channelMap : StrMap.t Channel.t;
  draws : nat  (* how often [generateId] has been called *)
}.

Section Aggregator.
Variable upperNonAscii : jsstring -> jsstring.
(** [generateId] draws from [Math.random]: [rnd n] is the identifier that
    its [n]-th call returns. *)
Variable rnd : nat -> jsstring.
(** [a.localeCompare(b, 'zh-CN')]: the collation table is not part of the
    repository. *)
Variable localeCompare : jsstring -> jsstring -> Z.

Definition generateId (st : AggState) : jsstring * AggState :=
  (rnd (draws st), mkAgg (channelMap st) (S (draws st))).

Definition addChannelToMap (name group url : jsstring) (category : Category)
    (st : AggState) : AggState :=
  let cleanName := trim name in
  let normalizedKey := normalizeName upperNonAscii cleanName in
  if (length normalizedKey <? 2)%nat then st
  else
    let st :=
      if StrMap.has normalizedKey (channelMap st) then st
      else
        let (id, st) := generateId st in
        mkAgg (StrMap.set normalizedKey
                 (Channel.mk id cleanName
                    (match group with [] => str "Other" | _ :: _ => group end)
                    category [] None)
                 (channelMap st))
              (draws st) in
    match StrMap.get normalizedKey (channelMap st) with
    | None => st
    | Some channel =>
        if existsb (fun s => jseqb (Source.url s) url) (Channel.sources channel)
        then st
        else
          let (id, st) := generateId st in
          mkAgg (StrMap.set normalizedKey
                   (Channel.mk (Channel.id channel) (Channel.name channel)
                      (Channel.group channel) (Channel.category channel)
                      (Channel.sources channel
                         ++ [Source.mk id url idle None None])
                      (Channel.bestSource channel))
                   (channelMap st))
                (draws st)
    end.

Definition compareChannels (a b : Channel.t) : Z :=
  let isCCTVa :=
    includes (toUpperCase upperNonAscii (Channel.name a)) (str "CCTV") in
  let isCCTVb :=
    includes (toUpperCase upperNonAscii (Channel.name b)) (str "CCTV") in
  if isCCTVa && negb isCCTVb then (-1)%Z
  else if negb isCCTVa && isCCTVb then 1%Z
  else
    let isWSa := includes (Channel.name a) [21355; 35270]%N in
    let isWSb := includes (Channel.name b) [21355; 35270]%N in
    if isWSa && negb isWSb then (-1)%Z
    else if negb isWSa && isWSb then 1%Z
    else localeCompare (Channel.name a) (Channel.name b).

Definition aggregate (playlists : list (Playlist)) : AggState :=
  parsePlaylists addChannelToMap playlists (mkAgg [] 0).

Definition parseAndAggregate (playlists : list Playlist) : list Channel.t :=
  sort compareChannels (StrMap.values (channelMap (aggregate playlists))).
End Aggregator.

(** Instances of the three parameters, to run the program on ASCII inputs. *)
Module Env.
Definition upper (s : jsstring) : jsstring := s.
Definition rnd (n : nat) : jsstring := str "id" ++ numberToString (N.of_nat n).
Fixpoint compareUnits (a b : jsstring) : Z :=
  match a, b with
  | [], [] => 0%Z
  | [], _ :: _ => (-1)%Z
  | _ :: _, [] => 1%Z
  | x :: a', y :: b' =>
      if (x <? y)%N then (-1)%Z
      else if (y <? x)%N then 1%Z
      else compareUnits a' b'
  end.
Definition run := parseAndAggregate upper rnd compareUnits.
End Env.

(** ** constants.ts *)

Definition TIMEOUT_MS : Z := 6000.
Definition BATCH_SIZE : nat := 12.

(** ** App.tsx: the check cycle *)

Record Task := mkTask {
  channelId : jsstring;
  sourceId : jsstring;
  taskUrl : jsstring
}.

(** What [checkSource] returns: the task and the classified outcome. *)
Record CheckResult := mkResult {
  resTask : Task;
  resStatus : Status;
  resLatency : option Z;
  resResolution : option jsstring
}.

(** What the network does to one probe.  [fetch] rejects (transport failure,
    cross-origin refusal, or the abort after [TIMEOUT_MS]), or it resolves
    to a response; [start] and [finish] are the two readings of
    [performance.now()], in milliseconds. *)
Inductive BodyRead :=
| NoBody                    (* [response.body] is null *)
| ReadThrows                (* reading or decoding throws; swallowed *)
| NoChunk                   (* the stream ends before a first chunk *)
| Chunk (text : jsstring).  (* the decoded first chunk *)

Inductive FetchOutcome :=
| Rejected
| Responded (ok : bool) (start finish : Q) (body : BodyRead).

(** The clock of [performance.now()] is monotonic. *)
Definition clockMonotonic (o : FetchOutcome) : Prop :=
  match o with
  | Rejected => True
  | Responded _ start finish _ => (start <= finish)%Q
  end.

(** [Math.round]: the nearest integer, halves upwards.  The readings of the
    clock are rationals here and their difference is exact, where the source
    subtracts two doubles: for readings that are no integers the latency of
    the source can differ by one from the latency given here.  The statements
    below that are about [checkSource] use the sign of the latency and when
    it is present, not its value; what a cycle stores is stated over
    [runCheckWith], for whatever [checkSource] returns. *)
Definition round (x : Q) : Z := Qfloor (x + (1 # 2)).

(** [/RESOLUTION=(\d+)x(\d+)/]; the height [parseInt(m[2], 10)] is kept. *)
Definition resolutionMarker (s : jsstring) : option (nat * N) :=
  match stripPrefix (str "RESOLUTION=") s with
  | None => None
  | Some r1 =>
      let width := takeWhile isDigit r1 in
      match width, dropWhile isDigit r1 with
      | _ :: _, c :: r2 =>
          if (c =? 120)%N then
            match takeWhile isDigit r2 with
            | [] => None
            | height =>
                Some ((11 + length width + 1 + length height)%nat,
                      parseInt height)
            end
          else None
      | _, _ => None
      end
  end.

Definition sniffResolution (text : jsstring) : option jsstring :=
  match matchAll resolutionMarker text with
  | [] => None
  | h :: hs =>
      let maxHeight := fold_left N.max hs h in
      Some (if (1080 <=? maxHeight)%N then str "1080P"
            else if (720 <=? maxHeight)%N then str "720P"
            else numberToString maxHeight ++ str "P")
  end.

Definition checkSource (task : Task) (o : FetchOutcome) : CheckResult :=
  match o with
  | Rejected => mkResult task error None None
  | Responded ok start finish body =>
      let resolution :=
        if ok then
          match body with
          | Chunk text => sniffResolution text
          | NoBody | ReadThrows | NoChunk => None
          end
        else None in
      mkResult task
        (if ok then online else offline)
        (if ok then Some (round (finish - start)) else None)
        resolution
  end.

Section Arrays.
Variable A : Type.

(** [l.findIndex(p)], with [None] for [-1]. *)
Fixpoint findIndex (p : A -> bool) (l : list A) : option nat :=
  match l with
  | [] => None
  | x :: r => if p x then Some O else option_map S (findIndex p r)
  end.

(** [l[i] = x] for an index within the array. *)
Fixpoint setNth (i : nat) (x : A) (l : list A) : list A :=
  match l, i with
  | [], _ => []
  | _ :: r, O => x :: r
  | y :: r, S k => y :: setNth k x r
  end.

(** The slices of the batch loop: [l.slice(i, i + BATCH_SIZE)] for
    [i = 0, BATCH_SIZE, ...] below [l.length].  The loop runs at most
    [l.length] times. *)
Fixpoint slices (fuel : nat) (l : list A) : list (list A) :=
  match fuel, l with
  | O, _ => []
  | _, [] => []
  | S f, _ :: _ => firstn BATCH_SIZE l :: slices f (skipn BATCH_SIZE l)
  end.

Definition batchesOf (l : list A) : list (list A) := slices (length l) l.
End Arrays.

Definition flattenTasks (targetChannels : list Channel.t) : list Task :=
  flat_map
    (fun ch =>
       map (fun src => mkTask (Channel.id ch) (Source.id src) (Source.url src))
         (Channel.sources ch))
    targetChannels.

(** The body of the two [setChannels] updates: find the channel and the
    source of a task by their identifiers and replace the source by [f] of
    it; [finish] is what is done to the new array of sources and says what
    [bestSource] becomes. *)
Definition updateSource (f : Source.t -> Source.t)
    (finish : list Source.t -> option Source.t -> list Source.t * option Source.t)
    (task : Task) (next : list Channel.t) : list Channel.t :=
  match findIndex (fun c => jseqb (Channel.id c) (channelId task)) next with
  | None => next
  | Some chIndex =>
      match nth_error next chIndex with
      | None => next
      | Some ch =>
          match findIndex (fun s => jseqb (Source.id s) (sourceId task))
                  (Channel.sources ch) with
          | None => next
          | Some srcIndex =>
              match nth_error (Channel.sources ch) srcIndex with
              | None => next
              | Some src =>
                  let (newSources, best) :=
                    finish (setNth srcIndex (f src) (Channel.sources ch))
                      (Channel.bestSource ch) in
                  setNth chIndex
                    (Channel.mk (Channel.id ch) (Channel.name ch)
                       (Channel.group ch) (Channel.category ch)
                       newSources best)
                    next
              end
          end
      end
  end.

(** UPDATE 1: every targeted source becomes [checking], its latency null; the
    channel keeps the [bestSource] it had. *)
Definition markSource (s : Source.t) : Source.t :=
  Source.mk (Source.id s) (Source.url s) checking None (Source.resolution s).

Definition markChecking (tasks : list Task) (prev : list Channel.t)
    : list Channel.t :=
  fold_left
    (fun next task => updateSource markSource (fun l b => (l, b)) task next)
    tasks prev.

(** The write-back of a batch. *)
Definition getScore (s : Source.t) : Z :=
  match Source.status s with
  | online =>
      (100000 - match Source.latency s with Some l => l | None => 0 end)%Z
  | error => 50000%Z
  | checking => 100%Z
  | idle | offline => 0%Z
  end.

Definition sortSources (l : list Source.t) : list Source.t :=
  sort (fun a b => (getScore b - getScore a)%Z) l.

Definition storeResult (res : CheckResult) (s : Source.t) : Source.t :=
  Source.mk (Source.id s) (Source.url s)
    (resStatus res) (resLatency res) (resResolution res).

Definition applyResult (next : list Channel.t) (res : CheckResult)
    : list Channel.t :=
  updateSource (storeResult res)
    (fun l _ => let newSources := sortSources l in
                (newSources, hd_error newSources))
    (resTask res) next.

Definition writeBack (results : list CheckResult) (prev : list Channel.t)
    : list Channel.t :=
  fold_left applyResult results prev.

(** [net i] is what the network does to the [i]-th task of the cycle. *)
Definition probeBatch (net : nat -> FetchOutcome) (i : nat)
    (batch : list Task) : list CheckResult :=
  map (fun p => checkSource (snd p) (net (fst p)))
    (combine (seq i (length batch)) batch).

(** [runCheck]: the successive values of [channels] that the cycle sets, the
    marking first, then one per batch. *)
Fixpoint runBatches (net : nat -> FetchOutcome) (i : nat)
    (batches : list (list Task)) (prev : list Channel.t)
    : list (list Channel.t) :=
  match batches with
  | [] => []
  | batch :: rest =>
      let next := writeBack (probeBatch net i batch) prev in
      next :: runBatches net (i + length batch) rest next
  end.

Definition runCheck (net : nat -> FetchOutcome) (isChecking : bool)
    (targetChannels : list Channel.t) (prev : list Channel.t)
    : list (list Channel.t) :=
  if isChecking || (length targetChannels =? 0)%nat then []
  else
    let tasks := flattenTasks targetChannels in
    let marked := markChecking tasks prev in
    marked :: runBatches net 0 (batchesOf tasks) marked.

(** The catalogs an observer can see: what the aggregator returns, and every
    value a check cycle sets, whatever the targets and the network. *)
Inductive Reachable : list Channel.t -> Prop :=
| reach_aggregate upperNonAscii rnd localeCompare playlists :
    Reachable (parseAndAggregate upperNonAscii rnd localeCompare playlists)
| reach_check c net targetChannels c' :
    Reachable c ->
    (forall i, clockMonotonic (net i)) ->
    In c' (runCheck net false targetChannels c) ->
    Reachable c'.

(** ** Vocabulary of the specification *)

(** The three line grammars, on a trimmed line. *)
Definition isMetadataLine (line : jsstring) : bool :=
  startsWith line (str "#EXTINF:").

Definition isInlineLine (line : jsstring) : bool :=
  negb (isMetadataLine line)
  && includesUnit line 44 && negb (startsWith line (str "#"))
  && looksLikeUrl (trim (last (split 44 line) [])).

Definition isBareUrlLine (line : jsstring) : bool :=
  negb (includesUnit line 44) && negb (startsWith line (str "#"))
  && (startsWith line (str "http") || startsWith line (str "rtmp")).

(** A canonical key the aggregator accepts. *)
Definition usableKey (key : jsstring) : bool := (2 <=? length key)%nat.

(** A keyword occurs in a string when its regexp matches somewhere. *)
Fixpoint occurs (k : jsstring) (s : jsstring) : bool :=
  Re.atomsMatch (Re.compile k) s ||
  match s with
  | [] => false
  | _ :: r => occurs k r
  end.

Definition tokenFree (s : jsstring) : bool :=
  forallb (fun k => negb (occurs k s)) keywords.

(** The latency of a source is a number only when the source is online, and
    then it is not negative. *)
Definition latencyOk (s : Source.t) : Prop :=
  match Source.latency s with
  | None => True
  | Some l => Source.status s = online /\ (0 <= l)%Z
  end.

Definition by_score_desc (a b : Source.t) : Prop :=
  (getScore b <= getScore a)%Z.



(** The callback on a record. *)
Definition addRecord (Acc : Type)
    (add : jsstring -> jsstring -> jsstring -> Category -> Acc -> Acc)
    (acc : Acc) (r : ParsedRecord) : Acc :=
  add (recName r) (recGroup r) (recUrl r) (recCategory r) acc.

(** The source and the channel that [addChannelToMap] builds. *)
Definition newSource (rnd : nat -> jsstring) (n : nat) (url : jsstring)
    : Source.t :=
  Source.mk (rnd n) url idle None None.

Definition withSource (ch : Channel.t) (s : Source.t) : Channel.t :=
  Channel.mk (Channel.id ch) (Channel.name ch) (Channel.group ch)
    (Channel.category ch) (Channel.sources ch ++ [s]) (Channel.bestSource ch).

Definition hasUrl (url : jsstring) (ch : Channel.t) : bool :=
  existsb (fun s => jseqb (Source.url s) url) (Channel.sources ch).

Definition groupOrOther (group : jsstring) : jsstring :=
  match group with
  | [] => str "Other"
  | _ :: _ => group
  end.

(** A record is absorbed by a state that would not change if the record
    were added to it. *)
Definition absorbs (upperNonAscii : jsstring -> jsstring) (st : AggState)
    (r : ParsedRecord) : Prop :=
  usableKey (normalizeName upperNonAscii (trim (recName r))) = false
  \/ exists ch,
       StrMap.get (normalizeName upperNonAscii (trim (recName r)))
         (channelMap st) = Some ch
       /\ hasUrl (recUrl r) ch = true.

(** What a channel holds, the identifiers apart. *)
Definition channelView (ch : Channel.t)
    : jsstring * jsstring * Category * list jsstring :=
  (Channel.name ch, Channel.group ch, Channel.category ch,
   map Source.url (Channel.sources ch)).

Definition mapView (m : StrMap.t Channel.t)
    : StrMap.t (jsstring * jsstring * Category * list jsstring) :=
  map (fun e => (fst e, channelView (snd e))) m.

(** The comparator of the final sort reads the names only. *)
Definition compareViews (up : jsstring -> jsstring)
    (localeCompare : jsstring -> jsstring -> Z)
    (a b : jsstring * jsstring * Category * list jsstring) : Z :=
  compareChannels up localeCompare
    (Channel.mk [] (fst (fst (fst a))) [] Other [] None)
    (Channel.mk [] (fst (fst (fst b))) [] Other [] None).

(** The sources of a channel do not share a URL. *)
Definition urlsDistinct (ch : Channel.t) : Prop :=
  NoDup (map Source.url (Channel.sources ch)).

(** One step of UPDATE 1. *)
Definition markStep (next : list Channel.t) (task : Task) : list Channel.t :=
  updateSource markSource (fun l b => (l, b)) task next.

(** The identifiers of a catalog, by which tasks find their source. *)
Definition idsOf (c : list Channel.t) : list (jsstring * list jsstring) :=
  map (fun ch => (Channel.id ch, map Source.id (Channel.sources ch))) c.

(** A task finds its source at channel [i], source [j]. *)
Definition foundAt (c : list Channel.t) (task : Task) (i j : nat) : Prop :=
  findIndex (fun ch => jseqb (Channel.id ch) (channelId task)) c = Some i
  /\ exists ch,
       nth_error c i = Some ch
       /\ findIndex (fun s => jseqb (Source.id s) (sourceId task))
            (Channel.sources ch) = Some j.

(** The source at channel [i], source [j] is being checked and has no
    latency. *)
Definition markedAt (c : list Channel.t) (i j : nat) : Prop :=
  exists ch s,
    nth_error c i = Some ch
    /\ nth_error (Channel.sources ch) j = Some s
    /\ Source.status s = checking
    /\ Source.latency s = None.

(** The best source of a channel, when there is one, has the identifier and
    the URL of the first source. *)
Definition bestNamesFirst (ch : Channel.t) : Prop :=
  match Channel.bestSource ch with
  | None => True
  | Some b =>
      exists s, hd_error (Channel.sources ch) = Some s
                /\ Source.id b = Source.id s
                /\ Source.url b = Source.url s
  end.

(** A property of every source of a catalog. *)
Definition allSources (P : Source.t -> Prop) (c : list Channel.t) : Prop :=
  forall ch, In ch c -> forall s, In s (Channel.sources ch) -> P s.

(** The same of a probe result. *)
Definition resultLatencyOk (res : CheckResult) : Prop :=
  match resLatency res with
  | None => True
  | Some l => resStatus res = online /\ (0 <= l)%Z
  end.

(** The status and latency of the best source and of the first source of a
    channel. *)
Definition statusAndLatency (s : Source.t) : Status * option Z :=
  (Source.status s, Source.latency s).

Definition bestAndFirst (ch : Channel.t)
    : option (Status * option Z) * option (Status * option Z) :=
  (option_map statusAndLatency (Channel.bestSource ch),
   option_map statusAndLatency (hd_error (Channel.sources ch))).

(** ** Sample inputs *)

Definition quote : jsstring := [34%N].

(** Two sources of one channel after a metadata line with a group. *)
Definition newsLines : list jsstring :=
  [ str "#EXTM3U";
    str "#EXTINF:-1 group-title=" ++ quote ++ str "News" ++ quote
      ++ str " tvg-name=" ++ quote ++ str "CCTV-1" ++ quote ++ str ",CCTV-1 HD";
    str "http://a/1.m3u8";
    str "http://a/2.m3u8" ].

Definition newsTwice : Playlist := mkPlaylist (join 10 newsLines) China.

(** The two documents of the end-to-end scenario. *)
Definition newsOnce : Playlist :=
  mkPlaylist (join 10 (firstn 3 newsLines)) China.

Definition otherInline : Playlist :=
  mkPlaylist (str "CCTV 1,http://other") International.

(** A metadata line without a group-title attribute. *)
Definition noGroupLines : list jsstring :=
  [ str "#EXTINF:-1,CCTV1"; str "http://a/1.m3u8" ].

Definition noGroup : Playlist := mkPlaylist (join 10 noGroupLines) China.

(** A metadata line followed by one URL line, with the prefix p2p and with
    the prefix http, and the first URL on an inline line. *)
Definition extinfNews : jsstring :=
  str "#EXTINF:-1 group-title=" ++ quote ++ str "News" ++ quote
    ++ str ",CCTV-1".

Definition p2pBare : Playlist :=
  mkPlaylist (join 10 [extinfNews; str "p2p://peer/1"]) China.

Definition httpBare : Playlist :=
  mkPlaylist (join 10 [extinfNews; str "http://peer/1"]) China.

Definition p2pInline : Playlist :=
  mkPlaylist (str "CCTV-1,p2p://peer/1") China.

(** Two documents whose one record has the name A. *)
Definition nameA1 : Playlist := mkPlaylist (str "A,http://x") China.
Definition nameA2 : Playlist := mkPlaylist (str "A,http://y") China.

(** One source of each status. *)
Definition srcOnline : Source.t :=
  Source.mk (str "s1") (str "http://a/1") online (Some 300%Z) None.
Definition srcError : Source.t :=
  Source.mk (str "s2") (str "http://a/2") error None None.
Definition srcOffline : Source.t :=
  Source.mk (str "s3") (str "http://a/3") offline None None.
Definition srcChecking : Source.t :=
  Source.mk (str "s4") (str "http://a/4") checking None None.

(** One channel with one source. *)
Definition oneChannel : Playlist :=
  mkPlaylist (str "CCTV1,http://a/1.m3u8") China.

(** The source answers after 300 ms. *)
Definition netOnline300 (i : nat) : FetchOutcome :=
  Responded true 0 300 NoBody.

(** The source answers after 300 ms with a playlist that names a
    resolution. *)
Definition netOnline720 (i : nat) : FetchOutcome :=
  Responded true 0 300
    (Chunk (str "#EXT-X-STREAM-INF:BANDWIDTH=1280000,RESOLUTION=1280x720")).

Definition probed720 : list Channel.t :=
  let c0 := Env.run [oneChannel] in
  last (runCheck netOnline720 false c0 c0) c0.

Definition src720 : Source.t :=
  Source.mk (Env.rnd 1) (str "http://a/1.m3u8") online (Some 300%Z)
    (Some (str "720P")).

Definition failedProbe : CheckResult :=
  checkSource (mkTask (Env.rnd 0) (Env.rnd 1) (str "http://a/1.m3u8")) Rejected.

(** ** Vocabulary of the further properties *)

(** Does a key end with a hyphen or an underscore? *)
Definition endsWithSeparator (k : jsstring) : bool :=
  match k with
  | [] => false
  | _ :: _ => Re.isSeparator (last k 0%N)
  end.

Definition isLowerAscii (c : N) : bool := ((97 <=? c) && (c <=? 122))%N.

(** TAB, LF, VT, FF, CR and the space. *)
Definition asciiSpace (c : N) : bool := isWhiteSpace c && isAscii c.

(** A spelling of a numbered CCTV channel: CCTV, spaces, an optional hyphen,
    spaces, the digits, an optional plus sign. *)
Definition cctvSpelling (w1 : jsstring) (dash : bool) (w2 d : jsstring)
    (plus : bool) : jsstring :=
  str "CCTV" ++ w1 ++ (if dash then [45%N] else []) ++ w2 ++ d
  ++ (if plus then [43%N] else []).

(** The units of the canonical form CCTV-digits, with or without plus. *)
Definition cctvUnit (c : N) : bool :=
  (isDigit c || (c =? 67) || (c =? 84) || (c =? 86) || (c =? 45) || (c =? 43))%N.

(** A literal unit of a keyword that no canonical CCTV key holds. *)
Definition alienUnit (c : N) : bool := negb (cctvUnit c || (c =? 46)%N).

(** What the parser asks of a record. *)
Definition recordOk (category : Category) (r : ParsedRecord) : Prop :=
  looksLikeUrl (recUrl r) = true
  /\ recCategory r = category
  /\ (recName r <> [] \/ recGroup r = str "Other").

(** The aggregator, told by what it computes: the records are grouped by
    canonical key, in the order in which the keys first occur; a group takes
    its name, group label and category from its first record and lists the
    URLs of its records, each once, in the order of their first occurrence. *)
Definition dedupe (l : list jsstring) : list jsstring :=
  fold_left
    (fun acc x => if existsb (fun y => jseqb y x) acc then acc else acc ++ [x])
    l [].

Definition recordKey (upperNonAscii : jsstring -> jsstring) (r : ParsedRecord)
    : jsstring :=
  normalizeName upperNonAscii (trim (recName r)).

Definition recordsWithKey (upperNonAscii : jsstring -> jsstring)
    (k : jsstring) (recs : list ParsedRecord) : list ParsedRecord :=
  filter (fun r => jseqb (recordKey upperNonAscii r) k) recs.

Definition groupedView (upperNonAscii : jsstring -> jsstring)
    (recs : list ParsedRecord) (k : jsstring)
    : jsstring * jsstring * Category * list jsstring :=
  match recordsWithKey upperNonAscii k recs with
  | [] => ([], [], Other, [])
  | first :: _ =>
      (trim (recName first), groupOrOther (recGroup first), recCategory first,
       dedupe (map recUrl (recordsWithKey upperNonAscii k recs)))
  end.

Definition groupedCatalog (upperNonAscii : jsstring -> jsstring)
    (recs : list ParsedRecord)
    : StrMap.t (jsstring * jsstring * Category * list jsstring) :=
  map (fun k => (k, groupedView upperNonAscii recs k))
    (dedupe (filter usableKey (map (recordKey upperNonAscii) recs))).

(** The canonical key of a channel. *)
Definition channelKey (upperNonAscii : jsstring -> jsstring) (ch : Channel.t)
    : jsstring :=
  normalizeName upperNonAscii (Channel.name ch).

(** Every identifier of a catalog: of each channel, then of its sources. *)
Definition allIds (c : list Channel.t) : list jsstring :=
  flat_map (fun ch => Channel.id ch :: map Source.id (Channel.sources ch)) c.

(** The place of a channel in the final order: the channels named CCTV come
    first, and within either half those named with the WeiShi marker. *)
Definition channelRank (upperNonAscii : jsstring -> jsstring) (ch : Channel.t)
    : nat :=
  (if includes (toUpperCase upperNonAscii (Channel.name ch)) (str "CCTV")
   then 0 else 2)
  + (if includes (Channel.name ch) [21355; 35270]%N then 0 else 1).

(** A generator of identifiers that repeats none, on single code units. *)
Definition unitIds (n : nat) : jsstring := [N.of_nat n].

(** What a check cycle leaves untouched: the identity of the channels and,
    for each channel, the identifiers and URLs of its sources. *)
Definition channelIdentity (ch : Channel.t)
    : jsstring * jsstring * jsstring * Category :=
  (Channel.id ch, Channel.name ch, Channel.group ch, Channel.category ch).

Definition sourceIdentity (s : Source.t) : jsstring * jsstring :=
  (Source.id s, Source.url s).

Definition sameStructure (c c' : list Channel.t) : Prop :=
  map channelIdentity c = map channelIdentity c'
  /\ Forall2
       (fun ch ch' =>
          Permutation (map sourceIdentity (Channel.sources ch))
            (map sourceIdentity (Channel.sources ch')))
       c c'.

(** The results of a whole cycle, batch after batch. *)
Fixpoint allResults (net : nat -> FetchOutcome) (i : nat)
    (batches : list (list Task)) : list CheckResult :=
  match batches with
  | [] => []
  | batch :: rest =>
      probeBatch net i batch ++ allResults net (i + length batch) rest
  end.

(** The best source of a channel, when there is one, is its first source. *)
Definition bestIsFirst (ch : Channel.t) : Prop :=
  match Channel.bestSource ch with
  | None => True
  | Some b => hd_error (Channel.sources ch) = Some b
  end.

(** The sources of a channel are in the order of their scores, and its best
    source, when there is one, is the first of them. *)
Definition ranked (ch : Channel.t) : Prop :=
  bestIsFirst ch /\ StronglySorted by_score_desc (Channel.sources ch).

(** The catalogs between two check cycles: what the aggregator returns, and
    what a cycle leaves when it is over. *)
Inductive Settled : list Channel.t -> Prop :=
| settled_aggregate upperNonAscii rnd localeCompare playlists :
    Settled (parseAndAggregate upperNonAscii rnd localeCompare playlists)
| settled_cycle c net targetChannels :
    Settled c ->
    Settled (last (runCheck net false targetChannels c) c).

(** The latency that the score of an online source counts. *)
Definition latencyOf (s : Source.t) : Z :=
  match Source.latency s with
  | Some t => t
  | None => 0%Z
  end.

(** Online, then unverifiable, then being checked, then the rest. *)
Definition statusRank (s : Source.t) : nat :=
  match Source.status s with
  | online => 0
  | error => 1
  | checking => 2
  | idle | offline => 3
  end.

(** The channel that a task is written to. *)
Definition chanIndex (c : list Channel.t) (t : Task) : option nat :=
  findIndex (fun ch => jseqb (Channel.id ch) (channelId t)) c.

(** While tasks are pending, a channel may be out of order only if a pending
    task is still to be written to it. *)
Definition bestPending (pending : list Task) (c : list Channel.t) : Prop :=
  forall i ch,
    nth_error c i = Some ch ->
    ranked ch
    \/ exists t,
         In t pending /\ chanIndex c t = Some i
         /\ In (sourceId t) (map Source.id (Channel.sources ch)).

(** While tasks are pending, a source may be marked as being checked only if
    a pending task is still to be written to it. *)
Definition checkingPending (pending : list Task) (c : list Channel.t) : Prop :=
  forall i ch s,
    nth_error c i = Some ch -> In s (Channel.sources ch) ->
    Source.status s = checking ->
    exists t,
      In t pending /\ chanIndex c t = Some i /\ sourceId t = Source.id s.

Definition sourceIdsDistinct (c : list Channel.t) : Prop :=
  forall ch, In ch c -> NoDup (map Source.id (Channel.sources ch)).

Definition noneChecking (c : list Channel.t) : Prop :=
  allSources (fun s => Source.status s <> checking) c.

(** The order of the sources that the scores stand for: by class and, among
    the online sources, by latency. *)
Definition rankedBefore (a b : Source.t) : Prop :=
  (statusRank a < statusRank b)%nat
  \/ (statusRank a = statusRank b
      /\ (Source.status a = online -> (latencyOf a <= latencyOf b)%Z)).

(** The sources of a list that have a given score, in their order. *)
Definition withScore (v : Z) (l : list Source.t) : list Source.t :=
  filter (fun s => (getScore s =? v)%Z) l.

(** A faster online source. *)
Definition srcOnline120 : Source.t :=
  Source.mk (str "s5") (str "http://a/5") online (Some 120%Z) None.

(** ** App.tsx: the filter, the figures of the header and the player

    [toLowerCase] stands for [String.prototype.toLowerCase], whose Unicode
    case table is no part of this development. *)

Inductive Tab := TabAll | TabChina | TabInternational.

Definition matchFilter (toLowerCase : jsstring -> jsstring)
    (filterText : jsstring) (c : Channel.t) : bool :=
  includes (toLowerCase (Channel.name c)) (toLowerCase filterText).

(** [activeTab === 'All' ? true : c.category === activeTab] *)
Definition matchTab (activeTab : Tab) (c : Channel.t) : bool :=
  match activeTab with
  | TabAll => true
  | TabChina =>
      match Channel.category c with China => true | _ => false end
  | TabInternational =>
      match Channel.category c with International => true | _ => false end
  end.

Definition filteredChannels (toLowerCase : jsstring -> jsstring)
    (filterText : jsstring) (activeTab : Tab) (channels : list Channel.t)
    : list Channel.t :=
  filter (fun c => matchFilter toLowerCase filterText c && matchTab activeTab c)
    channels.

Definition handleCheckAll (toLowerCase : jsstring -> jsstring)
    (net : nat -> FetchOutcome) (isChecking : bool)
    (filterText : jsstring) (activeTab : Tab) (channels : list Channel.t)
    : list (list Channel.t) :=
  runCheck net isChecking (filteredChannels toLowerCase filterText activeTab channels)
    channels.

Definition handleCheckChannel (net : nat -> FetchOutcome) (isChecking : bool)
    (channel : Channel.t) (channels : list Channel.t)
    : list (list Channel.t) :=
  runCheck net isChecking [channel] channels.

(** The figures of the header. *)
Record StreamStats := mkStats {
  totalChannels : nat;
  totalSources : nat;
  onlineSources : nat;
  avgLatency : Z
}.

Record StatsAcc := mkStatsAcc {
  totalSrc : nat;
  onlineSrc : nat;
  totalLatency : Z;
  latencyCount : nat
}.

(** The body of the inner [forEach]; [if (s.latency)] holds of a latency
    that is neither [null] nor zero. *)
Definition countSource (acc : StatsAcc) (s : Source.t) : StatsAcc :=
  match Source.status s with
  | online =>
      match Source.latency s with
      | Some l =>
          if (l =? 0)%Z then
            mkStatsAcc (totalSrc acc) (S (onlineSrc acc)) (totalLatency acc)
              (latencyCount acc)
          else
            mkStatsAcc (totalSrc acc) (S (onlineSrc acc))
              (totalLatency acc + l) (S (latencyCount acc))
      | None =>
          mkStatsAcc (totalSrc acc) (S (onlineSrc acc)) (totalLatency acc)
            (latencyCount acc)
      end
  | _ => acc
  end.

Definition countChannel (acc : StatsAcc) (ch : Channel.t) : StatsAcc :=
  fold_left countSource (Channel.sources ch)
    (mkStatsAcc (totalSrc acc + length (Channel.sources ch)) (onlineSrc acc)
       (totalLatency acc) (latencyCount acc)).

Definition stats (channels : list Channel.t) : StreamStats :=
  let acc := fold_left countChannel channels (mkStatsAcc 0 0 0 0) in
  mkStats (length channels) (totalSrc acc) (onlineSrc acc)
    (if (0 <? latencyCount acc)%nat
     then round (inject_Z (totalLatency acc)
                 / inject_Z (Z.of_nat (latencyCount acc)))
     else 0%Z).

(** The online sources that the average counts, and their latencies. *)
Definition timed (s : Source.t) : bool :=
  match Source.status s, Source.latency s with
  | online, Some l => negb (l =? 0)%Z
  | _, _ => false
  end.

Definition isOnline (s : Source.t) : bool :=
  match Source.status s with online => true | _ => false end.

Definition sourcesOf (channels : list Channel.t) : list Source.t :=
  flat_map Channel.sources channels.

(** The player and the expanded rows. *)
Record ActiveSource := mkActive {
  activeUrl : jsstring;
  activeName : jsstring;
  activeResolution : option jsstring;
  activeLatency : option Z
}.

Record Ui := mkUi {
  activeSource : option ActiveSource;
  expandedChannels : list jsstring
}.

(** [expandedChannels] is a [Set]: its members in the order of their
    insertion. *)
Definition setHas (l : list jsstring) (id : jsstring) : bool :=
  existsb (jseqb id) l.

Definition setDelete (l : list jsstring) (id : jsstring) : list jsstring :=
  filter (fun x => negb (jseqb id x)) l.

Definition setAdd (l : list jsstring) (id : jsstring) : list jsstring :=
  if setHas l id then l else l ++ [id].

Definition toggleExpand (ui : Ui) (id : jsstring) : Ui :=
  let newSet := expandedChannels ui in
  mkUi (activeSource ui)
    (if setHas newSet id then setDelete newSet id else setAdd newSet id).

Definition handlePlaySource (ui : Ui) (source : Source.t)
    (channelName : jsstring) : Ui :=
  mkUi
    (Some (mkActive (Source.url source) channelName (Source.resolution source)
             (Source.latency source)))
    (expandedChannels ui).

Definition handlePlayBest (ui : Ui) (channel : Channel.t) : Ui :=
  let targetSource :=
    match Channel.bestSource channel with
    | Some b =>
        match Source.status b with
        | online => Some b
        | _ => hd_error (Channel.sources channel)
        end
    | None => hd_error (Channel.sources channel)
    end in
  match targetSource with
  | Some t =>
      mkUi
        (Some (mkActive (Source.url t) (Channel.name channel)
                 (Source.resolution t) (Source.latency t)))
        (expandedChannels ui)
  | None =>
      if setHas (expandedChannels ui) (Channel.id channel) then ui
      else toggleExpand ui (Channel.id channel)
  end.

(** A catalog of two channels. *)
Definition twoChannels : Playlist :=
  mkPlaylist
    (join 10 [str "CCTV1,http://a/1.m3u8"; str "CCTV2,http://a/2.m3u8"]) China.

(** The sum of the latencies that the average counts. *)
Definition latencySum (l : list Source.t) : Z :=
  fold_right Z.add 0%Z (map latencyOf l).

(** The rounded mean of the latencies of a list of sources, 0 for none. *)
Definition meanLatency (l : list Source.t) : Z :=
  if (0 <? length l)%nat
  then round (inject_Z (latencySum l) / inject_Z (Z.of_nat (length l)))
  else 0%Z.

(** An online source whose probe took no time, beside one of 100 ms. *)
Definition srcOnline0 : Source.t :=
  Source.mk (str "s6") (str "http://a/6") online (Some 0%Z) None.
Definition srcOnline100 : Source.t :=
  Source.mk (str "s7") (str "http://a/7") online (Some 100%Z) None.

(** The channel of the catalog [probed720]. *)
Definition src720Channel : Channel.t :=
  Channel.mk (Env.rnd 0) (str "CCTV1") (str "Other") China [src720]
    (Some src720).

(** What a task is addressed to. *)
Definition taskKey (t : Task) : jsstring * jsstring :=
  (channelId t, sourceId t).

Definition channelIdsDistinct (c : list Channel.t) : Prop :=
  NoDup (map Channel.id c).

(** The source that a result is addressed to shows the result. *)
Definition stored (res : CheckResult) (c : list Channel.t) : Prop :=
  forall ch s,
    In ch c -> Channel.id ch = channelId (resTask res) ->
    In s (Channel.sources ch) -> Source.id s = sourceId (resTask res) ->
    Source.status s = resStatus res
    /\ Source.latency s = resLatency res
    /\ Source.resolution s = resResolution res.

(** The check cycle over what [checkSource] returns: [probe k task] stands
    for the value that the call of [checkSource] on the [k]-th task of the
    cycle resolves to.  The cycle itself reads the identifiers, the status,
    the latency and the resolution of that value and nothing else. *)
Definition probeBatchWith (probe : nat -> Task -> CheckResult) (i : nat)
    (batch : list Task) : list CheckResult :=
  map (fun p => probe (fst p) (snd p)) (combine (seq i (length batch)) batch).

Fixpoint runBatchesWith (probe : nat -> Task -> CheckResult) (i : nat)
    (batches : list (list Task)) (prev : list Channel.t)
    : list (list Channel.t) :=
  match batches with
  | [] => []
  | batch :: rest =>
      let next := writeBack (probeBatchWith probe i batch) prev in
      next :: runBatchesWith probe (i + length batch) rest next
  end.

Definition runCheckWith (probe : nat -> Task -> CheckResult)
    (isChecking : bool) (targetChannels : list Channel.t)
    (prev : list Channel.t) : list (list Channel.t) :=
  if isChecking || (length targetChannels =? 0)%nat then []
  else
    let tasks := flattenTasks targetChannels in
    let marked := markChecking tasks prev in
    marked :: runBatchesWith probe 0 (batchesOf tasks) marked.

(** Two probes of one channel: the first source does not answer, the second
    one does. *)
Definition probeSecondOnly (k : nat) (task : Task) : CheckResult :=
  match k with
  | O => mkResult task offline None None
  | S _ => mkResult task online (Some 120%Z) (Some (str "720P"))
  end.

Definition secondOnly : list Channel.t :=
  last (runCheckWith probeSecondOnly false (Env.run [newsTwice])
          (Env.run [newsTwice]))
    (Env.run [newsTwice]).

(** * Properties *)

(** ** The normalizer *)

(** C1: the spellings CCTV1, CCTV 1 and CCTV-1, and the annotated
    CCTV-1 [IPv6] HD, share one canonical key; the empty name and the name A
    give keys shorter than two units, and the aggregator drops such a record
    without touching its map. *)
Theorem normalize_cctv_spellings :
  forall (upperNonAscii : jsstring -> jsstring) (rnd : nat -> jsstring),
    normalizeName upperNonAscii (str "CCTV1") = str "CCTV-1" /\
    normalizeName upperNonAscii (str "CCTV 1") = str "CCTV-1" /\
    normalizeName upperNonAscii (str "CCTV-1") = str "CCTV-1" /\
    normalizeName upperNonAscii (str "CCTV-1 [IPv6] HD") = str "CCTV-1" /\
    (length (normalizeName upperNonAscii (str "")) < 2)%nat /\
    (length (normalizeName upperNonAscii (str "A")) < 2)%nat /\
    (forall group url category st,
        addChannelToMap upperNonAscii rnd (str "") group url category st = st) /\
    (forall group url category st,
        addChannelToMap upperNonAscii rnd (str "A") group url category st = st).
Proof.
  intros up rnd.
  assert (Hempty : normalizeName up (trim (str "")) = []) by reflexivity.
  assert (HA : normalizeName up (trim (str "A")) = str "A") by reflexivity.
  split; [reflexivity|]. split; [reflexivity|]. split; [reflexivity|].
  split; [reflexivity|].
  split; [change (0 < 2)%nat; lia|]. split; [change (1 < 2)%nat; lia|].
  split; intros group url category st; unfold addChannelToMap.
  - now rewrite Hempty.
  - now rewrite HA.
Qed.

(** ** Step 4 of the normalizer: the noise tokens *)

Lemma replaceFrom_no_match (k : jsstring) (s : jsstring) :
  occurs k s = false -> replaceFrom (Re.keyword k) 0 s = s.
Proof.
  induction s as [|c r IH]; intros Hocc; [reflexivity|].
  simpl in Hocc. apply orb_false_iff in Hocc as [Hhere Hlater].
  cbn [replaceFrom]. unfold Re.keyword at 1. rewrite Hhere.
  now rewrite IH.
Qed.

Lemma removeKeywords_token_free (ks : list jsstring) (s : jsstring) :
  (forall k, In k ks -> occurs k s = false) -> removeKeywords ks s = s.
Proof.
  unfold removeKeywords. induction ks as [|k ks IH]; intros Hfree; [reflexivity|].
  simpl. unfold replaceAll. rewrite replaceFrom_no_match.
  - apply IH. intros k' Hk'. apply Hfree. now right.
  - apply Hfree. now left.
Qed.

Lemma tokenFree_occurs (s k : jsstring) :
  tokenFree s = true -> In k keywords -> occurs k s = false.
Proof.
  unfold tokenFree. rewrite forallb_forall. intros H Hk.
  apply negb_true_iff. now apply H.
Qed.







(** ** The re-ranking of the sources *)

Section SortFacts.
Variable A : Type.
Variable cmp : A -> A -> Z.

Lemma insertSorted_perm (x : A) (l : list A) :
  Permutation (x :: l) (insertSorted cmp x l).
Proof.
  induction l as [|y r IH]; simpl; [apply Permutation_refl|].
  destruct (cmp x y <=? 0)%Z; [apply Permutation_refl|].
  eapply perm_trans; [apply perm_swap|]. now apply perm_skip.
Qed.

Lemma sort_perm (l : list A) : Permutation l (sort cmp l).
Proof.
  induction l as [|x r IH]; simpl; [constructor|].
  eapply perm_trans; [apply perm_skip, IH|]. apply insertSorted_perm.
Qed.

Lemma sort_In (l : list A) (x : A) : In x (sort cmp l) <-> In x l.
Proof.
  split; apply Permutation_in;
    [apply Permutation_sym|]; apply sort_perm.
Qed.

Lemma sort_length (l : list A) : length (sort cmp l) = length l.
Proof. symmetry. apply Permutation_length, sort_perm. Qed.
End SortFacts.

Lemma insertSorted_by_score (x : Source.t) (l : list Source.t) :
  StronglySorted by_score_desc l ->
  StronglySorted by_score_desc
    (insertSorted (fun a b => (getScore b - getScore a)%Z) x l).
Proof.
  induction 1 as [|y r Hr IH Hy]; simpl.
  - repeat constructor.
  - destruct (Z.leb_spec (getScore y - getScore x) 0) as [Hle|Hgt].
    + constructor; [now constructor|].
      constructor; [unfold by_score_desc; lia|].
      rewrite Forall_forall in *. intros z Hz. specialize (Hy z Hz).
      unfold by_score_desc in *. lia.
    + constructor; [assumption|].
      rewrite Forall_forall in *. intros z Hz.
      apply (Permutation_in z (Permutation_sym (insertSorted_perm _ x r))) in Hz.
      destruct Hz as [<-|Hz]; [unfold by_score_desc; lia | now apply Hy].
Qed.

Lemma sortSources_sorted (l : list Source.t) :
  StronglySorted by_score_desc (sortSources l).
Proof.
  unfold sortSources. induction l as [|x r IH]; simpl; [constructor|].
  now apply insertSorted_by_score.
Qed.

(** A list sorted by descending score that is a permutation of a list with
    strictly descending scores is that list. *)
Lemma sorted_perm_strict (t l : list Source.t) :
  StronglySorted (fun a b => (getScore b < getScore a)%Z) t ->
  StronglySorted by_score_desc l ->
  Permutation l t ->
  l = t.
Proof.
  intros Ht. revert l.
  induction Ht as [|x t' Ht' IH Hx]; intros l Hl Hperm.
  - now apply Permutation_nil, Permutation_sym.
  - destruct l as [|y l'].
    + apply Permutation_nil in Hperm. discriminate.
    + assert (Hxy : y = x).
      { assert (Hy : In y (x :: t'))
          by (eapply Permutation_in; [eassumption | now left]).
        destruct Hy as [Hy|Hy]; [now symmetry|].
        assert (Hx' : In x (y :: l'))
          by (eapply Permutation_in;
              [apply Permutation_sym; eassumption | now left]).
        destruct Hx' as [Hx'|Hx']; [assumption|].
        apply StronglySorted_inv in Hl as [_ Hall].
        rewrite Forall_forall in Hall, Hx.
        specialize (Hall x Hx'). specialize (Hx y Hy).
        unfold by_score_desc in Hall. lia. }
      subst y. f_equal. apply IH.
      * now apply StronglySorted_inv in Hl.
      * eapply Permutation_cons_inv; eassumption.
Qed.

(** ** The line grammar *)

Lemma jseqb_eq (a b : jsstring) : jseqb a b = true <-> a = b.
Proof. unfold jseqb. destruct (list_eq_dec N.eq_dec a b); split; congruence. Qed.

Lemma jseqb_refl (a : jsstring) : jseqb a a = true.
Proof. now apply jseqb_eq. Qed.

Lemma jseqb_neq (a b : jsstring) : jseqb a b = false <-> a <> b.
Proof. unfold jseqb. destruct (list_eq_dec N.eq_dec a b); split; congruence. Qed.

Lemma startsWith_hash_extinf (line : jsstring) :
  startsWith line (str "#") = false -> startsWith line (str "#EXTINF:") = false.
Proof.
  destruct line as [|c r]; [reflexivity|].
  unfold startsWith. change (str "#") with [35%N].
  change (str "#EXTINF:") with (35%N :: str "EXTINF:").
  cbn [stripPrefix]. destruct (35 =? c)%N; [discriminate | reflexivity].
Qed.

Lemma startsWith_nil (p : jsstring) : p <> [] -> startsWith [] p = false.
Proof. destruct p; [congruence | reflexivity]. Qed.

Section ParserFacts.
Variable Acc : Type.
Variable add : jsstring -> jsstring -> jsstring -> Category -> Acc -> Acc.
Variable category : Category.

(** A bare URL line hands the pending name and group to the callback,
    unless no name is pending, and leaves what is pending as it is. *)
Lemma processLine_bare (pd : Pending) (acc : Acc) (raw : jsstring) :
  isBareUrlLine (trim raw) = true ->
  processLine add category (pd, acc) raw
  = (pd, match currentName pd with
         | [] => acc
         | _ :: _ =>
             add (currentName pd) (currentGroup pd) (trim raw) category acc
         end).
Proof.
  unfold isBareUrlLine, processLine. intros H.
  apply andb_true_iff in H as [H Hscheme].
  apply andb_true_iff in H as [Hcomma Hhash].
  apply negb_true_iff in Hcomma, Hhash.
  destruct (trim raw) as [|c r] eqn:Hline.
  { apply orb_true_iff in Hscheme as [Hs|Hs]; discriminate Hs. }
  rewrite (startsWith_hash_extinf _ Hhash), Hcomma, Hhash, Hscheme.
  cbn [andb negb fst snd]. now destruct (currentName pd).
Qed.

(** A metadata line only replaces what is pending. *)
Lemma processLine_metadata (pd : Pending) (acc : Acc) (raw : jsstring) :
  isMetadataLine (trim raw) = true ->
  processLine add category (pd, acc) raw = (readExtinf (trim raw), acc).
Proof.
  unfold isMetadataLine, processLine. intros H.
  destruct (trim raw) as [|c r] eqn:Hline; [discriminate H|].
  now rewrite H.
Qed.

(** An inline line hands its name and URL to the callback, with the group
    Other, and leaves no name pending. *)
Lemma processLine_inline (pd : Pending) (acc : Acc) (raw : jsstring) :
  isInlineLine (trim raw) = true ->
  processLine add category (pd, acc) raw
  = (mkPending [] (currentGroup pd),
     add (trim (join 44 (removelast (split 44 (trim raw))))) (str "Other")
       (trim (last (split 44 (trim raw)) [])) category acc).
Proof.
  unfold isInlineLine, isMetadataLine, processLine. intros H.
  apply andb_true_iff in H as [H Hurl].
  apply andb_true_iff in H as [H Hhash].
  apply andb_true_iff in H as [Hmeta Hcomma].
  apply negb_true_iff in Hmeta.
  destruct (trim raw) as [|c r] eqn:Hline; [discriminate Hcomma|].
  now rewrite Hmeta, Hcomma, Hhash, Hurl.
Qed.

Lemma parse_bare_lines (urls : list jsstring) (pd : Pending) (acc : Acc) :
  Forall (fun u => isBareUrlLine (trim u) = true) urls ->
  fold_left (processLine add category) urls (pd, acc)
  = (pd, match currentName pd with
         | [] => acc
         | _ :: _ =>
             fold_left
               (fun a u =>
                  add (currentName pd) (currentGroup pd) (trim u) category a)
               urls acc
         end).
Proof.
  intros Hall. revert acc.
  induction Hall as [|u urls Hu _ IH]; intros acc; simpl.
  - now destruct (currentName pd).
  - rewrite (processLine_bare _ _ _ Hu), IH. now destruct (currentName pd).
Qed.
End ParserFacts.

Section RecordsFacts.
Variable Acc : Type.
Variable add : jsstring -> jsstring -> jsstring -> Category -> Acc -> Acc.

(** The loop calls the callback on the records, one after the other. *)
Lemma processLine_records (category : Category) (pd : Pending)
    (recs : list ParsedRecord) (acc0 : Acc) (raw : jsstring) :
  processLine add category (pd, fold_left (addRecord add) recs acc0) raw
  = (fst (processLine emit category (pd, recs) raw),
     fold_left (addRecord add)
       (snd (processLine emit category (pd, recs) raw)) acc0).
Proof.
  unfold processLine. cbn [fst snd].
  destruct (trim raw) as [|c r]; [reflexivity|].
  destruct (startsWith _ (str "#EXTINF:")); [reflexivity|].
  destruct (_ && _).
  - destruct (looksLikeUrl _); [|reflexivity].
    cbn [fst snd]. unfold emit. now rewrite fold_left_app.
  - destruct (_ && _); [|reflexivity].
    destruct (currentName pd); [reflexivity|].
    cbn [fst snd]. unfold emit. now rewrite fold_left_app.
Qed.

Lemma fold_processLine_records (category : Category) (lines : list jsstring)
    (pd : Pending) (recs : list ParsedRecord) (acc0 : Acc) :
  fold_left (processLine add category) lines
    (pd, fold_left (addRecord add) recs acc0)
  = (fst (fold_left (processLine emit category) lines (pd, recs)),
     fold_left (addRecord add)
       (snd (fold_left (processLine emit category) lines (pd, recs))) acc0).
Proof.
  revert pd recs. induction lines as [|raw lines IH]; intros pd recs.
  - reflexivity.
  - cbn [fold_left]. rewrite processLine_records.
    destruct (processLine emit category (pd, recs) raw) as [pd' recs'].
    apply IH.
Qed.

Lemma parsePlaylist_records (p : Playlist) (acc : Acc) :
  parsePlaylist add acc p = fold_left (addRecord add) (recordsOf p) acc.
Proof.
  unfold parsePlaylist, recordsOf, parsePlaylist, parseLines.
  change acc with (fold_left (addRecord add) [] acc) at 1.
  now rewrite fold_processLine_records.
Qed.

Lemma parsePlaylists_records (ps : list Playlist) (acc : Acc) :
  parsePlaylists add ps acc
  = fold_left (addRecord add) (flat_map recordsOf ps) acc.
Proof.
  unfold parsePlaylists. revert acc.
  induction ps as [|p ps IH]; intros acc; [reflexivity|].
  cbn [fold_left flat_map]. rewrite fold_left_app, IH.
  now rewrite parsePlaylist_records.
Qed.
End RecordsFacts.

Lemma emit_fold (recs : list ParsedRecord) (category : Category)
    (n g : jsstring) (urls : list jsstring) :
  fold_left (fun a u => emit n g (trim u) category a) urls recs
  = recs ++ map (fun u => mkRecord n g (trim u) category) urls.
Proof.
  revert recs. induction urls as [|u urls IH]; intros recs; simpl.
  - now rewrite app_nil_r.
  - rewrite IH. unfold emit. now rewrite <- app_assoc.
Qed.

(** The lines that the third branch of the loop takes, those with the prefix
    http or rtmp: such a line is paired with the name and the group that are
    pending, and dropped when no name is pending; it leaves what is pending
    untouched, so that the lines of this kind that follow a metadata line
    all yield a record with the name and group of that line. *)
Theorem bare_url_lines_keep_pending
    (p : Playlist) (pre : list jsstring) (meta : jsstring)
    (urls : list jsstring) :
  split 10 (content p) = pre ++ meta :: urls ->
  isMetadataLine (trim meta) = true ->
  Forall (fun u => isBareUrlLine (trim u) = true) urls ->
  (forall pd recs raw,
      isBareUrlLine (trim raw) = true ->
      processLine emit (playlistCategory p) (pd, recs) raw
      = (pd, match currentName pd with
             | [] => recs
             | _ :: _ =>
                 recs ++ [mkRecord (currentName pd) (currentGroup pd)
                            (trim raw) (playlistCategory p)]
             end))
  /\ recordsOf p
     = recordsOfLines (playlistCategory p) pre
       ++ match currentName (readExtinf (trim meta)) with
          | [] => []
          | _ :: _ =>
              map (fun u =>
                     mkRecord (currentName (readExtinf (trim meta)))
                       (currentGroup (readExtinf (trim meta)))
                       (trim u) (playlistCategory p))
                urls
          end.
Proof.
  intros Hsplit Hmeta Hurls. split.
  - intros pd recs raw Hraw. now rewrite processLine_bare.
  - unfold recordsOf, parsePlaylist, recordsOfLines, parseLines.
    rewrite Hsplit, fold_left_app. cbn [fold_left].
    destruct (fold_left _ pre _) as [pd0 recs0]. cbn [snd].
    rewrite processLine_metadata by assumption.
    rewrite parse_bare_lines by assumption. cbn [snd].
    destruct (currentName (readExtinf (trim meta))).
    + now rewrite app_nil_r.
    + apply emit_fold.
Qed.

(** C8 fails for the scheme prefix p2p.  The inline branch takes a URL that
    starts with http, rtmp or p2p; the branch of the bare URL lines tests
    http and rtmp only.  A line p2p://peer/1 after a metadata line gives no
    record, although a name is pending, where the same line with the prefix
    http gives one and the same URL on an inline line gives one; and so for
    every line with the prefix p2p and no comma: it changes nothing. *)
Theorem p2p_bare_line_is_dropped :
  recordsOf p2pBare = []
  /\ recordsOf httpBare
     = [mkRecord (str "CCTV-1") (str "News") (str "http://peer/1") China]
  /\ recordsOf p2pInline
     = [mkRecord (str "CCTV-1") (str "Other") (str "p2p://peer/1") China]
  /\ looksLikeUrl (str "p2p://peer/1") = true
  /\ isBareUrlLine (str "p2p://peer/1") = false
  /\ forall (Acc : Type)
            (add : jsstring -> jsstring -> jsstring -> Category -> Acc -> Acc)
            (category : Category) (st : Pending * Acc) (raw : jsstring),
       startsWith (trim raw) (str "p2p") = true ->
       includesUnit (trim raw) 44 = false ->
       processLine add category st raw = st.
Proof.
  split; [reflexivity|]. split; [reflexivity|]. split; [reflexivity|].
  split; [reflexivity|]. split; [reflexivity|].
  intros Acc add category st raw Hp2p Hcomma. unfold processLine.
  destruct (trim raw) as [|c r]; [reflexivity|]. rewrite Hcomma.
  unfold startsWith in Hp2p. change (str "p2p") with (112%N :: str "2p") in Hp2p.
  cbn [stripPrefix] in Hp2p.
  destruct (N.eqb_spec 112 c) as [<-|]; [|discriminate Hp2p].
  reflexivity.
Qed.

(** ** The map of channels *)

Section StrMapFacts.
Variable V : Type.
Implicit Types (m : StrMap.t V) (k : jsstring) (v : V).

Lemma get_set_same k v m : StrMap.get k (StrMap.set k v m) = Some v.
Proof.
  induction m as [|[k' v'] r IH]; simpl.
  - now rewrite jseqb_refl.
  - destruct (jseqb k' k) eqn:E; simpl; now rewrite E.
Qed.

Lemma get_set_other k k' v m :
  k <> k' -> StrMap.get k' (StrMap.set k v m) = StrMap.get k' m.
Proof.
  intros Hne. induction m as [|[k0 v0] r IH]; simpl.
  - apply jseqb_neq in Hne. now rewrite Hne.
  - destruct (jseqb k0 k) eqn:E; simpl.
    + apply jseqb_eq in E. subst k0. apply jseqb_neq in Hne. now rewrite Hne.
    + now rewrite IH.
Qed.

Lemma set_set k v1 v2 m :
  StrMap.set k v2 (StrMap.set k v1 m) = StrMap.set k v2 m.
Proof.
  induction m as [|[k' v'] r IH]; simpl.
  - now rewrite jseqb_refl.
  - destruct (jseqb k' k) eqn:E; simpl; rewrite E; [reflexivity|].
    now rewrite IH.
Qed.

Lemma set_absent k v m :
  StrMap.get k m = None -> StrMap.set k v m = m ++ [(k, v)].
Proof.
  induction m as [|[k' v'] r IH]; simpl; [reflexivity|].
  destruct (jseqb k' k); [discriminate|]. intros H. now rewrite IH.
Qed.

Lemma values_set_In k v m x :
  In x (StrMap.values (StrMap.set k v m)) -> x = v \/ In x (StrMap.values m).
Proof.
  unfold StrMap.values. induction m as [|[k' v'] r IH]; simpl.
  - intros [<-|[]]. now left.
  - destruct (jseqb k' k); simpl.
    + intros [<-|H]; [now left | now right; right].
    + intros [<-|H]; [now right; left|].
      destruct (IH H) as [->|H']; [now left | now right; right].
Qed.

Lemma get_In_values k v m : StrMap.get k m = Some v -> In v (StrMap.values m).
Proof.
  unfold StrMap.values. induction m as [|[k' v'] r IH]; simpl; [discriminate|].
  destruct (jseqb k' k); [intros [= ->]; now left | intros H; right; auto].
Qed.
End StrMapFacts.

Section AggregatorFacts.
Variable upperNonAscii : jsstring -> jsstring.
Variable rnd : nat -> jsstring.

Let add := addChannelToMap upperNonAscii rnd.

(** What [addChannelToMap] does, case by case. *)
Lemma addChannelToMap_cases (name group url : jsstring) (category : Category)
    (st : AggState) :
  add name group url category st
  = if usableKey (normalizeName upperNonAscii (trim name)) then
      match StrMap.get (normalizeName upperNonAscii (trim name)) (channelMap st) with
      | Some ch =>
          if hasUrl url ch then st
          else mkAgg (StrMap.set (normalizeName upperNonAscii (trim name))
                        (withSource ch (newSource rnd (draws st) url))
                        (channelMap st))
                     (S (draws st))
      | None =>
          mkAgg (StrMap.set (normalizeName upperNonAscii (trim name))
                   (Channel.mk (rnd (draws st)) (trim name)
                      (groupOrOther group)
                      category [newSource rnd (S (draws st)) url] None)
                   (channelMap st))
                (S (S (draws st)))
      end
    else st.
Proof.
  unfold add, addChannelToMap, usableKey.
  set (key := normalizeName upperNonAscii (trim name)).
  destruct (Nat.ltb_spec (length key) 2) as [Hlt|Hge].
  - destruct (Nat.leb_spec 2 (length key)); [lia | reflexivity].
  - destruct (Nat.leb_spec 2 (length key)); [|lia].
    unfold StrMap.has.
    destruct (StrMap.get key (channelMap st)) as [ch|] eqn:Hget.
    + rewrite Hget. reflexivity.
    + cbn [generateId channelMap draws]. rewrite get_set_same.
      cbn [Channel.sources existsb]. now rewrite set_set.
Qed.

Lemma absorbs_add_id (st : AggState) (r : ParsedRecord) :
  absorbs upperNonAscii st r -> addRecord add st r = st.
Proof.
  unfold addRecord. rewrite addChannelToMap_cases.
  intros [Hkey | (ch & Hget & Hurl)].
  - now rewrite Hkey.
  - rewrite Hget, Hurl. now destruct (usableKey _).
Qed.

Lemma hasUrl_withSource_same (url : jsstring) (ch : Channel.t) (n : nat) :
  hasUrl url (withSource ch (newSource rnd n url)) = true.
Proof.
  unfold hasUrl, withSource, newSource. cbn [Channel.sources].
  rewrite existsb_app. cbn. rewrite jseqb_refl. now rewrite orb_true_r.
Qed.

Lemma hasUrl_withSource_keeps (url : jsstring) (ch : Channel.t) (s : Source.t) :
  hasUrl url ch = true -> hasUrl url (withSource ch s) = true.
Proof.
  unfold hasUrl, withSource. cbn [Channel.sources].
  rewrite existsb_app. now intros ->.
Qed.

Lemma add_absorbs_self (st : AggState) (r : ParsedRecord) :
  absorbs upperNonAscii (addRecord add st r) r.
Proof.
  unfold addRecord. rewrite addChannelToMap_cases. unfold absorbs.
  destruct (usableKey (normalizeName upperNonAscii (trim (recName r)))) eqn:Hkey; [right | now left].
  destruct (StrMap.get _ (channelMap st)) as [ch|] eqn:Hget.
  - destruct (hasUrl (recUrl r) ch) eqn:Hurl.
    + now exists ch.
    + eexists. cbn [channelMap]. rewrite get_set_same. split; [reflexivity|].
      apply hasUrl_withSource_same.
  - eexists. cbn [channelMap]. rewrite get_set_same. split; [reflexivity|].
    unfold hasUrl, newSource. cbn. now rewrite jseqb_refl.
Qed.

Lemma add_keeps_absorbed (st : AggState) (r r' : ParsedRecord) :
  absorbs upperNonAscii st r -> absorbs upperNonAscii (addRecord add st r') r.
Proof.
  intros [Hkey | (ch & Hget & Hurl)]; [now left|]. right.
  unfold addRecord. rewrite addChannelToMap_cases.
  destruct (usableKey (normalizeName upperNonAscii (trim (recName r')))); [|now exists ch].
  destruct (list_eq_dec N.eq_dec (normalizeName upperNonAscii (trim (recName r'))) (normalizeName upperNonAscii (trim (recName r))))
    as [Heq|Hne].
  - rewrite Heq, Hget.
    destruct (hasUrl (recUrl r') ch); [now exists ch|].
    eexists. cbn [channelMap]. rewrite get_set_same. split; [reflexivity|].
    now apply hasUrl_withSource_keeps.
  - destruct (StrMap.get (normalizeName upperNonAscii (trim (recName r'))) (channelMap st)) as [ch'|].
    + destruct (hasUrl (recUrl r') ch'); [now exists ch|].
      exists ch. cbn [channelMap]. now rewrite get_set_other.
    + exists ch. cbn [channelMap]. now rewrite get_set_other.
Qed.

Lemma fold_absorbs (rs : list ParsedRecord) (st : AggState) (r : ParsedRecord) :
  In r rs \/ absorbs upperNonAscii st r -> absorbs upperNonAscii (fold_left (addRecord add) rs st) r.
Proof.
  revert st. induction rs as [|r' rs IH]; intros st [Hin|Habs]; simpl.
  - destruct Hin.
  - assumption.
  - apply IH. destruct Hin as [->|Hin]; [right; apply add_absorbs_self | now left].
  - apply IH. right. now apply add_keeps_absorbed.
Qed.

Lemma fold_absorbed_id (rs : list ParsedRecord) (st : AggState) :
  (forall r, In r rs -> absorbs upperNonAscii st r) ->
  fold_left (addRecord add) rs st = st.
Proof.
  induction rs as [|r rs IH]; intros Hall; simpl; [reflexivity|].
  rewrite absorbs_add_id by (apply Hall; now left).
  apply IH. intros r' Hr'. apply Hall. now right.
Qed.

(** Aggregating a list of playlists twice over adds nothing to the map. *)
Lemma aggregate_twice (ps : list Playlist) :
  aggregate upperNonAscii rnd (ps ++ ps) = aggregate upperNonAscii rnd ps.
Proof.
  unfold aggregate. rewrite !parsePlaylists_records.
  rewrite flat_map_app, fold_left_app.
  apply fold_absorbed_id. intros r Hr. apply fold_absorbs. now left.
Qed.
End AggregatorFacts.

(** ** What a catalog holds, the identifiers apart *)

Lemma mapView_get (k : jsstring) (m : StrMap.t Channel.t) :
  StrMap.get k (mapView m) = option_map channelView (StrMap.get k m).
Proof.
  induction m as [|[k' v] r IH]; simpl; [reflexivity|].
  now destruct (jseqb k' k).
Qed.

Lemma mapView_set (k : jsstring) (v : Channel.t) (m : StrMap.t Channel.t) :
  mapView (StrMap.set k v m) = StrMap.set k (channelView v) (mapView m).
Proof.
  induction m as [|[k' v'] r IH]; simpl; [reflexivity|].
  destruct (jseqb k' k); simpl; [reflexivity | now rewrite IH].
Qed.

Lemma hasUrl_view (url : jsstring) (ch ch' : Channel.t) :
  channelView ch = channelView ch' -> hasUrl url ch = hasUrl url ch'.
Proof.
  unfold channelView, hasUrl. intros [= _ _ _ Hurls].
  revert Hurls. generalize (Channel.sources ch') as l'.
  induction (Channel.sources ch) as [|s l IH]; intros [|s' l']; simpl;
    try discriminate; [reflexivity|].
  intros [= Hs Hl]. now rewrite Hs, (IH l' Hl).
Qed.

(** The identifiers that [generateId] draws do not steer the aggregator. *)
Lemma addChannelToMap_view (up : jsstring -> jsstring) (rnd1 rnd2 : nat -> jsstring)
    (name group url : jsstring) (category : Category) (st1 st2 : AggState) :
  mapView (channelMap st1) = mapView (channelMap st2) ->
  mapView (channelMap (addChannelToMap up rnd1 name group url category st1))
  = mapView (channelMap (addChannelToMap up rnd2 name group url category st2)).
Proof.
  intros Hview. rewrite !addChannelToMap_cases.
  destruct (usableKey _); [|assumption].
  set (key := normalizeName up (trim name)).
  pose proof (mapView_get key (channelMap st1)) as H1.
  pose proof (mapView_get key (channelMap st2)) as H2.
  rewrite Hview, H2 in H1.
  destruct (StrMap.get key (channelMap st1)) as [ch1|],
           (StrMap.get key (channelMap st2)) as [ch2|];
    try discriminate H1.
  - assert (Hv : channelView ch1 = channelView ch2) by (cbn in H1; congruence).
    rewrite (hasUrl_view url Hv).
    destruct (hasUrl url ch2); [assumption|].
    cbn [channelMap]. rewrite !mapView_set, Hview. f_equal.
    unfold channelView, withSource, newSource in *. cbn.
    injection Hv as Hn Hg Hc Hu. rewrite !map_app, Hn, Hg, Hc, Hu. reflexivity.
  - cbn [channelMap]. rewrite !mapView_set, Hview. reflexivity.
Qed.

Lemma fold_addRecord_view (up : jsstring -> jsstring) (rnd1 rnd2 : nat -> jsstring)
    (rs : list ParsedRecord) (st1 st2 : AggState) :
  mapView (channelMap st1) = mapView (channelMap st2) ->
  mapView (channelMap (fold_left (addRecord (addChannelToMap up rnd1)) rs st1))
  = mapView (channelMap (fold_left (addRecord (addChannelToMap up rnd2)) rs st2)).
Proof.
  revert st1 st2. induction rs as [|r rs IH]; intros st1 st2 Hview; simpl.
  - assumption.
  - apply IH. unfold addRecord. now apply addChannelToMap_view.
Qed.

Lemma aggregate_view (up : jsstring -> jsstring) (rnd1 rnd2 : nat -> jsstring)
    (ps : list Playlist) :
  mapView (channelMap (aggregate up rnd1 ps))
  = mapView (channelMap (aggregate up rnd2 ps)).
Proof.
  unfold aggregate. rewrite !parsePlaylists_records.
  now apply fold_addRecord_view.
Qed.

Lemma sort_map (A B : Type) (f : A -> B) (cmp : A -> A -> Z) (cmp' : B -> B -> Z)
    (l : list A) :
  (forall a b, cmp a b = cmp' (f a) (f b)) ->
  map f (sort cmp l) = sort cmp' (map f l).
Proof.
  intros Hcmp. induction l as [|x r IH]; simpl; [reflexivity|].
  rewrite <- IH. generalize (sort cmp r) as s.
  induction s as [|y s IHs]; simpl; [reflexivity|].
  rewrite <- Hcmp. destruct (cmp x y <=? 0)%Z; simpl; [reflexivity|].
  now rewrite IHs.
Qed.

Lemma parseAndAggregate_view (up : jsstring -> jsstring)
    (rnd : nat -> jsstring) (localeCompare : jsstring -> jsstring -> Z)
    (ps : list Playlist) :
  map channelView (parseAndAggregate up rnd localeCompare ps)
  = sort (compareViews up localeCompare)
      (StrMap.values (mapView (channelMap (aggregate up rnd ps)))).
Proof.
  unfold parseAndAggregate.
  rewrite (sort_map channelView (compareChannels up localeCompare)
             (compareViews up localeCompare)) by reflexivity.
  f_equal. unfold StrMap.values, mapView. rewrite !map_map. reflexivity.
Qed.

(** The sources of a channel never share a URL. *)
Lemma hasUrl_false_not_In (url : jsstring) (ch : Channel.t) :
  hasUrl url ch = false -> ~ In url (map Source.url (Channel.sources ch)).
Proof.
  unfold hasUrl. induction (Channel.sources ch) as [|s l IH]; simpl; [tauto|].
  intros H. apply orb_false_iff in H as [Hs Hl]. apply jseqb_neq in Hs.
  intros [Heq|Hin]; [congruence | now apply IH].
Qed.

Lemma addChannelToMap_urlsDistinct (up : jsstring -> jsstring)
    (rnd : nat -> jsstring) (name group url : jsstring) (category : Category)
    (st : AggState) :
  (forall ch, In ch (StrMap.values (channelMap st)) -> urlsDistinct ch) ->
  forall ch,
    In ch (StrMap.values
             (channelMap (addChannelToMap up rnd name group url category st))) ->
    urlsDistinct ch.
Proof.
  intros Hall ch. rewrite addChannelToMap_cases.
  destruct (usableKey _); [|apply Hall].
  destruct (StrMap.get _ (channelMap st)) as [ch0|] eqn:Hget.
  - destruct (hasUrl url ch0) eqn:Hurl; [apply Hall|].
    cbn [channelMap]. intros Hin.
    apply values_set_In in Hin as [->|Hin]; [|now apply Hall].
    unfold urlsDistinct, withSource, newSource. cbn. rewrite map_app. cbn.
    apply NoDup_app.
    + apply (Hall ch0). eapply get_In_values; eassumption.
    + repeat constructor. intros [].
    + intros x Hx [<-|[]]. now apply (hasUrl_false_not_In _ _ Hurl).
  - cbn [channelMap]. intros Hin.
    apply values_set_In in Hin as [->|Hin]; [|now apply Hall].
    unfold urlsDistinct, newSource. cbn. repeat constructor. intros [].
Qed.

Lemma aggregate_urlsDistinct (up : jsstring -> jsstring) (rnd : nat -> jsstring)
    (ps : list Playlist) (ch : Channel.t) :
  In ch (StrMap.values (channelMap (aggregate up rnd ps))) -> urlsDistinct ch.
Proof.
  unfold aggregate. rewrite parsePlaylists_records.
  generalize (flat_map recordsOf ps) as rs.
  assert (H0 : forall c, In c (StrMap.values (channelMap (mkAgg [] 0))) ->
                         urlsDistinct c) by (intros c []).
  revert H0. generalize (mkAgg [] 0) as st. intros st H0 rs. revert st H0 ch.
  induction rs as [|r rs IH]; intros st H0 ch; simpl; [apply H0|].
  apply IH. unfold addRecord. now apply addChannelToMap_urlsDistinct.
Qed.

(** C4: aggregating a document twice gives as many channels as aggregating it
    once, with the same names and, channel by channel, the same URLs in the
    same order, whatever identifiers the two runs draw; and no channel lists a
    URL twice. *)
Theorem aggregate_idempotent :
  forall (upperNonAscii : jsstring -> jsstring) (rnd1 rnd2 : nat -> jsstring)
         (localeCompare : jsstring -> jsstring -> Z) (d : Playlist),
    let twice := parseAndAggregate upperNonAscii rnd1 localeCompare [d; d] in
    let once := parseAndAggregate upperNonAscii rnd2 localeCompare [d] in
    length twice = length once
    /\ map channelView twice = map channelView once
    /\ map (fun ch => map Source.url (Channel.sources ch)) twice
       = map (fun ch => map Source.url (Channel.sources ch)) once
    /\ Forall urlsDistinct twice.
Proof.
  intros up rnd1 rnd2 lc d twice once.
  assert (Hview : map channelView twice = map channelView once).
  { unfold twice, once. rewrite !parseAndAggregate_view.
    change [d; d] with ([d] ++ [d]). rewrite aggregate_twice.
    now rewrite (aggregate_view up rnd1 rnd2). }
  split; [|split; [exact Hview|split]].
  - rewrite <- (length_map channelView twice), Hview. apply length_map.
  - apply (f_equal (map snd)) in Hview. rewrite !map_map in Hview. exact Hview.
  - apply Forall_forall. intros ch Hin. unfold twice, parseAndAggregate in Hin.
    apply sort_In in Hin. eapply aggregate_urlsDistinct; eassumption.
Qed.

(** ** Merging and the group of a new channel *)

(** The channel that a record creates when its key is usable and new. *)
Lemma addChannelToMap_creates (up : jsstring -> jsstring) (rnd : nat -> jsstring)
    (name group url : jsstring) (category : Category) (st : AggState) :
  usableKey (normalizeName up (trim name)) = true ->
  StrMap.get (normalizeName up (trim name)) (channelMap st) = None ->
  StrMap.get (normalizeName up (trim name))
    (channelMap (addChannelToMap up rnd name group url category st))
  = Some (Channel.mk (rnd (draws st)) (trim name) (groupOrOther group) category
            [Source.mk (rnd (S (draws st))) url idle None None] None).
Proof.
  intros Hkey Hget. rewrite addChannelToMap_cases, Hkey, Hget.
  cbn [channelMap]. now rewrite get_set_same.
Qed.

(** C3, as amended: two documents with one record each, whose names
    normalize to the same key of two units or more and whose URLs differ,
    give one channel with the two sources, in the order of the documents;
    the name (trimmed), the group (Other when empty) and the category are
    those of the first record. *)
Theorem merge_two_documents
    (upperNonAscii : jsstring -> jsstring) (rnd : nat -> jsstring)
    (localeCompare : jsstring -> jsstring -> Z)
    (p1 p2 : Playlist) (r1 r2 : ParsedRecord) :
  recordsOf p1 = [r1] ->
  recordsOf p2 = [r2] ->
  normalizeName upperNonAscii (trim (recName r1))
  = normalizeName upperNonAscii (trim (recName r2)) ->
  usableKey (normalizeName upperNonAscii (trim (recName r1))) = true ->
  recUrl r1 <> recUrl r2 ->
  parseAndAggregate upperNonAscii rnd localeCompare [p1; p2]
  = [Channel.mk (rnd 0%nat) (trim (recName r1)) (groupOrOther (recGroup r1))
       (recCategory r1)
       [Source.mk (rnd 1%nat) (recUrl r1) idle None None;
        Source.mk (rnd 2%nat) (recUrl r2) idle None None]
       None].
Proof.
  intros H1 H2 Hsame Hkey Hurl.
  unfold parseAndAggregate, aggregate. rewrite parsePlaylists_records.
  cbn [flat_map]. rewrite H1, H2. cbn [app fold_left]. unfold addRecord.
  rewrite (addChannelToMap_cases _ _ (recName r1)), Hkey. cbn [channelMap StrMap.get draws].
  rewrite addChannelToMap_cases, <- Hsame, Hkey. cbn [channelMap draws].
  rewrite get_set_same.
  assert (Hno : hasUrl (recUrl r2)
                  (Channel.mk (rnd 0%nat) (trim (recName r1))
                     (groupOrOther (recGroup r1))
                     (recCategory r1) [newSource rnd 1 (recUrl r1)] None) = false).
  { unfold hasUrl, newSource. cbn. apply orb_false_iff. split; [|reflexivity].
    now apply jseqb_neq. }
  rewrite Hno. cbn [channelMap StrMap.set]. rewrite jseqb_refl.
  reflexivity.
Qed.

(** C6, as amended: the channel created for an inline record has the group
    Other; the channel created for a record that follows a metadata line has
    the group Uncategorized when the line has no group-title attribute,
    Other when the attribute is empty, and the attribute otherwise. *)
Theorem created_channel_group
    (upperNonAscii : jsstring -> jsstring) (rnd : nat -> jsstring)
    (category : Category) (pd : Pending) (st : AggState) :
  (forall raw,
      isInlineLine (trim raw) = true ->
      let name := trim (join 44 (removelast (split 44 (trim raw)))) in
      let key := normalizeName upperNonAscii (trim name) in
      let st' :=
        snd (processLine (addChannelToMap upperNonAscii rnd) category
               (pd, st) raw) in
      usableKey key = true ->
      StrMap.get key (channelMap st) = None ->
      option_map Channel.group (StrMap.get key (channelMap st'))
      = Some (str "Other"))
  /\ (forall meta url,
      isMetadataLine (trim meta) = true ->
      isBareUrlLine (trim url) = true ->
      let pending := readExtinf (trim meta) in
      let key := normalizeName upperNonAscii (trim (currentName pending)) in
      let st' :=
        snd (fold_left (processLine (addChannelToMap upperNonAscii rnd) category)
               [meta; url] (pd, st)) in
      currentName pending <> [] ->
      usableKey key = true ->
      StrMap.get key (channelMap st) = None ->
      option_map Channel.group (StrMap.get key (channelMap st'))
      = Some match matchFirst (attribute (str "group-title")) (trim meta) with
             | None => str "Uncategorized"
             | Some [] => str "Other"
             | Some (c :: g) => c :: g
             end).
Proof.
  split.
  - intros raw Hraw name key st' Hkey Hget. unfold st'.
    rewrite processLine_inline by assumption. cbn [snd].
    fold name. unfold key in *.
    now rewrite (@addChannelToMap_creates upperNonAscii rnd name (str "Other") _
                   category st Hkey Hget).
  - intros meta url Hmeta Hurl pending key st' Hname Hkey Hget. unfold st'.
    cbn [fold_left]. rewrite processLine_metadata by assumption.
    rewrite processLine_bare by assumption. cbn [snd]. fold pending.
    unfold key in *.
    destruct (currentName pending) as [|c n] eqn:Hn; [congruence|].
    rewrite (@addChannelToMap_creates upperNonAscii rnd (c :: n)
               (currentGroup pending) _ category st Hkey Hget).
    cbn [option_map Channel.group]. unfold pending, readExtinf.
    cbn [currentGroup].
    destruct (matchFirst (attribute (str "group-title")) (trim meta)) as [[|c' g]|];
      reflexivity.
Qed.

(** ** The check cycle *)

Section ArrayFacts.
Variable A : Type.

Lemma setNth_In (i : nat) (x y : A) (l : list A) :
  In y (setNth i x l) -> y = x \/ In y l.
Proof.
  revert i. induction l as [|z r IH]; intros [|i]; simpl; try tauto.
  - intros [<-|H]; [now left | now right; right].
  - intros [<-|H]; [now right; left|].
    destruct (IH i H) as [->|H']; [now left | now right; right].
Qed.

Lemma nth_error_setNth (i : nat) (x y : A) (l : list A) :
  nth_error l i = Some y -> nth_error (setNth i x l) i = Some x.
Proof.
  revert i. induction l as [|z r IH]; intros [|i]; simpl; try discriminate.
  - reflexivity.
  - apply IH.
Qed.

Lemma setNth_length (i : nat) (x : A) (l : list A) :
  length (setNth i x l) = length l.
Proof.
  revert i. induction l as [|z r IH]; intros [|i]; simpl; auto.
Qed.
End ArrayFacts.

(** The batch loop covers every task: the bound on its iterations is never
    reached. *)
Lemma slices_concat (A : Type) (fuel : nat) (l : list A) :
  (length l <= fuel)%nat -> concat (slices fuel l) = l.
Proof.
  revert l. induction fuel as [|fuel IH]; intros l Hlen.
  - destruct l; [reflexivity | simpl in Hlen; lia].
  - destruct l as [|x r]; [reflexivity|].
    cbn [slices concat]. rewrite IH; [apply firstn_skipn|].
    rewrite length_skipn. unfold BATCH_SIZE. simpl in *. lia.
Qed.

Lemma batchesOf_concat (A : Type) (l : list A) : concat (batchesOf l) = l.
Proof. now apply slices_concat. Qed.

(** An update of one source keeps a property of all sources, when the new
    source has it and the new array holds no other new source. *)
Lemma updateSource_allSources (P : Source.t -> Prop)
    (f : Source.t -> Source.t)
    (finish : list Source.t -> option Source.t -> list Source.t * option Source.t)
    (task : Task) (next : list Channel.t) :
  (forall s, P s -> P (f s)) ->
  (forall l b x, In x (fst (finish l b)) -> In x l) ->
  allSources P next ->
  allSources P (updateSource f finish task next).
Proof.
  intros Hf Hfin Hall. unfold updateSource.
  destruct (findIndex _ next) as [chIndex|]; [|assumption].
  destruct (nth_error next chIndex) as [ch|] eqn:Hch; [|assumption].
  destruct (findIndex _ (Channel.sources ch)) as [srcIndex|]; [|assumption].
  destruct (nth_error (Channel.sources ch) srcIndex) as [src|] eqn:Hsrc;
    [|assumption].
  destruct (finish _ _) as [newSources best] eqn:Hfinish.
  intros ch' Hch' s Hs.
  apply setNth_In in Hch' as [->|Hch']; [|now apply (Hall ch')].
  cbn [Channel.sources] in Hs.
  assert (Hin : In s (setNth srcIndex (f src) (Channel.sources ch))).
  { apply (Hfin _ (Channel.bestSource ch)). now rewrite Hfinish. }
  apply nth_error_In in Hch, Hsrc.
  apply setNth_In in Hin as [->|Hin].
  - apply Hf. now apply (Hall ch).
  - now apply (Hall ch).
Qed.

Lemma markChecking_allSources (P : Source.t -> Prop) (tasks : list Task)
    (prev : list Channel.t) :
  (forall s, P s -> P (markSource s)) ->
  allSources P prev -> allSources P (markChecking tasks prev).
Proof.
  intros Hf. unfold markChecking. revert prev.
  induction tasks as [|t tasks IH]; intros prev Hall; simpl; [assumption|].
  apply IH. apply updateSource_allSources; auto.
Qed.

Lemma writeBack_allSources (P : Source.t -> Prop) (results : list CheckResult)
    (prev : list Channel.t) :
  Forall (fun res => forall s, P s -> P (storeResult res s)) results ->
  allSources P prev -> allSources P (writeBack results prev).
Proof.
  unfold writeBack. intros Hres. revert prev.
  induction Hres as [|res results Hr _ IH]; intros prev Hall; simpl;
    [assumption|].
  apply IH. unfold applyResult. apply updateSource_allSources; auto.
  intros l b x. cbn [fst]. apply sort_In.
Qed.

(** ** The marking of the targeted sources *)

Section MoreArrayFacts.
Variables A B : Type.

Lemma findIndex_map (f : A -> B) (p : B -> bool) (l : list A) :
  findIndex (fun a => p (f a)) l = findIndex p (map f l).
Proof.
  induction l as [|x r IH]; simpl; [reflexivity|].
  destruct (p (f x)); [reflexivity | now rewrite IH].
Qed.

Lemma findIndex_nth_error (p : A -> bool) (l : list A) (i : nat) :
  findIndex p l = Some i -> exists x, nth_error l i = Some x.
Proof.
  revert i. induction l as [|x r IH]; intros i; simpl; [discriminate|].
  destruct (p x).
  - intros [= <-]. now exists x.
  - destruct (findIndex p r) as [k|]; [|discriminate].
    intros [= <-]. now apply IH.
Qed.

Lemma map_setNth (f : A -> B) (i : nat) (x : A) (l : list A) :
  map f (setNth i x l) = setNth i (f x) (map f l).
Proof.
  revert i. induction l as [|y r IH]; intros [|i]; simpl; try reflexivity.
  now rewrite IH.
Qed.

Lemma setNth_same (i : nat) (x : A) (l : list A) :
  nth_error l i = Some x -> setNth i x l = l.
Proof.
  revert i. induction l as [|y r IH]; intros [|i]; simpl; try discriminate.
  - now intros [= ->].
  - intros H. now rewrite IH.
Qed.

Lemma nth_error_setNth_other (i k : nat) (x : A) (l : list A) :
  i <> k -> nth_error (setNth i x l) k = nth_error l k.
Proof.
  revert i k. induction l as [|y r IH]; intros [|i] [|k] Hne; simpl;
    try reflexivity; try congruence.
  apply IH. congruence.
Qed.
End MoreArrayFacts.

Lemma markStep_cases (next : list Channel.t) (task : Task) :
  (markStep next task = next
   /\ forall i j, ~ foundAt next task i j)
  \/ exists i j ch src,
       foundAt next task i j
       /\ nth_error next i = Some ch
       /\ nth_error (Channel.sources ch) j = Some src
       /\ markStep next task
          = setNth i
              (Channel.mk (Channel.id ch) (Channel.name ch) (Channel.group ch)
                 (Channel.category ch)
                 (setNth j (markSource src) (Channel.sources ch))
                 (Channel.bestSource ch))
              next.
Proof.
  unfold markStep, updateSource, foundAt.
  destruct (findIndex _ next) as [i|] eqn:Hi.
  2:{ left. split; [reflexivity|]. intros i j [H _]. discriminate H. }
  destruct (findIndex_nth_error _ _ Hi) as [ch Hch]. rewrite Hch.
  destruct (findIndex _ (Channel.sources ch)) as [j|] eqn:Hj.
  2:{ left. split; [reflexivity|]. intros i' j' [H (ch' & Hch' & Hj')].
      injection H as <-. rewrite Hch in Hch'. injection Hch' as <-.
      rewrite Hj in Hj'. discriminate Hj'. }
  destruct (findIndex_nth_error _ _ Hj) as [src Hsrc]. rewrite Hsrc.
  right. exists i, j, ch, src. repeat split; try assumption.
  now exists ch.
Qed.

Lemma markStep_ids (next : list Channel.t) (task : Task) :
  idsOf (markStep next task) = idsOf next.
Proof.
  destruct (markStep_cases next task)
    as [[-> _] | (i & j & ch & src & _ & Hch & Hsrc & ->)]; [reflexivity|].
  unfold idsOf. rewrite map_setNth. cbn [Channel.id Channel.sources].
  rewrite map_setNth. cbn [markSource Source.id].
  rewrite (@setNth_same _ j (Source.id src) (map Source.id (Channel.sources ch))).
  - apply setNth_same. rewrite nth_error_map, Hch. reflexivity.
  - rewrite nth_error_map, Hsrc. reflexivity.
Qed.

Lemma foundAt_ids (c c' : list Channel.t) (task : Task) (i j : nat) :
  idsOf c = idsOf c' -> foundAt c task i j -> foundAt c' task i j.
Proof.
  intros Hids [Hi (ch & Hch & Hj)]. unfold foundAt.
  assert (Hmap : map Channel.id c = map Channel.id c').
  { apply (f_equal (map fst)) in Hids. unfold idsOf in Hids.
    now rewrite !map_map in Hids. }
  split.
  - rewrite (findIndex_map Channel.id (fun x => jseqb x (channelId task))) in *.
    now rewrite <- Hmap.
  - assert (Hnth : nth_error (idsOf c') i
                   = Some (Channel.id ch, map Source.id (Channel.sources ch))).
    { rewrite <- Hids. unfold idsOf. rewrite nth_error_map, Hch. reflexivity. }
    unfold idsOf in Hnth. rewrite nth_error_map in Hnth.
    destruct (nth_error c' i) as [ch'|]; [|discriminate Hnth].
    injection Hnth as _ Hsrc. exists ch'. split; [reflexivity|].
    rewrite (findIndex_map Source.id (fun x => jseqb x (sourceId task))) in *.
    now rewrite Hsrc.
Qed.

Lemma markStep_marks (next : list Channel.t) (task : Task) (i j : nat) :
  foundAt next task i j -> markedAt (markStep next task) i j.
Proof.
  intros Hfound.
  destruct (markStep_cases next task)
    as [[_ Hnot] | (i' & j' & ch & src & Hf & Hch & Hsrc & ->)];
    [now destruct (Hnot i j)|].
  assert (i' = i /\ j' = j) as [-> ->].
  { destruct Hfound as [Hi (c1 & Hc1 & Hj)], Hf as [Hi' (c2 & Hc2 & Hj')].
    rewrite Hi in Hi'. injection Hi' as <-.
    rewrite Hc1 in Hc2. injection Hc2 as <-.
    rewrite Hj in Hj'. now injection Hj' as <-. }
  eexists _, _. split; [eapply nth_error_setNth; eassumption|].
  cbn [Channel.sources]. split; [eapply nth_error_setNth; eassumption|].
  now split.
Qed.

Lemma markStep_keeps (next : list Channel.t) (task : Task) (i j : nat) :
  markedAt next i j -> markedAt (markStep next task) i j.
Proof.
  intros (ch0 & s0 & Hch0 & Hs0 & Hst & Hlat).
  destruct (markStep_cases next task)
    as [[-> _] | (i' & j' & ch & src & _ & Hch & Hsrc & ->)];
    [now exists ch0, s0|].
  destruct (Nat.eq_dec i' i) as [->|Hi].
  - rewrite Hch0 in Hch. injection Hch as <-.
    destruct (Nat.eq_dec j' j) as [->|Hj].
    + eexists _, _. split; [eapply nth_error_setNth; eassumption|].
      cbn [Channel.sources].
      split; [eapply nth_error_setNth; eassumption | now split].
    + eexists _, s0. split; [eapply nth_error_setNth; eassumption|].
      cbn [Channel.sources]. rewrite nth_error_setNth_other by assumption.
      now repeat split.
  - exists ch0, s0. now rewrite nth_error_setNth_other.
Qed.

Lemma markChecking_keeps (tasks : list Task) (prev : list Channel.t) (i j : nat) :
  markedAt prev i j -> markedAt (markChecking tasks prev) i j.
Proof.
  unfold markChecking. revert prev.
  induction tasks as [|t tasks IH]; intros prev H; simpl; [assumption|].
  apply IH. exact (@markStep_keeps prev t i j H).
Qed.

(** Every task that finds its source leaves it marked. *)
Lemma markChecking_marks (tasks : list Task) (prev : list Channel.t)
    (task : Task) (i j : nat) :
  In task tasks -> foundAt prev task i j ->
  markedAt (markChecking tasks prev) i j.
Proof.
  revert prev. induction tasks as [|t tasks IH]; intros prev [].
  - subst t. intros Hfound.
    apply (@markChecking_keeps tasks (markStep prev task) i j).
    now apply markStep_marks.
  - intros Hfound. apply (IH (markStep prev t)); [assumption|].
    apply (@foundAt_ids prev (markStep prev t) task i j); [|assumption].
    symmetry. apply markStep_ids.
Qed.

(** The first catalog that a check cycle sets has every source of every
    target marked, when the source is found in the catalog. *)
Lemma runCheck_marks (net : nat -> FetchOutcome)
    (targetChannels prev : list Channel.t) (ch : Channel.t) (s : Source.t)
    (i j : nat) :
  In ch targetChannels -> In s (Channel.sources ch) ->
  foundAt prev (mkTask (Channel.id ch) (Source.id s) (Source.url s)) i j ->
  exists marked rest,
    runCheck net false targetChannels prev = marked :: rest
    /\ markedAt marked i j.
Proof.
  intros Hch Hs Hfound. unfold runCheck.
  destruct targetChannels as [|t ts]; [destruct Hch|].
  cbn [orb length Nat.eqb]. eexists _, _. split; [reflexivity|].
  eapply markChecking_marks; [|eassumption].
  unfold flattenTasks. apply in_flat_map. exists ch. split; [assumption|].
  apply in_map_iff. now exists s.
Qed.

(** ** The latency of a source *)

Lemma round_nonneg (x : Q) : (0 <= x)%Q -> (0 <= round x)%Z.
Proof.
  intros Hx. unfold round.
  change 0%Z with (Qfloor 0). apply Qfloor_resp_le.
  apply Qle_trans with x; [assumption|].
  rewrite <- (Qplus_0_r x) at 1. apply Qplus_le_r. discriminate.
Qed.

Lemma checkSource_latencyOk (task : Task) (o : FetchOutcome) :
  clockMonotonic o -> resultLatencyOk (checkSource task o).
Proof.
  destruct o as [|ok start finish body]; [intros _; exact I|].
  unfold clockMonotonic, resultLatencyOk, checkSource. intros Hclock.
  destruct ok; cbn [resLatency resStatus]; [|exact I].
  split; [reflexivity|]. apply round_nonneg.
  now apply (Qle_minus_iff start finish).
Qed.

Lemma probeBatch_latencyOk (net : nat -> FetchOutcome) (i : nat)
    (batch : list Task) :
  (forall k, clockMonotonic (net k)) ->
  Forall resultLatencyOk (probeBatch net i batch).
Proof.
  intros Hnet. unfold probeBatch. apply Forall_forall. intros res Hin.
  apply in_map_iff in Hin as ([k task] & <- & _).
  now apply checkSource_latencyOk.
Qed.

Lemma storeResult_latencyOk (res : CheckResult) (s : Source.t) :
  resultLatencyOk res -> latencyOk (storeResult res s).
Proof. intros H. exact H. Qed.

Lemma runBatches_latencyOk (net : nat -> FetchOutcome) (batches : list (list Task))
    (i : nat) (prev c' : list Channel.t) :
  (forall k, clockMonotonic (net k)) ->
  allSources latencyOk prev ->
  In c' (runBatches net i batches prev) ->
  allSources latencyOk c'.
Proof.
  intros Hnet. revert i prev.
  induction batches as [|batch rest IH]; intros i prev Hprev Hin; simpl in Hin;
    [destruct Hin|].
  assert (Hnext : allSources latencyOk (writeBack (probeBatch net i batch) prev)).
  { apply writeBack_allSources; [|assumption].
    eapply Forall_impl; [|now apply probeBatch_latencyOk].
    intros res Hres s _. now apply storeResult_latencyOk. }
  destruct Hin as [<-|Hin]; [assumption|]. eapply IH; eassumption.
Qed.

Lemma runCheck_latencyOk (net : nat -> FetchOutcome) (isChecking : bool)
    (targetChannels prev c' : list Channel.t) :
  (forall k, clockMonotonic (net k)) ->
  allSources latencyOk prev ->
  In c' (runCheck net isChecking targetChannels prev) ->
  allSources latencyOk c'.
Proof.
  intros Hnet Hprev. unfold runCheck.
  destruct (_ || _); [intros []|].
  assert (Hmarked : allSources latencyOk
                      (markChecking (flattenTasks targetChannels) prev)).
  { apply markChecking_allSources; [|assumption]. intros s _. exact I. }
  intros [<-|Hin]; [assumption|]. eapply runBatches_latencyOk; eassumption.
Qed.

(** What holds of every channel that the aggregator builds. *)
Lemma aggregate_channels_ind (P : Channel.t -> Prop)
    (up : jsstring -> jsstring) (rnd : nat -> jsstring) :
  (forall n name group category url,
      P (Channel.mk (rnd n) name group category [newSource rnd (S n) url] None)) ->
  (forall ch n url,
      P ch -> hasUrl url ch = false -> P (withSource ch (newSource rnd n url))) ->
  forall ps ch,
    In ch (StrMap.values (channelMap (aggregate up rnd ps))) -> P ch.
Proof.
  intros Hnew Hadd ps. unfold aggregate. rewrite parsePlaylists_records.
  generalize (flat_map recordsOf ps) as rs.
  assert (H0 : forall c, In c (StrMap.values (channelMap (mkAgg [] 0))) -> P c)
    by (intros c []).
  revert H0. generalize (mkAgg [] 0) as st. intros st H0 rs. revert st H0.
  induction rs as [|r rs IH]; intros st H0; simpl; [exact H0|].
  apply IH. unfold addRecord. rewrite addChannelToMap_cases.
  destruct (usableKey _); [|exact H0].
  destruct (StrMap.get _ (channelMap st)) as [ch0|] eqn:Hget.
  - destruct (hasUrl (recUrl r) ch0) eqn:Hurl; [exact H0|].
    cbn [channelMap]. intros c Hin.
    apply values_set_In in Hin as [->|Hin]; [|now apply H0].
    apply Hadd; [|assumption]. apply H0. eapply get_In_values; eassumption.
  - cbn [channelMap]. intros c Hin.
    apply values_set_In in Hin as [->|Hin]; [apply Hnew | now apply H0].
Qed.

Lemma parseAndAggregate_fresh (up : jsstring -> jsstring) (rnd : nat -> jsstring)
    (lc : jsstring -> jsstring -> Z) (ps : list Playlist) (ch : Channel.t) :
  In ch (parseAndAggregate up rnd lc ps) ->
  Channel.bestSource ch = None
  /\ forall s, In s (Channel.sources ch) ->
               Source.status s = idle /\ Source.latency s = None.
Proof.
  unfold parseAndAggregate. rewrite sort_In. revert ch.
  apply aggregate_channels_ind.
  - intros n name group category url. split; [reflexivity|].
    intros s [<-|[]]. now split.
  - intros ch n url [Hbest Hsrc] _. split; [exact Hbest|].
    unfold withSource. cbn [Channel.sources]. intros s Hs.
    apply in_app_or in Hs as [Hs|[<-|[]]]; [now apply Hsrc | now split].
Qed.

(** C7: in every catalog that can be observed, the latency of a source is a
    number only when the source is online, and then it is not negative; a
    probe that ends offline or in error reports no latency; and the marking
    that opens a check cycle leaves every targeted source that it finds
    being checked, without latency. *)
Theorem latency_only_when_online (c : list Channel.t) :
  Reachable c ->
  (forall ch s, In ch c -> In s (Channel.sources ch) -> latencyOk s)
  /\ (forall task o,
        resStatus (checkSource task o) = offline
        \/ resStatus (checkSource task o) = error ->
        resLatency (checkSource task o) = None)
  /\ (forall s, Source.status (markSource s) = checking
                /\ Source.latency (markSource s) = None)
  /\ (forall net targetChannels ch s i j,
        In ch targetChannels -> In s (Channel.sources ch) ->
        foundAt c (mkTask (Channel.id ch) (Source.id s) (Source.url s)) i j ->
        exists marked rest,
          runCheck net false targetChannels c = marked :: rest
          /\ markedAt marked i j).
Proof.
  intros Hreach. split; [|split; [|split]].
  - intros ch s Hch Hs. revert ch Hch s Hs. change (allSources latencyOk c).
    induction Hreach as [up rnd lc ps | c net targets c' _ IH Hnet Hin].
    + intros ch Hch s Hs.
      destruct (parseAndAggregate_fresh _ _ _ _ _ Hch) as [_ Hsrc].
      destruct (Hsrc s Hs) as [_ Hlat]. unfold latencyOk. now rewrite Hlat.
    + eapply runCheck_latencyOk; eassumption.
  - intros task [|[|] start finish body]; cbn; intros [H|H];
      try discriminate H; reflexivity.
  - intros s. now split.
  - intros net targets ch s i j. apply runCheck_marks.
Qed.

(** ** The write-back of a probe result *)

(** What [applyResult] does when the channel and the source of the task are
    found. *)
Lemma applyResult_found (next : list Channel.t) (res : CheckResult)
    (chIndex srcIndex : nat) (ch : Channel.t) (src : Source.t) :
  findIndex (fun c => jseqb (Channel.id c) (channelId (resTask res))) next
  = Some chIndex ->
  nth_error next chIndex = Some ch ->
  findIndex (fun s => jseqb (Source.id s) (sourceId (resTask res)))
    (Channel.sources ch) = Some srcIndex ->
  nth_error (Channel.sources ch) srcIndex = Some src ->
  applyResult next res
  = setNth chIndex
      (Channel.mk (Channel.id ch) (Channel.name ch) (Channel.group ch)
         (Channel.category ch)
         (sortSources (setNth srcIndex (storeResult res src) (Channel.sources ch)))
         (hd_error
            (sortSources
               (setNth srcIndex (storeResult res src) (Channel.sources ch)))))
      next.
Proof.
  intros Hci Hch Hsi Hsrc. unfold applyResult, updateSource.
  now rewrite Hci, Hch, Hsi, Hsrc.
Qed.

(** The channel that a write-back leaves where the task was found. *)
Lemma applyResult_nth (next : list Channel.t) (res : CheckResult)
    (chIndex srcIndex : nat) (ch : Channel.t) (src : Source.t) :
  findIndex (fun c => jseqb (Channel.id c) (channelId (resTask res))) next
  = Some chIndex ->
  nth_error next chIndex = Some ch ->
  findIndex (fun s => jseqb (Source.id s) (sourceId (resTask res)))
    (Channel.sources ch) = Some srcIndex ->
  nth_error (Channel.sources ch) srcIndex = Some src ->
  nth_error (applyResult next res) chIndex
  = Some (Channel.mk (Channel.id ch) (Channel.name ch) (Channel.group ch)
            (Channel.category ch)
            (sortSources
               (setNth srcIndex (storeResult res src) (Channel.sources ch)))
            (hd_error
               (sortSources
                  (setNth srcIndex (storeResult res src) (Channel.sources ch))))).
Proof.
  intros Hci Hch Hsi Hsrc. rewrite (applyResult_found _ _ Hci Hch Hsi Hsrc).
  eapply nth_error_setNth. eassumption.
Qed.

(** C2: an online source scores 100000 minus its latency, an unverifiable one
    50000, one being checked 100, an idle or offline one 0; the write-back
    leaves the sources of the channel sorted by that score, in descending
    order, with the first of them as the best source; and four sources that
    are online at 300 ms, error, offline and checking, in any order, come out
    as online, error, checking, offline. *)
Theorem rerank_by_score
    (sOnline sError sOffline sChecking : Source.t) (l : list Source.t) :
  Source.status sOnline = online -> Source.latency sOnline = Some 300%Z ->
  Source.status sError = error ->
  Source.status sOffline = offline ->
  Source.status sChecking = checking ->
  Permutation l [sOnline; sError; sOffline; sChecking] ->
  (forall i u t r, getScore (Source.mk i u online (Some t) r) = (100000 - t)%Z)
  /\ (forall i u t r, getScore (Source.mk i u error t r) = 50000%Z)
  /\ (forall i u t r, getScore (Source.mk i u checking t r) = 100%Z)
  /\ (forall i u t r, getScore (Source.mk i u idle t r) = 0%Z)
  /\ (forall i u t r, getScore (Source.mk i u offline t r) = 0%Z)
  /\ (forall l', Permutation l' (sortSources l')
                 /\ StronglySorted by_score_desc (sortSources l'))
  /\ (forall next res chIndex srcIndex ch src,
        findIndex (fun c => jseqb (Channel.id c) (channelId (resTask res))) next
        = Some chIndex ->
        nth_error next chIndex = Some ch ->
        findIndex (fun s => jseqb (Source.id s) (sourceId (resTask res)))
          (Channel.sources ch) = Some srcIndex ->
        nth_error (Channel.sources ch) srcIndex = Some src ->
        exists ch',
          nth_error (applyResult next res) chIndex = Some ch'
          /\ Channel.sources ch'
             = sortSources
                 (setNth srcIndex (storeResult res src) (Channel.sources ch))
          /\ Channel.bestSource ch' = hd_error (Channel.sources ch'))
  /\ sortSources l = [sOnline; sError; sChecking; sOffline].
Proof.
  intros Hon Hlat Herr Hoff Hchk Hperm.
  repeat (split; [reflexivity|]).
  split; [|split].
  - intros l'. split; [apply sort_perm | apply sortSources_sorted].
  - intros next res chIndex srcIndex ch src Hci Hch Hsi Hsrc.
    eexists. split; [eapply applyResult_nth; eassumption|]. now split.
  - apply sorted_perm_strict.
    + assert (getScore sOnline = 99700%Z) by (unfold getScore; now rewrite Hon, Hlat).
      assert (getScore sError = 50000%Z) by (unfold getScore; now rewrite Herr).
      assert (getScore sChecking = 100%Z) by (unfold getScore; now rewrite Hchk).
      assert (getScore sOffline = 0%Z) by (unfold getScore; now rewrite Hoff).
      repeat (constructor; [|repeat (constructor; try lia)]). constructor.
    + apply sortSources_sorted.
    + eapply perm_trans; [apply Permutation_sym, sort_perm|].
      eapply perm_trans; [exact Hperm|].
      apply perm_skip, perm_skip, perm_swap.
Qed.

(** C10: the write-back puts the resolution of the probe result in the place
    of the resolution the source had, also when the result has none; and the
    result has none when the probe is not online, or when the first chunk of
    the body holds no RESOLUTION marker. *)
Theorem writeback_overwrites_resolution
    (next : list Channel.t) (res : CheckResult)
    (chIndex srcIndex : nat) (ch : Channel.t) (src : Source.t) :
  findIndex (fun c => jseqb (Channel.id c) (channelId (resTask res))) next
  = Some chIndex ->
  nth_error next chIndex = Some ch ->
  findIndex (fun s => jseqb (Source.id s) (sourceId (resTask res)))
    (Channel.sources ch) = Some srcIndex ->
  nth_error (Channel.sources ch) srcIndex = Some src ->
  (exists ch',
      nth_error (applyResult next res) chIndex = Some ch'
      /\ Permutation (Channel.sources ch')
           (setNth srcIndex (storeResult res src) (Channel.sources ch))
      /\ In (storeResult res src) (Channel.sources ch'))
  /\ Source.resolution (storeResult res src) = resResolution res
  /\ Source.id (storeResult res src) = Source.id src
  /\ Source.url (storeResult res src) = Source.url src
  /\ (forall task o,
        resStatus (checkSource task o) <> online ->
        resResolution (checkSource task o) = None)
  /\ (forall task start finish text,
        matchAll resolutionMarker text = [] ->
        resResolution (checkSource task (Responded true start finish (Chunk text)))
        = None)
  /\ (forall task ok start finish,
        resResolution (checkSource task (Responded ok start finish NoBody)) = None
        /\ resResolution (checkSource task (Responded ok start finish ReadThrows))
           = None
        /\ resResolution (checkSource task (Responded ok start finish NoChunk))
           = None).
Proof.
  intros Hci Hch Hsi Hsrc. split; [|repeat split].
  - eexists. split; [eapply applyResult_nth; eassumption|].
    cbn [Channel.sources]. split.
    + apply Permutation_sym, sort_perm.
    + apply sort_In. eapply nth_error_In, nth_error_setNth. eassumption.
  - intros task [|[|] start finish body]; unfold checkSource;
      cbn [resStatus resResolution]; congruence.
  - intros task start finish text Hnone. unfold checkSource, sniffResolution.
    cbn [resResolution]. now rewrite Hnone.
  - now destruct ok.
  - now destruct ok.
  - now destruct ok.
Qed.

(** ** The best source of a channel *)

(** What does hold of the best source in every catalog that can be observed:
    it has the identifier and the URL of the first source.  Its status and
    latency may be those of an earlier cycle. *)
Lemma updateSource_channels (P : Channel.t -> Prop)
    (f : Source.t -> Source.t)
    (finish : list Source.t -> option Source.t -> list Source.t * option Source.t)
    (task : Task) (next : list Channel.t) :
  (forall ch j src,
      P ch -> nth_error (Channel.sources ch) j = Some src ->
      P (Channel.mk (Channel.id ch) (Channel.name ch) (Channel.group ch)
           (Channel.category ch)
           (fst (finish (setNth j (f src) (Channel.sources ch))
                   (Channel.bestSource ch)))
           (snd (finish (setNth j (f src) (Channel.sources ch))
                   (Channel.bestSource ch))))) ->
  (forall ch, In ch next -> P ch) ->
  forall ch, In ch (updateSource f finish task next) -> P ch.
Proof.
  intros Hstep Hall. unfold updateSource.
  destruct (findIndex _ next) as [i|]; [|assumption].
  destruct (nth_error next i) as [ch0|] eqn:Hch0; [|assumption].
  destruct (findIndex _ (Channel.sources ch0)) as [j|]; [|assumption].
  destruct (nth_error (Channel.sources ch0) j) as [src|] eqn:Hsrc; [|assumption].
  pose proof (Hstep ch0 j src (Hall ch0 (nth_error_In _ _ Hch0)) Hsrc) as Hnew.
  destruct (finish _ _) as [l' b']. cbn [fst snd] in Hnew.
  intros ch Hin. apply setNth_In in Hin as [->|Hin]; [exact Hnew | now apply Hall].
Qed.

Lemma markStep_bestNamesFirst (next : list Channel.t) (task : Task) :
  (forall ch, In ch next -> bestNamesFirst ch) ->
  forall ch, In ch (markStep next task) -> bestNamesFirst ch.
Proof.
  unfold markStep. apply updateSource_channels.
  intros ch j src Hch Hsrc. unfold bestNamesFirst in *.
  cbn [fst snd Channel.bestSource Channel.sources].
  destruct (Channel.bestSource ch) as [b|]; [|exact I].
  destruct Hch as (s & Hhd & Hid & Hurl).
  destruct (Channel.sources ch) as [|s0 l]; [discriminate Hhd|].
  injection Hhd as ->. destruct j as [|j].
  - injection Hsrc as ->. exists (markSource src). now repeat split.
  - exists s. now repeat split.
Qed.

Lemma applyResult_bestNamesFirst (next : list Channel.t) (res : CheckResult) :
  (forall ch, In ch next -> bestNamesFirst ch) ->
  forall ch, In ch (applyResult next res) -> bestNamesFirst ch.
Proof.
  unfold applyResult. apply updateSource_channels.
  intros ch j src _ _. unfold bestNamesFirst.
  cbn [fst snd Channel.bestSource Channel.sources].
  destruct (hd_error _) as [b|]; [|exact I]. now exists b.
Qed.

Lemma runCheck_bestNamesFirst (net : nat -> FetchOutcome) (isChecking : bool)
    (targetChannels prev c' : list Channel.t) :
  (forall ch, In ch prev -> bestNamesFirst ch) ->
  In c' (runCheck net isChecking targetChannels prev) ->
  forall ch, In ch c' -> bestNamesFirst ch.
Proof.
  intros Hprev. unfold runCheck. destruct (_ || _); [intros []|].
  assert (Hmark : forall tasks c,
             (forall ch, In ch c -> bestNamesFirst ch) ->
             forall ch, In ch (markChecking tasks c) -> bestNamesFirst ch).
  { unfold markChecking. induction tasks as [|t tasks IH]; intros c Hc; simpl;
      [assumption|].
    apply IH. now apply (markStep_bestNamesFirst c t). }
  assert (Hwrite : forall results c,
             (forall ch, In ch c -> bestNamesFirst ch) ->
             forall ch, In ch (writeBack results c) -> bestNamesFirst ch).
  { unfold writeBack. induction results as [|r results IH]; intros c Hc; simpl;
      [assumption|].
    apply IH. now apply applyResult_bestNamesFirst. }
  generalize (Hmark (flattenTasks targetChannels) prev Hprev).
  generalize (markChecking (flattenTasks targetChannels) prev) as marked.
  generalize (batchesOf (flattenTasks targetChannels)) as batches.
  generalize 0%nat as i.
  intros i batches marked Hmarked [<-|Hin]; [assumption|].
  revert i marked Hmarked Hin.
  induction batches as [|batch rest IH]; intros i c Hc Hin; simpl in Hin;
    [destruct Hin|].
  destruct Hin as [<-|Hin]; [now apply Hwrite|].
  eapply IH; [|eassumption]. now apply Hwrite.
Qed.

Lemma reachable_bestNamesFirst (c : list Channel.t) :
  Reachable c -> forall ch, In ch c -> bestNamesFirst ch.
Proof.
  induction 1 as [up rnd lc ps | c net targets c' _ IH Hnet Hin].
  - intros ch Hch. unfold bestNamesFirst.
    destruct (parseAndAggregate_fresh _ _ _ _ _ Hch) as [-> _]. exact I.
  - eapply runCheck_bestNamesFirst; eassumption.
Qed.

(** C5 fails in the catalog that a second check cycle sets first: the marking
    replaces the source by one that is being checked and keeps the best
    source of the first cycle, which is online at 300 ms. *)
Theorem stale_bestSource_after_marking :
  let c0 := Env.run [oneChannel] in
  let c1 := last (runCheck netOnline300 false c0 c0) c0 in
  let marked := hd [] (runCheck netOnline300 false c1 c1) in
  map bestAndFirst c0 = [(None, Some (idle, None))]
  /\ map bestAndFirst c1
     = [(Some (online, Some 300%Z), Some (online, Some 300%Z))]
  /\ map bestAndFirst marked
     = [(Some (online, Some 300%Z), Some (checking, None))]
  /\ Reachable marked.
Proof.
  intros c0 c1 marked.
  split; [vm_compute; reflexivity|].
  split; [vm_compute; reflexivity|].
  split; [vm_compute; reflexivity|].
  assert (Hnet : forall i, clockMonotonic (netOnline300 i))
    by (intros i; cbn; discriminate).
  assert (H0 : Reachable c0) by apply reach_aggregate.
  assert (H1 : Reachable c1).
  { apply reach_check with (c := c0) (net := netOnline300) (targetChannels := c0);
      [assumption | assumption |].
    vm_compute. right. left. reflexivity. }
  apply reach_check with (c := c1) (net := netOnline300) (targetChannels := c1);
    [assumption | assumption |].
  vm_compute. left. reflexivity.
Qed.

(** ** The properties at sample inputs *)

Lemma rerank_by_score_witness :
  Permutation [srcOffline; srcChecking; srcOnline; srcError]
    [srcOnline; srcError; srcOffline; srcChecking]
  /\ sortSources [srcOffline; srcChecking; srcOnline; srcError]
     = [srcOnline; srcError; srcChecking; srcOffline].
Proof.
  assert (Hperm : Permutation [srcOffline; srcChecking; srcOnline; srcError]
                    [srcOnline; srcError; srcOffline; srcChecking])
    by apply (Permutation_app_comm [srcOffline; srcChecking] [srcOnline; srcError]).
  split; [exact Hperm|].
  destruct (@rerank_by_score srcOnline srcError srcOffline srcChecking _
              eq_refl eq_refl eq_refl eq_refl eq_refl Hperm)
    as (_ & _ & _ & _ & _ & _ & _ & H).
  exact H.
Defined.

Lemma merge_two_documents_witness :
  recordsOf newsOnce
  = [mkRecord (str "CCTV-1") (str "News") (str "http://a/1.m3u8") China]
  /\ recordsOf otherInline
     = [mkRecord (str "CCTV 1") (str "Other") (str "http://other") International]
  /\ Env.run [newsOnce; otherInline]
     = [Channel.mk (Env.rnd 0) (str "CCTV-1") (str "News") China
          [Source.mk (Env.rnd 1) (str "http://a/1.m3u8") idle None None;
           Source.mk (Env.rnd 2) (str "http://other") idle None None]
          None].
Proof.
  split; [reflexivity|]. split; [reflexivity|].
  apply (@merge_two_documents Env.upper Env.rnd Env.compareUnits
           newsOnce otherInline
           (mkRecord (str "CCTV-1") (str "News") (str "http://a/1.m3u8") China)
           (mkRecord (str "CCTV 1") (str "Other") (str "http://other")
              International));
    [reflexivity | reflexivity | reflexivity | reflexivity | discriminate].
Defined.

(** C3, as stated, fails for a key of one unit: the two records with the
    name A share the key A and have different URLs, and no channel is
    made. *)
Lemma merge_unusable_key_gives_no_channel :
  recordsOf nameA1 = [mkRecord (str "A") (str "Other") (str "http://x") China]
  /\ recordsOf nameA2
     = [mkRecord (str "A") (str "Other") (str "http://y") China]
  /\ normalizeName Env.upper (trim (str "A")) = str "A"
  /\ jseqb (str "http://x") (str "http://y") = false
  /\ Env.run [nameA1; nameA2] = [].
Proof. repeat split; reflexivity. Qed.

Lemma created_channel_group_witness :
  option_map Channel.group
    (StrMap.get (str "CCTV-1")
       (channelMap
          (snd (fold_left (processLine (addChannelToMap Env.upper Env.rnd) China)
                  noGroupLines (mkPending [] [], mkAgg [] 0)))))
  = Some (str "Uncategorized").
Proof.
  apply (proj2 (created_channel_group Env.upper Env.rnd China
                  (mkPending [] []) (mkAgg [] 0))
           (str "#EXTINF:-1,CCTV1") (str "http://a/1.m3u8"));
    [reflexivity | reflexivity | discriminate | reflexivity | reflexivity].
Defined.

(** C6, as stated, fails for a metadata line without a group-title
    attribute: the channel made for its record has the group
    Uncategorized. *)
Lemma metadata_without_group_is_uncategorized :
  matchFirst (attribute (str "group-title")) (str "#EXTINF:-1,CCTV1") = None
  /\ recordsOf noGroup
     = [mkRecord (str "CCTV1") (str "Uncategorized") (str "http://a/1.m3u8")
          China]
  /\ map Channel.group (Env.run [noGroup]) = [str "Uncategorized"].
Proof. repeat split; reflexivity. Qed.

Lemma latency_only_when_online_witness :
  Reachable probed720
  /\ map (fun ch => map statusAndLatency (Channel.sources ch)) probed720
     = [[(online, Some 300%Z)]]
  /\ (forall ch s, In ch probed720 -> In s (Channel.sources ch) -> latencyOk s).
Proof.
  assert (Hreach : Reachable probed720).
  { apply reach_check with (c := Env.run [oneChannel]) (net := netOnline720)
      (targetChannels := Env.run [oneChannel]).
    - apply reach_aggregate.
    - intros i. cbn. discriminate.
    - vm_compute. right. left. reflexivity. }
  split; [exact Hreach|]. split; [reflexivity|].
  exact (proj1 (latency_only_when_online Hreach)).
Defined.

Lemma bare_url_lines_keep_pending_witness :
  recordsOf newsTwice
  = [mkRecord (str "CCTV-1") (str "News") (str "http://a/1.m3u8") China;
     mkRecord (str "CCTV-1") (str "News") (str "http://a/2.m3u8") China].
Proof.
  assert (Hurls : Forall (fun u => isBareUrlLine (trim u) = true)
                    (skipn 2 newsLines))
    by (repeat constructor).
  destruct (@bare_url_lines_keep_pending newsTwice (firstn 1 newsLines)
              (nth 1 newsLines []) (skipn 2 newsLines)
              eq_refl eq_refl Hurls) as [_ H].
  rewrite H. reflexivity.
Defined.

Lemma writeback_overwrites_resolution_witness :
  map (fun ch => map Source.resolution (Channel.sources ch)) probed720
  = [[Some (str "720P")]]
  /\ map (fun ch => map Source.resolution (Channel.sources ch))
       (applyResult probed720 failedProbe)
     = [[None]]
  /\ Source.resolution (storeResult failedProbe src720) = None.
Proof.
  split; [reflexivity|]. split; [reflexivity|].
  assert (Hch : nth_error probed720 0
                = Some (Channel.mk (Env.rnd 0) (str "CCTV1") (str "Other") China
                          [src720] (Some src720))) by reflexivity.
  destruct (@writeback_overwrites_resolution probed720 failedProbe 0 0 _ src720
              eq_refl Hch eq_refl eq_refl) as (_ & H & _).
  exact H.
Defined.

(** * Further properties *)

Unset Implicit Arguments.

(** ** The canonical key *)

Ltac unit_cases c :=
  repeat match goal with
    | |- context [N.eqb c ?b] => destruct (N.eqb_spec c b); [subst c|]
    | H : context [N.eqb c ?b] |- _ => destruct (N.eqb_spec c b); [subst c|]
    | |- context [N.eqb ?a c] => destruct (N.eqb_spec a c); [subst c|]
    | H : context [N.eqb ?a c] |- _ => destruct (N.eqb_spec a c); [subst c|]
    | |- context [N.leb ?a c] => destruct (N.leb_spec a c)
    | H : context [N.leb ?a c] |- _ => destruct (N.leb_spec a c)
    | |- context [N.leb c ?b] => destruct (N.leb_spec c b)
    | H : context [N.leb c ?b] |- _ => destruct (N.leb_spec c b)
    | |- context [N.ltb c ?b] => destruct (N.ltb_spec c b)
    | H : context [N.ltb c ?b] |- _ => destruct (N.ltb_spec c b)
    end;
  cbn in *; try discriminate; try reflexivity; try lia.

Lemma replaceFrom_spaces_clean (s : jsstring) (skip : nat) :
  forallb (fun c => negb (isWhiteSpace c)) (replaceFrom Re.spaces skip s) = true.
Proof.
  revert skip. induction s as [|c r IH]; intros skip; [reflexivity|].
  cbn [replaceFrom]. destruct skip as [|k]; [|apply IH].
  unfold Re.spaces. cbn [takeWhile]. destruct (isWhiteSpace c) eqn:Hc.
  - cbn [length app]. apply IH.
  - cbn [forallb]. rewrite Hc. apply IH.
Qed.

Lemma replaceFrom_spaces_none (s : jsstring) :
  forallb (fun c => negb (isWhiteSpace c)) s = true ->
  replaceFrom Re.spaces 0 s = s.
Proof.
  induction s as [|c r IH]; [reflexivity|]. cbn [forallb replaceFrom].
  intros H. apply andb_true_iff in H as [Hc Hr]. apply negb_true_iff in Hc.
  assert (Hnone : Re.spaces (c :: r) = None)
    by (unfold Re.spaces; cbn [takeWhile]; now rewrite Hc).
  rewrite Hnone. now rewrite IH.
Qed.

(** The replacement of the trailing separators cuts a run of separators off
    the end, and what is left does not end with one. *)
Lemma replaceFirst_trailing_spec (s : jsstring) :
  exists t,
    s = replaceFirst Re.trailingSeparators s ++ t
    /\ forallb Re.isSeparator t = true
    /\ endsWithSeparator (replaceFirst Re.trailingSeparators s) = false.
Proof.
  induction s as [|c r (t & Hr & Ht & Hend)].
  - exists []. now repeat split.
  - cbn [replaceFirst].
    assert (Hm : Re.trailingSeparators (c :: r)
                 = if forallb Re.isSeparator (c :: r)
                   then Some (length (c :: r), []) else None) by reflexivity.
    rewrite Hm. clear Hm.
    destruct (forallb Re.isSeparator (c :: r)) eqn:Hall.
    + exists (c :: r). rewrite skipn_all. now repeat split.
    + exists t. split; [cbn; now rewrite <- Hr|]. split; [assumption|].
      destruct (replaceFirst Re.trailingSeparators r) as [|x l] eqn:Hres.
      * cbn in Hr. subst t. cbn [forallb] in Hall. rewrite Ht, andb_true_r in Hall.
        cbn. exact Hall.
      * exact Hend.
Qed.

Lemma replaceFirst_trailing_none (a : jsstring) (c : N) :
  Re.isSeparator c = false ->
  replaceFirst Re.trailingSeparators (a ++ [c]) = a ++ [c].
Proof.
  intros Hc. induction a as [|x a IH].
  - cbn. now rewrite Hc.
  - cbn [app replaceFirst].
    assert (Hno : Re.trailingSeparators (x :: a ++ [c]) = None).
    { unfold Re.trailingSeparators.
      change (x :: a ++ [c]) with ((x :: a) ++ [c]). rewrite forallb_app.
      cbn [forallb]. rewrite Hc. now rewrite andb_false_r. }
    rewrite Hno. now rewrite IH.
Qed.

Lemma trim_no_whitespace (s : jsstring) :
  forallb (fun c => negb (isWhiteSpace c)) s = true -> trim s = s.
Proof.
  assert (Hdrop : forall l, forallb (fun c => negb (isWhiteSpace c)) l = true ->
                            dropWhile isWhiteSpace l = l).
  { intros [|c l]; [reflexivity|]. cbn. intros H.
    apply andb_true_iff in H as [Hc _]. apply negb_true_iff in Hc. now rewrite Hc. }
  intros H. unfold trim. rewrite (Hdrop s H), Hdrop, rev_involutive; [reflexivity|].
  rewrite forallb_forall in *. intros c Hc. apply H. now apply in_rev.
Qed.

(** X2: a canonical key holds no white space and does not end with a hyphen
    or an underscore, whatever the name. *)
Theorem normalizeName_clean :
  forall (upperNonAscii : jsstring -> jsstring) (name : jsstring),
    forallb (fun c => negb (isWhiteSpace c)) (normalizeName upperNonAscii name)
    = true
    /\ endsWithSeparator (normalizeName upperNonAscii name) = false.
Proof.
  intros up name. unfold normalizeName.
  set (n := removeKeywords keywords _).
  destruct (replaceFirst_trailing_spec (replaceAll Re.spaces n))
    as (t & Hcut & _ & Hend).
  assert (Hclean : forallb (fun c => negb (isWhiteSpace c))
                     (replaceFirst Re.trailingSeparators (replaceAll Re.spaces n))
                   = true).
  { pose proof (replaceFrom_spaces_clean n 0) as H. fold (replaceAll Re.spaces n) in H.
    rewrite Hcut, forallb_app in H. now apply andb_true_iff in H as [H _]. }
  rewrite (trim_no_whitespace _ Hclean). now split.
Qed.

Lemma toUpperCase_ascii (up : jsstring -> jsstring) (s : jsstring) :
  forallb isAscii s = true -> toUpperCase up s = map upperAscii s.
Proof.
  unfold toUpperCase. induction s as [|c r IH]; [reflexivity|].
  cbn [forallb upperFrom map]. intros H. apply andb_true_iff in H as [Hc Hr].
  rewrite Hc. cbn. now rewrite IH.
Qed.

(** X3: two ASCII names that differ in the case of their letters only have
    the same canonical key. *)
Theorem normalizeName_ascii_case
    (upperNonAscii : jsstring -> jsstring) (a b : jsstring) :
  forallb isAscii a = true ->
  forallb isAscii b = true ->
  map upperAscii a = map upperAscii b ->
  normalizeName upperNonAscii a = normalizeName upperNonAscii b.
Proof.
  intros Ha Hb Hsame. unfold normalizeName.
  now rewrite (toUpperCase_ascii _ _ Ha), (toUpperCase_ascii _ _ Hb), Hsame.
Qed.

Lemma normalizeName_ascii_case_witness :
  normalizeName Env.upper (str "cctv 5 hd") = normalizeName Env.upper (str "CCTV 5 HD")
  /\ normalizeName Env.upper (str "cctv 5 hd") = str "CCTV-5".
Proof.
  split; [|reflexivity].
  apply normalizeName_ascii_case; reflexivity.
Defined.

(** ** The spellings of a numbered CCTV channel *)

Lemma takeWhile_app (p : N -> bool) (a b : jsstring) :
  forallb p a = true ->
  match b with [] => true | c :: _ => negb (p c) end = true ->
  takeWhile p (a ++ b) = a /\ dropWhile p (a ++ b) = b.
Proof.
  intros Ha Hb. induction a as [|x a IH].
  - destruct b as [|c b]; [now split|]. cbn. apply negb_true_iff in Hb.
    now rewrite Hb.
  - cbn [forallb] in Ha. apply andb_true_iff in Ha as [Hx Ha].
    destruct (IH Ha) as [IH1 IH2]. cbn. rewrite Hx. now rewrite IH1, IH2.
Qed.

Lemma replaceFrom_skip_all (m : jsstring -> option (nat * jsstring))
    (k : nat) (s : jsstring) :
  (length s <= k)%nat -> replaceFrom m k s = [].
Proof.
  revert k. induction s as [|c r IH]; intros k Hk; [reflexivity|].
  destruct k as [|k]; [cbn in Hk; lia|]. cbn. apply IH. cbn in Hk. lia.
Qed.

Lemma replaceAll_bracketed_none (open close : N) (s : jsstring) :
  existsb (N.eqb open) s = false ->
  replaceAll (Re.bracketed open close) s = s.
Proof.
  unfold replaceAll. induction s as [|c r IH]; [reflexivity|].
  cbn [existsb]. intros H. apply orb_false_iff in H as [Hc Hr].
  cbn [replaceFrom Re.bracketed]. rewrite N.eqb_sym, Hc. now rewrite IH.
Qed.

Lemma toUpperCase_fixed (up : jsstring -> jsstring) (s : jsstring) :
  forallb (fun c => isAscii c && negb (isLowerAscii c)) s = true ->
  toUpperCase up s = s.
Proof.
  intros H. rewrite toUpperCase_ascii.
  - induction s as [|c r IH]; [reflexivity|]. cbn [forallb] in H.
    apply andb_true_iff in H as [Hc Hr]. apply andb_true_iff in Hc as [_ Hc].
    apply negb_true_iff in Hc. cbn [map]. rewrite (IH Hr). f_equal.
    unfold upperAscii. unfold isLowerAscii in Hc. now rewrite Hc.
  - rewrite forallb_forall in *. intros c Hc. specialize (H c Hc).
    now apply andb_true_iff in H as [H _].
Qed.

(** A keyword that occurs in a string has all its literal units there. *)
Lemma atomsMatch_units (k s : jsstring) (c : N) :
  Re.atomsMatch (Re.compile k) s = true -> In c k -> c <> 46%N -> In c s.
Proof.
  revert s. induction k as [|a k IH]; intros s Hm Hin Hdot; [destruct Hin|].
  cbn [Re.compile map] in Hm.
  destruct (N.eqb_spec a 46); (destruct s as [|x s]; [discriminate Hm|]);
    cbn [Re.atomsMatch] in Hm; fold (Re.compile k) in Hm.
  - apply andb_true_iff in Hm as [_ Hm].
    destruct Hin as [<-|Hin]; [congruence|]. right. now apply IH.
  - apply andb_true_iff in Hm as [Hax Hm]. apply N.eqb_eq in Hax. subst x.
    destruct Hin as [<-|Hin]; [now left|]. right. now apply IH.
Qed.

Lemma occurs_units (k s : jsstring) (c : N) :
  occurs k s = true -> In c k -> c <> 46%N -> In c s.
Proof.
  induction s as [|x s IH]; cbn [occurs]; intros H Hin Hdot.
  - rewrite orb_false_r in H. eapply atomsMatch_units; eassumption.
  - apply orb_true_iff in H as [H|H].
    + eapply atomsMatch_units; eassumption.
    + right. now apply IH.
Qed.

Lemma cctvUnits_tokenFree (s : jsstring) :
  forallb cctvUnit s = true -> tokenFree s = true.
Proof.
  intros Hs. unfold tokenFree. apply forallb_forall. intros k Hk.
  apply negb_true_iff. destruct (occurs k s) eqn:Hocc; [|reflexivity].
  assert (Halien : forallb (existsb alienUnit) keywords = true) by reflexivity.
  rewrite forallb_forall in Halien. specialize (Halien k Hk).
  apply existsb_exists in Halien as (c & Hc & Hal).
  unfold alienUnit in Hal. apply negb_true_iff, orb_false_iff in Hal as [Hcu Hdot].
  apply N.eqb_neq in Hdot.
  pose proof (occurs_units k s c Hocc Hc Hdot) as Hin.
  rewrite forallb_forall in Hs. rewrite (Hs c Hin) in Hcu. discriminate.
Qed.

Lemma isDigit_cctvUnit (c : N) : isDigit c = true -> cctvUnit c = true.
Proof. unfold cctvUnit. now intros ->. Qed.

Lemma cctvUnit_facts (c : N) :
  cctvUnit c = true ->
  isWhiteSpace c = false /\ isAscii c = true /\ isLowerAscii c = false
  /\ (91 =? c)%N = false /\ (65288 =? c)%N = false /\ (40 =? c)%N = false.
Proof.
  unfold cctvUnit, isDigit, isWhiteSpace, isAscii, isLowerAscii. intros H.
  repeat split; unit_cases c.
Qed.

Lemma asciiSpace_facts (c : N) :
  asciiSpace c = true ->
  isWhiteSpace c = true /\ isAscii c = true /\ isLowerAscii c = false
  /\ (91 =? c)%N = false /\ (65288 =? c)%N = false /\ (40 =? c)%N = false
  /\ isDigit c = false /\ (c =? 45)%N = false.
Proof.
  unfold asciiSpace, isDigit, isWhiteSpace, isAscii, isLowerAscii. intros H.
  repeat split; unit_cases c.
Qed.

Lemma isDigit_facts (c : N) :
  isDigit c = true ->
  isWhiteSpace c = false /\ (c =? 45)%N = false /\ (c =? 43)%N = false
  /\ Re.isSeparator c = false.
Proof.
  unfold isDigit, isWhiteSpace, Re.isSeparator. intros H.
  repeat split; unit_cases c.
Qed.

Lemma forallb_impl (p q : N -> bool) (s : jsstring) :
  (forall c, p c = true -> q c = true) ->
  forallb p s = true -> forallb q s = true.
Proof.
  intros Hpq H. rewrite forallb_forall in *. intros c Hc. apply Hpq. now apply H.
Qed.

Lemma existsb_none (p q : N -> bool) (s : jsstring) :
  (forall c, p c = true -> q c = false) ->
  forallb p s = true -> existsb q s = false.
Proof.
  intros Hpq H. induction s as [|c r IH]; [reflexivity|].
  cbn [forallb] in H. apply andb_true_iff in H as [Hc Hr].
  cbn [existsb]. now rewrite (Hpq c Hc), IH.
Qed.

(** The units of a spelling. *)
Lemma cctvSpelling_units (w1 w2 d : jsstring) (dash plus : bool) :
  forallb asciiSpace w1 = true -> forallb asciiSpace w2 = true ->
  forallb isDigit d = true ->
  forallb (fun c => cctvUnit c || asciiSpace c) (cctvSpelling w1 dash w2 d plus)
  = true.
Proof.
  intros H1 H2 Hd. unfold cctvSpelling. rewrite !forallb_app.
  rewrite (forallb_impl asciiSpace (fun c => cctvUnit c || asciiSpace c) w1)
    by (assumption || (intros c ->; apply orb_true_r)).
  rewrite (forallb_impl asciiSpace (fun c => cctvUnit c || asciiSpace c) w2)
    by (assumption || (intros c ->; apply orb_true_r)).
  rewrite (forallb_impl isDigit (fun c => cctvUnit c || asciiSpace c) d)
    by (assumption || (intros c Hc; now rewrite (isDigit_cctvUnit c Hc))).
  now destruct dash, plus.
Qed.

Lemma cctvKey_units (d : jsstring) (plus : bool) :
  forallb isDigit d = true ->
  forallb cctvUnit (str "CCTV-" ++ d ++ (if plus then [43%N] else [])) = true.
Proof.
  intros Hd. rewrite !forallb_app.
  rewrite (forallb_impl isDigit cctvUnit d isDigit_cctvUnit Hd).
  now destruct plus.
Qed.

(** The regexp for the numbered channels matches a whole spelling. *)
Lemma cctv_match (w1 w2 d : jsstring) (dash plus : bool) :
  forallb asciiSpace w1 = true -> forallb asciiSpace w2 = true ->
  forallb isDigit d = true -> d <> [] ->
  Re.cctv (cctvSpelling w1 dash w2 d plus)
  = Some (length (cctvSpelling w1 dash w2 d plus),
          str "CCTV-" ++ d ++ (if plus then [43%N] else [])).
Proof.
  intros H1 H2 Hd Hne.
  assert (Hw1 : forallb isWhiteSpace w1 = true).
  { eapply forallb_impl; [|exact H1]. intros c Hc. now apply asciiSpace_facts. }
  assert (Hw2 : forallb isWhiteSpace w2 = true).
  { eapply forallb_impl; [|exact H2]. intros c Hc. now apply asciiSpace_facts. }
  destruct d as [|d0 d']; [congruence|]. clear Hne.
  assert (Hd0 : isDigit d0 = true)
    by (cbn [forallb] in Hd; now apply andb_true_iff in Hd).
  destruct (isDigit_facts d0 Hd0) as (Hd0ws & Hd0dash & _ & _).
  set (pl := if plus then [43%N] else []).
  assert (Hdig : takeWhile isDigit ((d0 :: d') ++ pl) = d0 :: d'
                 /\ dropWhile isDigit ((d0 :: d') ++ pl) = pl).
  { apply takeWhile_app; [exact Hd|]. unfold pl. now destruct plus. }
  destruct Hdig as [Hdig1 Hdig2].
  assert (Hplus : match pl with c :: _ => (c =? 43)%N | [] => false end = plus)
    by (unfold pl; now destruct plus).
  unfold Re.cctv, cctvSpelling. fold pl.
  change (stripPrefix (str "CCTV") (str "CCTV" ++ ?r)) with (Some r).
  cbv zeta. cbn [app] in Hdig1, Hdig2. destruct dash.
  - destruct (takeWhile_app isWhiteSpace w1 ([45%N] ++ w2 ++ (d0 :: d') ++ pl) Hw1
                eq_refl) as [E1 E2].
    destruct (takeWhile_app isWhiteSpace w2 ((d0 :: d') ++ pl) Hw2) as [E3 E4].
    { cbn. now rewrite Hd0ws. }
    cbn [app] in E1, E2, E3, E4. cbn [app].
    rewrite E1, E2. cbn [tl N.eqb Pos.eqb].
    rewrite E3, E4, Hdig1, Hdig2, Hplus. f_equal. f_equal.
    unfold pl. repeat first [rewrite length_app | progress cbn [length]].
    change (length (str "CCTV")) with 4%nat.
    destruct plus; cbn [length]; lia.
  - cbn [app]. rewrite (app_assoc w1 w2).
    destruct (takeWhile_app isWhiteSpace (w1 ++ w2) ((d0 :: d') ++ pl)) as [E1 E2].
    { rewrite forallb_app. now rewrite Hw1, Hw2. }
    { cbn. now rewrite Hd0ws. }
    cbn [app] in E1, E2.
    rewrite E1, E2. rewrite Hd0dash.
    assert (E3 : takeWhile isWhiteSpace (d0 :: d' ++ pl) = []
                 /\ dropWhile isWhiteSpace (d0 :: d' ++ pl) = d0 :: d' ++ pl)
      by (cbn; now rewrite Hd0ws).
    destruct E3 as [E3 E4]. rewrite E3, E4.
    rewrite Hdig1, Hdig2, Hplus. f_equal. f_equal.
    unfold pl. repeat first [rewrite length_app | progress cbn [length]].
    change (length (str "CCTV")) with 4%nat.
    destruct plus; cbn [length]; lia.
Qed.

(** X1: every spelling of a numbered CCTV channel, with or without spaces, a
    hyphen and a plus sign after the digits, has the key CCTV-digits. *)
Theorem normalizeName_cctv_number
    (upperNonAscii : jsstring -> jsstring) (w1 w2 d : jsstring)
    (dash plus : bool) :
  forallb asciiSpace w1 = true ->
  forallb asciiSpace w2 = true ->
  forallb isDigit d = true ->
  d <> [] ->
  normalizeName upperNonAscii (cctvSpelling w1 dash w2 d plus)
  = str "CCTV-" ++ d ++ (if plus then [43%N] else []).
Proof.
  intros H1 H2 Hd Hne.
  pose proof (cctvSpelling_units w1 w2 d dash plus H1 H2 Hd) as Hunits.
  pose proof (cctvKey_units d plus Hd) as Hkey.
  assert (Hfacts : forall c, cctvUnit c || asciiSpace c = true ->
            isAscii c = true /\ isLowerAscii c = false
            /\ (91 =? c)%N = false /\ (65288 =? c)%N = false
            /\ (40 =? c)%N = false).
  { intros c Hc. apply orb_true_iff in Hc as [Hc|Hc].
    - destruct (cctvUnit_facts c Hc) as (_ & ? & ? & ? & ? & ?). now repeat split.
    - destruct (asciiSpace_facts c Hc) as (_ & ? & ? & ? & ? & ? & _).
      now repeat split. }
  unfold normalizeName.
  rewrite toUpperCase_fixed.
  2:{ eapply forallb_impl; [|exact Hunits]. intros c Hc.
      destruct (Hfacts c Hc) as (-> & -> & _). reflexivity. }
  rewrite (replaceAll_bracketed_none 91 93).
  2:{ eapply existsb_none; [|exact Hunits]. intros c Hc. now apply Hfacts. }
  rewrite (replaceAll_bracketed_none 65288 65289).
  2:{ eapply existsb_none; [|exact Hunits]. intros c Hc. now apply Hfacts. }
  rewrite (replaceAll_bracketed_none 40 41).
  2:{ eapply existsb_none; [|exact Hunits]. intros c Hc. now apply Hfacts. }
  set (key := str "CCTV-" ++ d ++ (if plus then [43%N] else [])) in *.
  assert (Hcctv : replaceAll Re.cctv (cctvSpelling w1 dash w2 d plus) = key).
  { unfold replaceAll.
    pose proof (cctv_match w1 w2 d dash plus H1 H2 Hd Hne) as Hm. fold key in Hm.
    revert Hm. unfold cctvSpelling.
    change (str "CCTV" ++ ?r) with (67%N :: (str "CTV" ++ r)).
    intros Hm. cbn [replaceFrom]. rewrite Hm. cbn [length].
    rewrite replaceFrom_skip_all by lia. apply app_nil_r. }
  rewrite Hcctv.
  assert (Hclean : forallb (fun c => negb (isWhiteSpace c)) key = true).
  { eapply forallb_impl; [|exact Hkey]. intros c Hc.
    destruct (cctvUnit_facts c Hc) as (-> & _). reflexivity. }
  rewrite (@removeKeywords_token_free keywords key).
  2:{ intros k Hk. apply tokenFree_occurs; [|exact Hk].
      now apply cctvUnits_tokenFree. }
  unfold replaceAll. rewrite (replaceFrom_spaces_none key Hclean).
  assert (Hlast : exists a c, key = a ++ [c] /\ Re.isSeparator c = false).
  { unfold key. destruct plus.
    - exists (str "CCTV-" ++ d), 43%N. now rewrite <- app_assoc.
    - destruct (exists_last Hne) as (d' & c & ->).
      exists (str "CCTV-" ++ d'), c. rewrite app_nil_r, <- app_assoc.
      split; [reflexivity|]. apply isDigit_facts.
      rewrite forallb_app in Hd. apply andb_true_iff in Hd as [_ Hd].
      cbn in Hd. now rewrite andb_true_r in Hd. }
  destruct Hlast as (a & c & Hk & Hc).
  rewrite Hk at 1. rewrite (replaceFirst_trailing_none a c Hc), <- Hk.
  now apply trim_no_whitespace.
Qed.

Lemma normalizeName_cctv_number_witness :
  normalizeName Env.upper (str "CCTV -13+") = str "CCTV-13+".
Proof.
  apply (normalizeName_cctv_number Env.upper (str " ") [] (str "13") true true);
    [reflexivity | reflexivity | reflexivity | discriminate].
Defined.

(** ** The lines that the parser passes over *)

(** X4: a line that is of none of the three grammars changes neither what is
    pending nor what has been collected; such are the comment lines, the
    lines with a comma whose last field is not a URL (also when the line
    itself starts with http), and the lines that start with p2p and have no
    comma. *)
Theorem unrecognized_line_is_skipped
    (Acc : Type)
    (add : jsstring -> jsstring -> jsstring -> Category -> Acc -> Acc)
    (category : Category) (st : Pending * Acc) (raw : jsstring) :
  isMetadataLine (trim raw) = false ->
  isInlineLine (trim raw) = false ->
  isBareUrlLine (trim raw) = false ->
  processLine add category st raw = st
  /\ (forall line,
        startsWith line (str "#") = true -> isMetadataLine line = false ->
        isInlineLine line = false /\ isBareUrlLine line = false)
  /\ (forall line,
        includesUnit line 44 = true ->
        looksLikeUrl (trim (last (split 44 line) [])) = false ->
        isInlineLine line = false /\ isBareUrlLine line = false)
  /\ (forall line,
        startsWith line (str "p2p") = true -> includesUnit line 44 = false ->
        isMetadataLine line = false
        /\ isInlineLine line = false /\ isBareUrlLine line = false).
Proof.
  intros Hmeta Hinline Hbare. split; [|split; [|split]].
  - unfold processLine. unfold isMetadataLine in Hmeta.
    unfold isInlineLine, isMetadataLine in Hinline. unfold isBareUrlLine in Hbare.
    destruct (trim raw) as [|c r]; [reflexivity|].
    rewrite Hmeta in *. cbn [negb andb] in Hinline.
    destruct (includesUnit (c :: r) 44), (startsWith (c :: r) (str "#"));
      cbn [negb andb orb] in *; try reflexivity.
    + now rewrite Hinline.
    + now rewrite Hbare.
  - intros line Hhash Hm. unfold isInlineLine, isBareUrlLine.
    rewrite Hhash, Hm. cbn. now rewrite !andb_false_r.
  - intros line Hcomma Hurl. unfold isInlineLine, isBareUrlLine.
    rewrite Hcomma, Hurl. cbn. now rewrite !andb_false_r.
  - intros line Hp2p Hcomma. unfold isMetadataLine, isInlineLine, isBareUrlLine.
    rewrite Hcomma. destruct line as [|c r]; [discriminate Hp2p|].
    unfold startsWith in *. change (str "p2p") with (112%N :: str "2p") in Hp2p.
    cbn [stripPrefix] in Hp2p. destruct (N.eqb_spec 112 c) as [<-|];
      [|discriminate Hp2p].
    repeat split; reflexivity.
Qed.

Lemma unrecognized_line_is_skipped_witness :
  processLine emit China
    (mkPending (str "CCTV-1") (str "News"), [])
    (str "http://a/live?ids=1,2")
  = (mkPending (str "CCTV-1") (str "News"), []).
Proof.
  apply (unrecognized_line_is_skipped (list ParsedRecord) emit China
           (mkPending (str "CCTV-1") (str "News"), [])
           (str "http://a/live?ids=1,2"));
    reflexivity.
Defined.

(** X5: an inline line leaves no name pending, so the bare URL lines that
    follow it give no record. *)
Theorem inline_line_clears_pending_name
    (p : Playlist) (pre : list jsstring) (inline : jsstring)
    (urls : list jsstring) :
  split 10 (content p) = pre ++ inline :: urls ->
  isInlineLine (trim inline) = true ->
  Forall (fun u => isBareUrlLine (trim u) = true) urls ->
  recordsOf p
  = recordsOfLines (playlistCategory p) pre
    ++ [mkRecord (trim (join 44 (removelast (split 44 (trim inline)))))
          (str "Other") (trim (last (split 44 (trim inline)) []))
          (playlistCategory p)].
Proof.
  intros Hsplit Hinline Hurls.
  unfold recordsOf, parsePlaylist, recordsOfLines, parseLines.
  rewrite Hsplit, fold_left_app. cbn [fold_left].
  destruct (fold_left _ pre _) as [pd0 recs0]. cbn [snd].
  rewrite processLine_inline by assumption.
  rewrite parse_bare_lines by assumption. reflexivity.
Qed.

Lemma inline_line_clears_pending_name_witness :
  recordsOf
    (mkPlaylist
       (join 10 [str "#EXTINF:-1,CCTV-1"; str "CCTV-2,http://b/2";
                 str "http://a/1"]) China)
  = [mkRecord (str "CCTV-2") (str "Other") (str "http://b/2") China].
Proof.
  apply (inline_line_clears_pending_name
           (mkPlaylist
              (join 10 [str "#EXTINF:-1,CCTV-1"; str "CCTV-2,http://b/2";
                        str "http://a/1"]) China)
           [str "#EXTINF:-1,CCTV-1"] (str "CCTV-2,http://b/2") [str "http://a/1"]);
    [reflexivity | reflexivity | repeat constructor].
Defined.

(** ** The records *)

(** A line adds no record or one, and the one it adds is well formed. *)
Lemma processLine_emit_cases (category : Category) (pd : Pending)
    (recs : list ParsedRecord) (raw : jsstring) :
  snd (processLine emit category (pd, recs) raw) = recs
  \/ exists r,
       snd (processLine emit category (pd, recs) raw) = recs ++ [r]
       /\ recordOk category r.
Proof.
  unfold processLine. cbn [fst snd].
  destruct (trim raw) as [|c l]; [now left|].
  destruct (startsWith _ (str "#EXTINF:")); [now left|].
  destruct (_ && _).
  - destruct (looksLikeUrl _) eqn:Hurl; [|now left].
    right. eexists. split; [reflexivity|]. repeat split; auto.
  - destruct (_ && _) eqn:Hcond; [|now left].
    destruct (currentName pd) as [|x n] eqn:Hname; [now left|].
    right. eexists. split; [reflexivity|]. repeat split.
    + cbn [recUrl]. apply andb_true_iff in Hcond as [_ Hscheme].
      unfold looksLikeUrl. now rewrite Hscheme.
    + left. cbn [recName]. discriminate.
Qed.

Lemma parse_emit_invariant (category : Category) (lines : list jsstring)
    (pd : Pending) (recs : list ParsedRecord) :
  Forall (recordOk category) recs ->
  Forall (recordOk category)
    (snd (fold_left (processLine emit category) lines (pd, recs)))
  /\ (length (snd (fold_left (processLine emit category) lines (pd, recs)))
      <= length recs + length lines)%nat.
Proof.
  revert pd recs. induction lines as [|raw lines IH]; intros pd recs Hok.
  - cbn. split; [assumption | lia].
  - cbn [fold_left].
    destruct (processLine emit category (pd, recs) raw) as [pd' recs'] eqn:Hstep.
    assert (Hcases := processLine_emit_cases category pd recs raw).
    rewrite Hstep in Hcases. cbn [snd] in Hcases.
    destruct Hcases as [->|(r & -> & Hr)].
    + destruct (IH pd' recs Hok) as [H1 H2]. split; [assumption|]. cbn [length]. lia.
    + destruct (IH pd' (recs ++ [r])) as [H1 H2].
      { apply Forall_app. split; [assumption | now constructor]. }
      split; [assumption|]. rewrite length_app in H2. cbn [length] in *. lia.
Qed.

(** X6: every record of a playlist has a URL that starts with http, rtmp or
    p2p and the category of the playlist, and either a name or the group
    Other; and a playlist has no more records than lines. *)
Theorem records_are_well_formed (p : Playlist) (r : ParsedRecord) :
  In r (recordsOf p) ->
  recordOk (playlistCategory p) r
  /\ (length (recordsOf p) <= length (split 10 (content p)))%nat.
Proof.
  intros Hin. unfold recordsOf, parsePlaylist, parseLines in *.
  destruct (parse_emit_invariant (playlistCategory p) (split 10 (content p))
              (mkPending [] []) [] (Forall_nil _)) as [Hall Hlen].
  split; [|exact Hlen]. rewrite Forall_forall in Hall. now apply Hall.
Qed.

Lemma records_are_well_formed_witness :
  recordOk China (mkRecord (str "CCTV-1") (str "News") (str "http://a/1.m3u8") China)
  /\ (length (recordsOf newsTwice) <= length (split 10 (content newsTwice)))%nat.
Proof.
  apply (records_are_well_formed newsTwice
           (mkRecord (str "CCTV-1") (str "News") (str "http://a/1.m3u8") China)).
  left. reflexivity.
Defined.

(** ** The aggregator as a grouping of the records *)

Lemma existsb_jseqb_In (x : jsstring) (l : list jsstring) :
  existsb (fun y => jseqb y x) l = true <-> In x l.
Proof.
  rewrite existsb_exists. split.
  - intros (y & Hy & Heq). apply jseqb_eq in Heq. now subst.
  - intros H. exists x. split; [assumption | apply jseqb_refl].
Qed.

Lemma existsb_jseqb_not_In (x : jsstring) (l : list jsstring) :
  existsb (fun y => jseqb y x) l = false <-> ~ In x l.
Proof.
  rewrite <- existsb_jseqb_In. destruct (existsb _ l); split; congruence.
Qed.

Lemma dedupe_snoc (l : list jsstring) (x : jsstring) :
  dedupe (l ++ [x])
  = if existsb (fun y => jseqb y x) (dedupe l) then dedupe l
    else dedupe l ++ [x].
Proof. unfold dedupe. now rewrite fold_left_app. Qed.

Lemma dedupe_In (l : list jsstring) (x : jsstring) :
  In x (dedupe l) <-> In x l.
Proof.
  revert x. induction l as [|y l IH] using rev_ind; intros x; [reflexivity|].
  rewrite dedupe_snoc, in_app_iff.
  destruct (existsb _ (dedupe l)) eqn:E.
  - apply existsb_jseqb_In, IH in E. rewrite IH. cbn.
    split; [now left | intros [H|[<-|[]]]; assumption].
  - rewrite in_app_iff, IH. reflexivity.
Qed.

Lemma dedupe_NoDup (l : list jsstring) : NoDup (dedupe l).
Proof.
  induction l as [|y l IH] using rev_ind; [constructor|].
  rewrite dedupe_snoc. destruct (existsb _ (dedupe l)) eqn:E; [assumption|].
  apply existsb_jseqb_not_In in E. apply NoDup_app; [assumption | | ].
  - repeat constructor. intros [].
  - intros z Hz [<-|[]]. contradiction.
Qed.

Section KeyedMaps.
Variable V : Type.
Variable f : jsstring -> V.

Lemma get_map_keys (k : jsstring) (l : list jsstring) :
  StrMap.get k (map (fun k' => (k', f k')) l)
  = if existsb (fun y => jseqb y k) l then Some (f k) else None.
Proof.
  induction l as [|k0 l IH]; [reflexivity|]. cbn.
  destruct (jseqb k0 k) eqn:E; [|exact IH].
  apply jseqb_eq in E. now subst.
Qed.

Lemma set_map_keys (g : jsstring -> V) (k : jsstring) (l : list jsstring) :
  NoDup l -> In k l ->
  (forall k', k' <> k -> g k' = f k') ->
  StrMap.set k (g k) (map (fun k' => (k', f k')) l)
  = map (fun k' => (k', g k')) l.
Proof.
  intros Hnd Hin Hg. induction l as [|k0 l IH]; [destruct Hin|].
  apply NoDup_cons_iff in Hnd as [Hk0 Hnd]. cbn.
  destruct (jseqb k0 k) eqn:E.
  - apply jseqb_eq in E. subst k0. f_equal. apply map_ext_in.
    intros k' Hk'. f_equal. symmetry. apply Hg. intros ->. contradiction.
  - apply jseqb_neq in E. destruct Hin as [Heq|Hin]; [congruence|].
    rewrite (Hg k0 E). f_equal. now apply IH.
Qed.
End KeyedMaps.

Section Grouping.
Variable up : jsstring -> jsstring.

Lemma recordsWithKey_snoc (k : jsstring) (recs : list ParsedRecord)
    (r : ParsedRecord) :
  recordsWithKey up k (recs ++ [r])
  = recordsWithKey up k recs ++ (if jseqb (recordKey up r) k then [r] else []).
Proof. unfold recordsWithKey. now rewrite filter_app. Qed.

Lemma keys_snoc (recs : list ParsedRecord) (r : ParsedRecord) :
  filter usableKey (map (recordKey up) (recs ++ [r]))
  = filter usableKey (map (recordKey up) recs)
    ++ (if usableKey (recordKey up r) then [recordKey up r] else []).
Proof. now rewrite map_app, filter_app. Qed.

Lemma key_seen (recs : list ParsedRecord) (k : jsstring) :
  usableKey k = true ->
  (In k (filter usableKey (map (recordKey up) recs))
   <-> recordsWithKey up k recs <> []).
Proof.
  intros Hk. unfold recordsWithKey. rewrite filter_In, in_map_iff. split.
  - intros [(r & Hr & Hin) _] Hnil.
    assert (Hf : In r (filter (fun r => jseqb (recordKey up r) k) recs)).
    { apply filter_In. split; [assumption|]. now apply jseqb_eq. }
    rewrite Hnil in Hf. destruct Hf.
  - intros Hne. destruct (filter _ recs) as [|r l] eqn:E; [congruence|].
    assert (Hf : In r (filter (fun r => jseqb (recordKey up r) k) recs))
      by (rewrite E; now left).
    apply filter_In in Hf as [Hin Heq]. apply jseqb_eq in Heq.
    split; [now exists r | assumption].
Qed.

(** A record with another key does not change a group. *)
Lemma groupedView_other (recs : list ParsedRecord) (r : ParsedRecord)
    (k : jsstring) :
  k <> recordKey up r ->
  groupedView up (recs ++ [r]) k = groupedView up recs k.
Proof.
  intros Hne. unfold groupedView. rewrite recordsWithKey_snoc.
  assert (E : jseqb (recordKey up r) k = false) by (apply jseqb_neq; congruence).
  now rewrite E, app_nil_r.
Qed.

Lemma hasUrl_urls (url : jsstring) (ch : Channel.t) :
  hasUrl url ch
  = existsb (fun y => jseqb y url) (map Source.url (Channel.sources ch)).
Proof.
  unfold hasUrl. induction (Channel.sources ch) as [|s l IH]; [reflexivity|].
  cbn. now rewrite IH.
Qed.

Lemma aggregate_groups (rnd : nat -> jsstring) (recs : list ParsedRecord) :
  mapView
    (channelMap
       (fold_left (addRecord (addChannelToMap up rnd)) recs (mkAgg [] 0)))
  = groupedCatalog up recs.
Proof.
  induction recs as [|r seen IH] using rev_ind; [reflexivity|].
  rewrite fold_left_app. cbn [fold_left].
  set (st := fold_left _ seen _) in *.
  unfold addRecord at 1. rewrite addChannelToMap_cases.
  fold (recordKey up r). set (k := recordKey up r).
  unfold groupedCatalog. rewrite keys_snoc. fold k.
  set (keys := filter usableKey (map (recordKey up) seen)) in *.
  destruct (usableKey k) eqn:Hk.
  - (* a record that counts *)
    rewrite dedupe_snoc.
    pose proof (mapView_get k (channelMap st)) as Hget.
    rewrite IH in Hget. unfold groupedCatalog in Hget. fold keys in Hget.
    rewrite get_map_keys in Hget.
    destruct (existsb (fun y => jseqb y k) (dedupe keys)) eqn:Hseen.
    + (* its key is known *)
      destruct (StrMap.get k (channelMap st)) as [ch|]; [|discriminate Hget].
      injection Hget as Hview.
      assert (Hne : recordsWithKey up k seen <> []).
      { apply key_seen; [assumption|]. apply dedupe_In.
        now apply existsb_jseqb_In. }
      assert (Hkin : In k (dedupe keys)) by now apply existsb_jseqb_In.
      assert (Hgroup : groupedView up (seen ++ [r]) k
                = (trim (recName (hd r (recordsWithKey up k seen))),
                   groupOrOther (recGroup (hd r (recordsWithKey up k seen))),
                   recCategory (hd r (recordsWithKey up k seen)),
                   if hasUrl (recUrl r) ch
                   then map Source.url (Channel.sources ch)
                   else map Source.url (Channel.sources ch) ++ [recUrl r])).
      { unfold groupedView in *. rewrite recordsWithKey_snoc. fold k.
        rewrite jseqb_refl. cbv iota. rewrite map_app. cbn [map].
        rewrite dedupe_snoc.
        destruct (recordsWithKey up k seen) as [|first rest] eqn:E; [congruence|].
        cbn [app hd]. unfold channelView in Hview.
        injection Hview as _ _ _ Hurls. rewrite hasUrl_urls, <- Hurls.
        now destruct (existsb _ _). }
      unfold groupedView in Hview.
      destruct (recordsWithKey up k seen) as [|first rest] eqn:E; [congruence|].
      cbn [hd] in Hgroup. unfold channelView in Hview.
      injection Hview as Hn Hg Hc Hu.
      destruct (hasUrl (recUrl r) ch) eqn:Hurl.
      * rewrite IH. unfold groupedCatalog. fold keys. apply map_ext_in.
        intros k' Hk'. f_equal.
        destruct (list_eq_dec N.eq_dec k' k) as [->|Hne'].
        -- rewrite Hgroup. unfold groupedView. rewrite E. cbn [map].
           now rewrite Hu.
        -- now rewrite groupedView_other.
      * cbn [channelMap]. rewrite mapView_set, IH. unfold groupedCatalog.
        fold keys.
        rewrite <- (set_map_keys _ (groupedView up seen)
                     (groupedView up (seen ++ [r])) k (dedupe keys)
                     (dedupe_NoDup keys) Hkin).
        -- f_equal. rewrite Hgroup. unfold channelView, withSource, newSource.
           cbn. rewrite map_app. cbn. now rewrite Hn, Hg, Hc.
        -- intros k' Hne'. now apply groupedView_other.
    + (* its key is new *)
      destruct (StrMap.get k (channelMap st)) as [ch|] eqn:Hst;
        [discriminate Hget|].
      assert (Hnil : recordsWithKey up k seen = []).
      { destruct (recordsWithKey up k seen) eqn:E; [reflexivity|].
        apply existsb_jseqb_not_In in Hseen. exfalso. apply Hseen.
        apply dedupe_In, key_seen; [assumption|]. now rewrite E. }
      cbn [channelMap]. rewrite mapView_set, set_absent.
      2:{ now rewrite mapView_get, Hst. }
      rewrite IH, map_app. unfold groupedCatalog. fold keys. f_equal.
      * apply map_ext_in. intros k' Hk'. f_equal. symmetry.
        apply groupedView_other. intros ->.
        apply existsb_jseqb_not_In in Hseen. contradiction.
      * cbn [map]. unfold groupedView. rewrite recordsWithKey_snoc, Hnil.
        fold k. rewrite jseqb_refl. reflexivity.
  - (* a record that is dropped *)
    rewrite app_nil_r, IH. unfold groupedCatalog. fold keys.
    apply map_ext_in. intros k' Hk'. f_equal. symmetry.
    apply groupedView_other. intros ->.
    apply (proj1 (dedupe_In _ _)) in Hk'. unfold keys in Hk'.
    apply filter_In in Hk' as [_ Hk'].
    fold k in Hk'. congruence.
Qed.
End Grouping.

(** X7: the map that the aggregator builds is, the identifiers apart, the
    grouping of the records by canonical key: one channel for each usable
    key, in the order in which the keys first occur, with the name, group
    and category of the first record of the key and the URLs of its records,
    each once; the catalog returned is that list of channels, sorted. *)
Theorem aggregate_is_grouping :
  forall (upperNonAscii : jsstring -> jsstring) (rnd : nat -> jsstring)
         (localeCompare : jsstring -> jsstring -> Z)
         (playlists : list Playlist),
    mapView (channelMap (aggregate upperNonAscii rnd playlists))
    = groupedCatalog upperNonAscii (flat_map recordsOf playlists)
    /\ map channelView
         (parseAndAggregate upperNonAscii rnd localeCompare playlists)
       = sort (compareViews upperNonAscii localeCompare)
           (StrMap.values
              (groupedCatalog upperNonAscii (flat_map recordsOf playlists))).
Proof.
  intros up rnd lc ps.
  assert (H : mapView (channelMap (aggregate up rnd ps))
              = groupedCatalog up (flat_map recordsOf ps)).
  { unfold aggregate. rewrite parsePlaylists_records. apply aggregate_groups. }
  split; [exact H|]. now rewrite parseAndAggregate_view, H.
Qed.

(** ** The channels of a catalog *)

Lemma groupedView_key (up : jsstring -> jsstring) (recs : list ParsedRecord)
    (k : jsstring) :
  recordsWithKey up k recs <> [] ->
  normalizeName up (fst (fst (fst (groupedView up recs k)))) = k
  /\ snd (groupedView up recs k) <> [].
Proof.
  intros Hne. unfold groupedView.
  destruct (recordsWithKey up k recs) as [|first rest] eqn:E; [congruence|].
  cbn [fst snd]. split.
  - assert (Hin : In first (recordsWithKey up k recs)) by (rewrite E; now left).
    apply filter_In in Hin as [_ Hk]. now apply jseqb_eq in Hk.
  - intros Hnil.
    assert (Hin : In (recUrl first) (dedupe (map recUrl (first :: rest))))
      by (apply dedupe_In; now left).
    rewrite Hnil in Hin. destruct Hin.
Qed.

(** X8: the channels of a catalog have pairwise different canonical keys,
    each of two units or more; every channel has a source, no two sources of
    a channel share a URL, and no channel has a best source yet. *)
Theorem catalog_channels_are_distinct :
  forall (upperNonAscii : jsstring -> jsstring) (rnd : nat -> jsstring)
         (localeCompare : jsstring -> jsstring -> Z)
         (playlists : list Playlist),
    let c := parseAndAggregate upperNonAscii rnd localeCompare playlists in
    NoDup (map (channelKey upperNonAscii) c)
    /\ Forall (fun ch =>
                 usableKey (channelKey upperNonAscii ch) = true
                 /\ Channel.sources ch <> []
                 /\ urlsDistinct ch
                 /\ Channel.bestSource ch = None) c.
Proof.
  intros up rnd lc ps c.
  set (recs := flat_map recordsOf ps).
  set (keys := dedupe (filter usableKey (map (recordKey up) recs))).
  assert (Hkeys : forall k, In k keys ->
            usableKey k = true /\ recordsWithKey up k recs <> []).
  { intros k Hk. apply (proj1 (dedupe_In _ _)) in Hk.
    assert (Hu : usableKey k = true) by (now apply filter_In in Hk).
    split; [assumption | now apply key_seen]. }
  assert (Hviews : Permutation (map channelView c)
                     (map (groupedView up recs) keys)).
  { unfold c. rewrite parseAndAggregate_view.
    eapply perm_trans; [apply Permutation_sym, sort_perm|].
    unfold aggregate. rewrite parsePlaylists_records, aggregate_groups.
    unfold StrMap.values, groupedCatalog. rewrite map_map. apply Permutation_refl. }
  split.
  - assert (Hperm : Permutation (map (channelKey up) c) keys).
    { replace (map (channelKey up) c)
        with (map (fun v => normalizeName up (fst (fst (fst v))))
                (map channelView c)) by (now rewrite map_map).
      eapply perm_trans; [apply Permutation_map, Hviews|].
      rewrite map_map. rewrite (map_ext_in _ (fun k => k)), map_id;
        [apply Permutation_refl|].
      intros k Hk. now apply groupedView_key, Hkeys. }
    eapply Permutation_NoDup; [apply Permutation_sym, Hperm|].
    apply dedupe_NoDup.
  - apply Forall_forall. intros ch Hch.
    assert (Hv : In (channelView ch) (map (groupedView up recs) keys)).
    { eapply Permutation_in; [exact Hviews|]. now apply in_map. }
    apply in_map_iff in Hv as (k & Hv & Hk).
    destruct (Hkeys k Hk) as [Hu Hne].
    destruct (groupedView_key up recs k Hne) as [Hkey Hsrc].
    rewrite Hv in Hkey, Hsrc. cbn [channelView fst snd] in Hkey, Hsrc.
    unfold channelKey. rewrite Hkey. repeat split.
    + assumption.
    + intros Hnil. rewrite Hnil in Hsrc. now apply Hsrc.
    + unfold c, parseAndAggregate in Hch. apply sort_In in Hch.
      eapply aggregate_urlsDistinct; eassumption.
    + now apply (parseAndAggregate_fresh up rnd lc ps ch).
Qed.

(** ** The identifiers of a catalog *)

Lemma values_set_split (V : Type) (k : jsstring) (v0 : V) (m : StrMap.t V) :
  StrMap.get k m = Some v0 ->
  exists l1 l2,
    StrMap.values m = l1 ++ v0 :: l2
    /\ forall v, StrMap.values (StrMap.set k v m) = l1 ++ v :: l2.
Proof.
  unfold StrMap.values. induction m as [|[k' v'] r IH]; cbn; [discriminate|].
  destruct (jseqb k' k).
  - intros [= ->]. now exists [], (map snd r).
  - intros H. destruct (IH H) as (l1 & l2 & E1 & E2).
    exists (v' :: l1), l2. split; [cbn; now rewrite E1|].
    intros v. cbn. now rewrite E2.
Qed.

Lemma allIds_app (a b : list Channel.t) : allIds (a ++ b) = allIds a ++ allIds b.
Proof. unfold allIds. apply flat_map_app. Qed.

Lemma aggregate_ids (up : jsstring -> jsstring) (rnd : nat -> jsstring)
    (recs : list ParsedRecord) :
  let st := fold_left (addRecord (addChannelToMap up rnd)) recs (mkAgg [] 0) in
  Permutation (allIds (StrMap.values (channelMap st)))
    (map rnd (seq 0 (draws st))).
Proof.
  induction recs as [|r seen IH] using rev_ind; [apply Permutation_refl|].
  cbv zeta in *. rewrite fold_left_app. cbn [fold_left].
  set (st := fold_left _ seen _) in *.
  unfold addRecord at 1 2. rewrite addChannelToMap_cases.
  destruct (usableKey _); [|exact IH].
  destruct (StrMap.get _ (channelMap st)) as [ch|] eqn:Hget.
  - destruct (hasUrl (recUrl r) ch); [exact IH|].
    cbn [channelMap draws].
    destruct (values_set_split _ _ ch (channelMap st) Hget) as (l1 & l2 & E1 & E2).
    rewrite E2. rewrite E1 in IH. rewrite seq_S, map_app. cbn [map Nat.add].
    rewrite allIds_app in *.
    change (allIds (?x :: l2))
      with ((Channel.id x :: map Source.id (Channel.sources x)) ++ allIds l2) in *.
    assert (Hids : Channel.id (withSource ch (newSource rnd (draws st) (recUrl r)))
                   :: map Source.id
                        (Channel.sources
                           (withSource ch (newSource rnd (draws st) (recUrl r))))
                   = (Channel.id ch :: map Source.id (Channel.sources ch))
                     ++ [rnd (draws st)]).
    { unfold withSource, newSource. cbn [Channel.id Channel.sources].
      rewrite map_app. reflexivity. }
    rewrite Hids. clear Hids.
    set (ids := Channel.id ch :: map Source.id (Channel.sources ch)) in *.
    replace (allIds l1 ++ (ids ++ [rnd (draws st)]) ++ allIds l2)
      with ((allIds l1 ++ ids) ++ rnd (draws st) :: allIds l2)
      by (rewrite <- !app_assoc; reflexivity).
    eapply perm_trans; [apply Permutation_sym, Permutation_middle|].
    eapply perm_trans; [|apply Permutation_cons_append].
    apply perm_skip. rewrite <- app_assoc. exact IH.
  - cbn [channelMap draws]. rewrite set_absent by assumption.
    unfold StrMap.values in *. rewrite map_app. cbn [map snd].
    rewrite allIds_app. cbn [allIds flat_map Channel.id Channel.sources map].
    unfold newSource. cbn [Source.id]. rewrite app_nil_r.
    rewrite !seq_S, !map_app. cbn [map Nat.add]. rewrite <- app_assoc.
    apply Permutation_app; [exact IH | apply Permutation_refl].
Qed.

Lemma NoDup_allIds_parts (c : list Channel.t) :
  NoDup (allIds c) ->
  NoDup (map Channel.id c)
  /\ Forall (fun ch => NoDup (map Source.id (Channel.sources ch))) c.
Proof.
  induction c as [|ch c IH]; cbn [allIds flat_map map].
  - intros _. split; constructor.
  - fold (allIds c). intros H.
    apply NoDup_cons_iff in H as [Hid H].
    apply NoDup_app_remove_l in H as Hc.
    destruct (IH Hc) as [IH1 IH2]. split.
    + constructor; [|assumption]. intros Hin. apply Hid.
      apply in_or_app. right. apply in_map_iff in Hin as (ch' & Heq & Hch').
      unfold allIds. apply in_flat_map. exists ch'. split; [assumption|].
      left. assumption.
    + constructor; [|assumption]. now apply NoDup_app_remove_r in H.
Qed.

(** X9: when the generator of identifiers repeats none, no two identifiers
    of a catalog are the same: the channels have different identifiers, and
    so have the sources, within a channel and across channels. *)
Theorem catalog_ids_are_distinct
    (upperNonAscii : jsstring -> jsstring) (rnd : nat -> jsstring)
    (localeCompare : jsstring -> jsstring -> Z) (playlists : list Playlist) :
  (forall m n, rnd m = rnd n -> m = n) ->
  let c := parseAndAggregate upperNonAscii rnd localeCompare playlists in
  NoDup (allIds c)
  /\ NoDup (map Channel.id c)
  /\ Forall (fun ch => NoDup (map Source.id (Channel.sources ch))) c.
Proof.
  intros Hinj c.
  assert (H : NoDup (allIds c)).
  { unfold c, parseAndAggregate, aggregate. rewrite parsePlaylists_records.
    eapply Permutation_NoDup.
    - apply Permutation_sym. eapply perm_trans.
      + unfold allIds. apply Permutation_flat_map, Permutation_sym, sort_perm.
      + apply (aggregate_ids upperNonAscii rnd).
    - apply Finite.Injective_map_NoDup; [exact Hinj | apply seq_NoDup]. }
  split; [exact H | now apply NoDup_allIds_parts].
Qed.

Lemma catalog_ids_are_distinct_witness :
  NoDup (allIds (parseAndAggregate Env.upper unitIds Env.compareUnits [newsTwice])).
Proof.
  apply (catalog_ids_are_distinct Env.upper unitIds Env.compareUnits [newsTwice]).
  intros m n H. injection H as H. now apply Nat2N.inj.
Defined.

(** ** The order of the catalog *)

Lemma compareChannels_rank (up : jsstring -> jsstring)
    (lc : jsstring -> jsstring -> Z) (a b : Channel.t) :
  ((compareChannels up lc a b <= 0)%Z -> (channelRank up a <= channelRank up b)%nat)
  /\ ((0 < compareChannels up lc a b)%Z ->
      (channelRank up b <= channelRank up a)%nat).
Proof.
  unfold compareChannels, channelRank.
  destruct (includes (toUpperCase up (Channel.name a)) (str "CCTV")),
           (includes (toUpperCase up (Channel.name b)) (str "CCTV")),
           (includes (Channel.name a) [21355%N; 35270%N]),
           (includes (Channel.name b) [21355%N; 35270%N]);
    cbn; split; intros H; lia.
Qed.

Lemma insertSorted_rank (up : jsstring -> jsstring)
    (lc : jsstring -> jsstring -> Z) (x : Channel.t) (l : list Channel.t) :
  StronglySorted (fun a b => (channelRank up a <= channelRank up b)%nat) l ->
  StronglySorted (fun a b => (channelRank up a <= channelRank up b)%nat)
    (insertSorted (compareChannels up lc) x l).
Proof.
  induction 1 as [|y r Hr IH Hy]; cbn.
  - repeat constructor.
  - destruct (compareChannels_rank up lc x y) as [Hle Hgt].
    destruct (Z.leb_spec (compareChannels up lc x y) 0) as [Hc|Hc].
    + constructor; [now constructor|].
      constructor; [now apply Hle|].
      rewrite Forall_forall in *. intros z Hz. specialize (Hy z Hz).
      specialize (Hle Hc). lia.
    + constructor; [assumption|].
      rewrite Forall_forall in *. intros z Hz.
      apply (Permutation_in z (Permutation_sym (insertSorted_perm _ x r))) in Hz.
      destruct Hz as [<-|Hz]; [now apply Hgt | now apply Hy].
Qed.

(** X10: in the catalog returned, every channel whose name holds CCTV (in
    any letter case) comes before every other channel, and within either
    part the channels named with the WeiShi marker come first, whatever the
    collation of the names is. *)
Theorem catalog_is_ranked :
  forall (upperNonAscii : jsstring -> jsstring) (rnd : nat -> jsstring)
         (localeCompare : jsstring -> jsstring -> Z)
         (playlists : list Playlist),
    StronglySorted
      (fun a b => (channelRank upperNonAscii a <= channelRank upperNonAscii b)%nat)
      (parseAndAggregate upperNonAscii rnd localeCompare playlists).
Proof.
  intros up rnd lc ps. unfold parseAndAggregate.
  induction (StrMap.values (channelMap (aggregate up rnd ps))) as [|x l IH];
    cbn; [constructor|].
  now apply insertSorted_rank.
Qed.

(** ** The batches of a check cycle *)

Lemma slices_sizes (A : Type) (fuel : nat) (l : list A) :
  Forall (fun b => (1 <= length b <= BATCH_SIZE)%nat) (slices fuel l)
  /\ Forall (fun b => length b = BATCH_SIZE) (removelast (slices fuel l)).
Proof.
  revert l. induction fuel as [|fuel IH]; intros l; [split; constructor|].
  destruct l as [|x r]; [split; constructor|].
  cbn [slices]. destruct (IH (skipn BATCH_SIZE (x :: r))) as [IH1 IH2]. split.
  - constructor; [|assumption]. rewrite length_firstn. unfold BATCH_SIZE.
    cbn [length]. lia.
  - destruct (slices fuel (skipn BATCH_SIZE (x :: r))) as [|b rest] eqn:E;
      [constructor|].
    change (removelast (?a :: b :: rest)) with (a :: removelast (b :: rest)).
    constructor; [|assumption].
    rewrite length_firstn. apply Nat.min_l.
    assert (Hne : skipn BATCH_SIZE (x :: r) <> []).
    { intros Hnil. rewrite Hnil in E. destruct fuel; discriminate E. }
    destruct (Nat.le_gt_cases (length (x :: r)) BATCH_SIZE) as [Hle|Hgt]; [|lia].
    elim Hne. now apply skipn_all2.
Qed.

(** X11: the batches of a check cycle are the task list cut in order into
    pieces of [BATCH_SIZE] tasks, the last one possibly shorter; no batch is
    empty and none holds more than [BATCH_SIZE] tasks. *)
Theorem batches_partition_the_tasks :
  forall (A : Type) (l : list A),
    concat (batchesOf l) = l
    /\ Forall (fun b => (1 <= length b <= BATCH_SIZE)%nat) (batchesOf l)
    /\ Forall (fun b => length b = BATCH_SIZE) (removelast (batchesOf l)).
Proof.
  intros A l. split; [apply batchesOf_concat|]. apply slices_sizes.
Qed.

(** ** What a check cycle leaves untouched *)

Lemma sameStructure_refl (c : list Channel.t) : sameStructure c c.
Proof.
  split; [reflexivity|]. induction c; constructor; auto.
Qed.

Lemma sameStructure_trans (a b c : list Channel.t) :
  sameStructure a b -> sameStructure b c -> sameStructure a c.
Proof.
  intros [H1 H2] [H3 H4]. split; [congruence|].
  clear H1 H3. revert c H4. induction H2 as [|x y a b Hxy _ IH]; intros c H4.
  - inversion H4. constructor.
  - inversion H4 as [|y' z b' c' Hyz Hbc]; subst. constructor.
    + eapply perm_trans; eassumption.
    + now apply IH.
Qed.

(** An update of one source, case by case. *)
Lemma updateSource_cases (f : Source.t -> Source.t)
    (finish : list Source.t -> option Source.t -> list Source.t * option Source.t)
    (task : Task) (next : list Channel.t) :
  (updateSource f finish task next = next
   /\ forall i j, ~ foundAt next task i j)
  \/ exists i j ch src,
       foundAt next task i j
       /\ nth_error next i = Some ch
       /\ nth_error (Channel.sources ch) j = Some src
       /\ jseqb (Source.id src) (sourceId task) = true
       /\ updateSource f finish task next
          = setNth i
              (Channel.mk (Channel.id ch) (Channel.name ch) (Channel.group ch)
                 (Channel.category ch)
                 (fst (finish (setNth j (f src) (Channel.sources ch))
                         (Channel.bestSource ch)))
                 (snd (finish (setNth j (f src) (Channel.sources ch))
                         (Channel.bestSource ch))))
              next.
Proof.
  unfold updateSource, foundAt.
  destruct (findIndex _ next) as [i|] eqn:Hi.
  2:{ left. split; [reflexivity|]. intros i j [H _]. discriminate H. }
  destruct (findIndex_nth_error _ _ Hi) as [ch Hch]. rewrite Hch.
  destruct (findIndex _ (Channel.sources ch)) as [j|] eqn:Hj.
  2:{ left. split; [reflexivity|]. intros i' j' [H (ch' & Hch' & Hj')].
      injection H as <-. rewrite Hch in Hch'. injection Hch' as <-.
      rewrite Hj in Hj'. discriminate Hj'. }
  destruct (findIndex_nth_error _ _ Hj) as [src Hsrc]. rewrite Hsrc.
  right. exists i, j, ch, src. repeat split; try assumption.
  - now exists ch.
  - clear - Hj Hsrc. revert j Hj Hsrc.
    induction (Channel.sources ch) as [|s l IH]; intros j Hj Hsrc;
      [discriminate Hj|].
    cbn in Hj. destruct (jseqb (Source.id s) (sourceId task)) eqn:E.
    + injection Hj as <-. cbn in Hsrc. injection Hsrc as <-. exact E.
    + destruct (findIndex _ l) as [k|] eqn:Hk; [|discriminate Hj].
      injection Hj as <-. cbn in Hsrc. now apply (IH k).
  - now destruct (finish _ _).
Qed.

Lemma Forall2_setNth (A : Type) (R : A -> A -> Prop) (l : list A) (i : nat)
    (x y : A) :
  (forall a, R a a) -> nth_error l i = Some x -> R x y ->
  Forall2 R l (setNth i y l).
Proof.
  intros Hrefl. revert i. induction l as [|a l IH]; intros [|i] Hx Hxy;
    cbn in *; try discriminate.
  - injection Hx as ->. constructor; [assumption|].
    clear - Hrefl. induction l; constructor; auto.
  - constructor; [apply Hrefl | now apply IH].
Qed.

Lemma updateSource_structure (f : Source.t -> Source.t)
    (finish : list Source.t -> option Source.t -> list Source.t * option Source.t)
    (task : Task) (next : list Channel.t) :
  (forall s, sourceIdentity (f s) = sourceIdentity s) ->
  (forall l b, Permutation (fst (finish l b)) l) ->
  sameStructure next (updateSource f finish task next).
Proof.
  intros Hf Hfin.
  destruct (updateSource_cases f finish task next)
    as [[-> _] | (i & j & ch & src & _ & Hch & Hsrc & _ & ->)];
    [apply sameStructure_refl|].
  split.
  - rewrite (@map_setNth _ _ channelIdentity). cbn [channelIdentity Channel.id
      Channel.name Channel.group Channel.category].
    symmetry. apply (@setNth_same _ i (channelIdentity ch)).
    rewrite nth_error_map, Hch. reflexivity.
  - apply (Forall2_setNth _ _ next i ch); [reflexivity | assumption |].
    cbn [Channel.sources]. apply Permutation_sym.
    eapply perm_trans; [apply Permutation_map, Hfin|].
    rewrite (@map_setNth _ _ sourceIdentity), Hf.
    rewrite (@setNth_same _ j (sourceIdentity src)); [apply Permutation_refl|].
    rewrite nth_error_map, Hsrc. reflexivity.
Qed.

Lemma markChecking_structure (tasks : list Task) (prev : list Channel.t) :
  sameStructure prev (markChecking tasks prev).
Proof.
  unfold markChecking. revert prev.
  induction tasks as [|t tasks IH]; intros prev; [apply sameStructure_refl|].
  cbn [fold_left]. eapply sameStructure_trans; [|apply IH].
  apply updateSource_structure; [reflexivity | intros; apply Permutation_refl].
Qed.

Lemma applyResult_structure (next : list Channel.t) (res : CheckResult) :
  sameStructure next (applyResult next res).
Proof.
  unfold applyResult. apply updateSource_structure; [reflexivity|].
  intros l b. cbn [fst]. apply Permutation_sym, sort_perm.
Qed.

Lemma writeBack_structure (results : list CheckResult) (prev : list Channel.t) :
  sameStructure prev (writeBack results prev).
Proof.
  unfold writeBack. revert prev.
  induction results as [|r results IH]; intros prev; [apply sameStructure_refl|].
  cbn [fold_left]. eapply sameStructure_trans; [|apply IH].
  apply applyResult_structure.
Qed.

(** X12: a check cycle neither adds nor removes a channel or a source: in
    every catalog it sets, the channels are those of before, in the same
    order and with the same identifier, name, group and category, and every
    channel has the same sources by identifier and URL, possibly in another
    order. *)
Theorem check_cycle_keeps_structure
    (net : nat -> FetchOutcome) (isChecking : bool)
    (targetChannels prev c' : list Channel.t) :
  In c' (runCheck net isChecking targetChannels prev) ->
  sameStructure prev c'.
Proof.
  unfold runCheck. destruct (_ || _); [intros []|].
  pose proof (markChecking_structure (flattenTasks targetChannels) prev) as Hm.
  revert Hm. generalize (markChecking (flattenTasks targetChannels) prev) as marked.
  generalize (batchesOf (flattenTasks targetChannels)) as batches.
  generalize 0%nat as i.
  intros i batches marked Hm [<-|Hin]; [assumption|].
  revert i marked Hm Hin.
  induction batches as [|batch rest IH]; intros i c Hc Hin; [destruct Hin|].
  cbn [runBatches] in Hin.
  assert (Hnext : sameStructure prev (writeBack (probeBatch net i batch) c)).
  { eapply sameStructure_trans; [exact Hc | apply writeBack_structure]. }
  destruct Hin as [<-|Hin]; [assumption|]. eapply IH; eassumption.
Qed.

Lemma check_cycle_keeps_structure_witness :
  sameStructure (Env.run [oneChannel]) probed720.
Proof.
  apply (check_cycle_keeps_structure netOnline720 false
           (Env.run [oneChannel]) (Env.run [oneChannel]) probed720).
  vm_compute. right. left. reflexivity.
Defined.

(** ** The catalog at the end of a check cycle *)

Lemma last_cons (A : Type) (a d : A) (l : list A) : last (a :: l) d = last l a.
Proof.
  revert a d. induction l as [|b l IH]; intros a d; [reflexivity|].
  change (last (a :: b :: l) d) with (last (b :: l) d). now rewrite !IH.
Qed.

Lemma runBatches_last (net : nat -> FetchOutcome) (batches : list (list Task))
    (i : nat) (prev : list Channel.t) :
  last (runBatches net i batches prev) prev
  = writeBack (allResults net i batches) prev.
Proof.
  revert i prev. induction batches as [|batch rest IH]; intros i prev;
    [reflexivity|].
  cbn [runBatches allResults]. rewrite last_cons, IH.
  unfold writeBack. now rewrite fold_left_app.
Qed.

(** The catalog that a cycle leaves is the write-back of all its results, in
    the order of the tasks, to the marked catalog. *)
Lemma runCheck_last (net : nat -> FetchOutcome)
    (targetChannels prev : list Channel.t) :
  last (runCheck net false targetChannels prev) prev
  = match targetChannels with
    | [] => prev
    | _ :: _ =>
        writeBack
          (allResults net 0 (batchesOf (flattenTasks targetChannels)))
          (markChecking (flattenTasks targetChannels) prev)
    end.
Proof.
  unfold runCheck. destruct targetChannels as [|t ts]; [reflexivity|].
  cbn [orb length Nat.eqb]. rewrite last_cons. apply runBatches_last.
Qed.

Lemma probeBatch_tasks (net : nat -> FetchOutcome) (i : nat) (batch : list Task) :
  map resTask (probeBatch net i batch) = batch.
Proof.
  unfold probeBatch. rewrite map_map. revert i.
  induction batch as [|t batch IH]; intros i; [reflexivity|].
  cbn [length seq combine map snd fst]. rewrite IH. f_equal.
  now destruct (net i) as [|[|] ? ? ?].
Qed.

Lemma allResults_tasks (net : nat -> FetchOutcome) (batches : list (list Task))
    (i : nat) :
  map resTask (allResults net i batches) = concat batches.
Proof.
  revert i. induction batches as [|batch rest IH]; intros i; [reflexivity|].
  cbn [allResults concat]. now rewrite map_app, probeBatch_tasks, IH.
Qed.

Lemma allResults_final (net : nat -> FetchOutcome) (batches : list (list Task))
    (i : nat) :
  Forall (fun res => resStatus res <> checking) (allResults net i batches).
Proof.
  revert i. induction batches as [|batch rest IH]; intros i; [constructor|].
  cbn [allResults]. apply Forall_app. split; [|apply IH].
  unfold probeBatch. apply Forall_forall. intros res Hin.
  apply in_map_iff in Hin as ([k t] & <- & _). cbn [fst snd].
  destruct (net k) as [|[|] ? ? ?]; cbn; discriminate.
Qed.

Lemma chanIndex_structure (c c' : list Channel.t) (t : Task) :
  sameStructure c c' -> chanIndex c' t = chanIndex c t.
Proof.
  intros [Hids _]. unfold chanIndex.
  rewrite !(@findIndex_map _ _ Channel.id (fun x => jseqb x (channelId t))).
  assert (H : map Channel.id c = map Channel.id c').
  { transitivity (map (fun x => fst (fst (fst x))) (map channelIdentity c)).
    - now rewrite map_map.
    - now rewrite Hids, map_map. }
  now rewrite H.
Qed.

Lemma findIndex_found (A : Type) (p : A -> bool) (l : list A) (x : A) :
  In x l -> p x = true -> exists j, findIndex p l = Some j.
Proof.
  induction l as [|y l IH]; intros Hx Hp; [destruct Hx|].
  destruct Hx as [<-|Hin]; cbn.
  - rewrite Hp. now exists 0%nat.
  - destruct (p y); [now exists 0%nat|].
    destruct (IH Hin Hp) as [j ->]. now exists (S j).
Qed.

Lemma foundAt_by_id (c : list Channel.t) (t : Task) (i : nat) (ch : Channel.t) :
  chanIndex c t = Some i -> nth_error c i = Some ch ->
  In (sourceId t) (map Source.id (Channel.sources ch)) ->
  exists j, foundAt c t i j.
Proof.
  intros Hi Hch Hin. apply in_map_iff in Hin as (s & Hid & Hs).
  destruct (findIndex_found _
              (fun s => jseqb (Source.id s) (sourceId t)) _ s Hs) as [j Hj].
  { now apply jseqb_eq. }
  exists j. split; [exact Hi|]. now exists ch.
Qed.

Lemma bestPending_mark (pending : list Task) (c : list Channel.t) (t : Task) :
  In t pending -> bestPending pending c -> bestPending pending (markStep c t).
Proof.
  intros Ht Hinv.
  pose proof (updateSource_structure markSource (fun l b => (l, b)) t c
                (fun s => eq_refl) (fun l b => Permutation_refl l)) as Hstr.
  fold (markStep c t) in Hstr.
  unfold markStep in *.
  destruct (updateSource_cases markSource (fun l b => (l, b)) t c)
    as [[E _] | (i & j & ch & src & Hfound & Hch & Hsrc & Hid & E)];
    rewrite E in *; [assumption|].
  intros i' ch' Hch'. destruct (Nat.eq_dec i i') as [<-|Hne].
  - rewrite (@nth_error_setNth _ i _ ch c Hch) in Hch'. injection Hch' as <-.
    right. exists t. split; [assumption|]. split.
    + rewrite (chanIndex_structure _ _ t Hstr). apply Hfound.
    + cbn [fst Channel.sources]. apply jseqb_eq in Hid. rewrite <- Hid.
      change (Source.id src) with (Source.id (markSource src)).
      apply in_map. eapply nth_error_In, nth_error_setNth. eassumption.
  - rewrite (@nth_error_setNth_other _ i i' _ c Hne) in Hch'.
    destruct (Hinv i' ch' Hch') as [Hb | (t' & Ht' & Hi' & Hs')];
      [now left|].
    right. exists t'. repeat split; try assumption.
    now rewrite (chanIndex_structure _ _ t' Hstr).
Qed.

Lemma bestPending_apply (pending : list Task) (c : list Channel.t)
    (res : CheckResult) :
  bestPending (resTask res :: pending) c ->
  bestPending pending (applyResult c res).
Proof.
  intros Hinv. pose proof (applyResult_structure c res) as Hstr.
  unfold applyResult in *.
  set (fin := fun (l : list Source.t) (_ : option Source.t) =>
                let newSources := sortSources l in
                (newSources, hd_error newSources)) in *.
  destruct (updateSource_cases (storeResult res) fin (resTask res) c)
    as [[E Hnot] | (i & j & ch & src & Hfound & Hch & Hsrc & Hid & E)];
    rewrite E in *.
  - intros i' ch' Hch'.
    destruct (Hinv i' ch' Hch') as [Hb | (t' & [<-|Ht'] & Hi' & Hs')];
      [now left | | right; now exists t'].
    destruct (foundAt_by_id c (resTask res) i' ch' Hi' Hch' Hs') as [j Hj].
    now destruct (Hnot i' j).
  - intros i' ch' Hch'. destruct (Nat.eq_dec i i') as [<-|Hne].
    + rewrite (@nth_error_setNth _ i _ ch c Hch) in Hch'. injection Hch' as <-.
      left. unfold ranked, bestIsFirst, fin.
      cbn [fst snd Channel.bestSource Channel.sources].
      split; [now destruct (hd_error _) | apply sortSources_sorted].
    + rewrite (@nth_error_setNth_other _ i i' _ c Hne) in Hch'.
      destruct (Hinv i' ch' Hch') as [Hb | (t' & [<-|Ht'] & Hi' & Hs')];
        [now left | |].
      * destruct Hfound as [Hi _]. unfold chanIndex in Hi'. congruence.
      * right. exists t'. repeat split; try assumption.
        now rewrite (chanIndex_structure _ _ t' Hstr).
Qed.

Lemma bestPending_markChecking (tasks pending : list Task) (c : list Channel.t) :
  incl tasks pending -> bestPending pending c ->
  bestPending pending (markChecking tasks c).
Proof.
  unfold markChecking. revert c.
  induction tasks as [|t tasks IH]; intros c Hincl Hinv; [assumption|].
  cbn [fold_left]. apply IH.
  - intros x Hx. apply Hincl. now right.
  - apply (bestPending_mark pending c t); [apply Hincl; now left | assumption].
Qed.

Lemma bestPending_writeBack (results : list CheckResult) (c : list Channel.t) :
  bestPending (map resTask results) c -> bestPending [] (writeBack results c).
Proof.
  unfold writeBack. revert c.
  induction results as [|r results IH]; intros c Hinv; [assumption|].
  cbn [fold_left]. apply IH. now apply bestPending_apply.
Qed.

Lemma cycle_ranked (net : nat -> FetchOutcome)
    (targetChannels prev : list Channel.t) :
  Forall ranked prev ->
  Forall ranked (last (runCheck net false targetChannels prev) prev).
Proof.
  intros Hprev. rewrite runCheck_last.
  destruct targetChannels as [|t0 ts]; [assumption|].
  set (tasks := flattenTasks (t0 :: ts)).
  assert (Hstart : bestPending tasks prev).
  { intros i ch Hch. left. rewrite Forall_forall in Hprev.
    apply Hprev. eapply nth_error_In; eassumption. }
  assert (Hend : bestPending []
            (writeBack (allResults net 0 (batchesOf tasks))
               (markChecking tasks prev))).
  { apply bestPending_writeBack.
    rewrite allResults_tasks, batchesOf_concat.
    apply bestPending_markChecking; [apply incl_refl | assumption]. }
  apply Forall_forall. intros ch Hch.
  apply In_nth_error in Hch as [i Hi].
  destruct (Hend i ch Hi) as [Hb | (t & [] & _)]. exact Hb.
Qed.

Lemma idle_sources_sorted (l : list Source.t) :
  (forall s, In s l -> Source.status s = idle) ->
  StronglySorted by_score_desc l.
Proof.
  induction l as [|x r IH]; intros Hidle; constructor.
  - apply IH. intros s Hs. apply Hidle. now right.
  - apply Forall_forall. intros y Hy. unfold by_score_desc, getScore.
    rewrite (Hidle x), (Hidle y); [lia | now right | now left].
Qed.

Lemma settled_ranked (c : list Channel.t) : Settled c -> Forall ranked c.
Proof.
  induction 1 as [up rnd lc ps | c net targets _ IH].
  - apply Forall_forall. intros ch Hch.
    destruct (parseAndAggregate_fresh up rnd lc ps ch Hch) as [Hbest Hidle].
    split; [unfold bestIsFirst; now rewrite Hbest|].
    apply idle_sources_sorted. intros s Hs. now apply Hidle.
  - now apply cycle_ranked.
Qed.

(** X13: between two check cycles every channel is in order: its sources are
    in the descending order of their scores and its best source, when there
    is one, is its first source.  So it is in the catalog that the aggregator
    returns, and a cycle that starts from such a catalog leaves such a
    catalog when it is over, whatever its targets and the network. *)
Theorem settled_channels_are_ranked (c : list Channel.t) :
  Settled c -> Forall ranked c.
Proof.
  induction 1 as [up rnd lc ps | c net targets _ IH].
  - apply Forall_forall. intros ch Hch.
    destruct (parseAndAggregate_fresh up rnd lc ps ch Hch) as [Hbest Hidle].
    split; [unfold bestIsFirst; now rewrite Hbest|].
    apply idle_sources_sorted. intros s Hs. now apply Hidle.
  - now apply cycle_ranked.
Qed.

Lemma settled_channels_are_ranked_witness :
  Settled probed720
  /\ map bestAndFirst probed720
     = [(Some (online, Some 300%Z), Some (online, Some 300%Z))]
  /\ Forall ranked probed720.
Proof.
  assert (H : Settled probed720).
  { apply (@settled_cycle (Env.run [oneChannel]) netOnline720
             (Env.run [oneChannel])).
    apply settled_aggregate. }
  split; [exact H|]. split; [reflexivity|].
  exact (settled_channels_are_ranked probed720 H).
Defined.

(** ** No source stays marked *)

Lemma setNth_In_other (A : Type) (i : nat) (x y : A) (l : list A) :
  In y (setNth i x l) ->
  y = x \/ exists k, k <> i /\ nth_error l k = Some y.
Proof.
  revert i. induction l as [|z r IH]; intros [|i]; cbn; try tauto.
  - intros [<-|H]; [now left|]. right.
    apply In_nth_error in H as [k Hk]. now exists (S k).
  - intros [<-|H]; [right; now exists 0%nat|].
    destruct (IH i H) as [->|(k & Hne & Hk)]; [now left|].
    right. exists (S k). split; [congruence | exact Hk].
Qed.

Lemma sourceIds_structure (c c' : list Channel.t) :
  sameStructure c c' -> sourceIdsDistinct c -> sourceIdsDistinct c'.
Proof.
  intros [_ H]. unfold sourceIdsDistinct.
  induction H as [|ch ch' c c' Hperm _ IH]; intros Hc x Hx; [destruct Hx|].
  destruct Hx as [<-|Hx].
  - apply (Permutation_map fst) in Hperm. rewrite !map_map in Hperm.
    apply (Permutation_NoDup Hperm). apply Hc. now left.
  - apply IH; [|exact Hx]. intros y Hy. apply Hc. now right.
Qed.

Lemma checkingPending_mark (pending : list Task) (c : list Channel.t) (t : Task) :
  In t pending -> checkingPending pending c ->
  checkingPending pending (markStep c t).
Proof.
  intros Ht Hinv.
  pose proof (updateSource_structure markSource (fun l b => (l, b)) t c
                (fun s => eq_refl) (fun l b => Permutation_refl l)) as Hstr.
  fold (markStep c t) in Hstr.
  unfold markStep in *.
  destruct (updateSource_cases markSource (fun l b => (l, b)) t c)
    as [[E _] | (i & j & ch & src & Hfound & Hch & Hsrc & Hid & E)];
    rewrite E in *; [assumption|].
  intros i' ch' s Hch' Hs Hst. destruct (Nat.eq_dec i i') as [<-|Hne].
  - rewrite (@nth_error_setNth _ i _ ch c Hch) in Hch'. injection Hch' as <-.
    cbn [fst Channel.sources] in Hs.
    apply setNth_In in Hs as [->|Hs].
    + exists t. split; [assumption|]. split.
      * rewrite (chanIndex_structure _ _ t Hstr). apply Hfound.
      * apply jseqb_eq in Hid. now rewrite <- Hid.
    + destruct (Hinv i ch s Hch Hs Hst) as (t' & Ht' & Hi' & Hs').
      exists t'. repeat split; try assumption.
      now rewrite (chanIndex_structure _ _ t' Hstr).
  - rewrite (@nth_error_setNth_other _ i i' _ c Hne) in Hch'.
    destruct (Hinv i' ch' s Hch' Hs Hst) as (t' & Ht' & Hi' & Hs').
    exists t'. repeat split; try assumption.
    now rewrite (chanIndex_structure _ _ t' Hstr).
Qed.

Lemma checkingPending_apply (pending : list Task) (c : list Channel.t)
    (res : CheckResult) :
  sourceIdsDistinct c -> resStatus res <> checking ->
  checkingPending (resTask res :: pending) c ->
  checkingPending pending (applyResult c res).
Proof.
  intros Hdistinct Hres Hinv. pose proof (applyResult_structure c res) as Hstr.
  unfold applyResult in *.
  set (fin := fun (l : list Source.t) (_ : option Source.t) =>
                let newSources := sortSources l in
                (newSources, hd_error newSources)) in *.
  destruct (updateSource_cases (storeResult res) fin (resTask res) c)
    as [[E Hnot] | (i & j & ch & src & Hfound & Hch & Hsrc & Hid & E)];
    rewrite E in *.
  - intros i' ch' s Hch' Hs Hst.
    destruct (Hinv i' ch' s Hch' Hs Hst) as (t' & [<-|Ht'] & Hi' & Hs');
      [|now exists t'].
    destruct (foundAt_by_id c (resTask res) i' ch' Hi' Hch') as [j Hj].
    { rewrite Hs'. now apply in_map. }
    now destruct (Hnot i' j).
  - intros i' ch' s Hch' Hs Hst. destruct (Nat.eq_dec i i') as [<-|Hne].
    + rewrite (@nth_error_setNth _ i _ ch c Hch) in Hch'. injection Hch' as <-.
      unfold fin in Hs. cbn [fst Channel.sources] in Hs.
      apply sort_In in Hs.
      apply setNth_In_other in Hs as [->|(k & Hk & Hsk)];
        [now destruct Hres|].
      assert (Hs0 : In s (Channel.sources ch))
        by (eapply nth_error_In; eassumption).
      destruct (Hinv i ch s Hch Hs0 Hst) as (t' & [<-|Ht'] & Hi' & Hs').
      * exfalso. apply Hk. apply jseqb_eq in Hid.
        assert (Hnd : NoDup (map Source.id (Channel.sources ch))).
        { apply Hdistinct. eapply nth_error_In; eassumption. }
        rewrite NoDup_nth_error in Hnd. apply Hnd.
        -- rewrite length_map. apply nth_error_Some. congruence.
        -- rewrite (map_nth_error Source.id k _ Hsk),
             (map_nth_error Source.id j _ Hsrc). congruence.
      * exists t'. repeat split; try assumption.
        now rewrite (chanIndex_structure _ _ t' Hstr).
    + rewrite (@nth_error_setNth_other _ i i' _ c Hne) in Hch'.
      destruct (Hinv i' ch' s Hch' Hs Hst) as (t' & [<-|Ht'] & Hi' & Hs').
      * destruct Hfound as [Hi _]. unfold chanIndex in Hi'. congruence.
      * exists t'. repeat split; try assumption.
        now rewrite (chanIndex_structure _ _ t' Hstr).
Qed.

Lemma checkingPending_markChecking (tasks pending : list Task)
    (c : list Channel.t) :
  incl tasks pending -> checkingPending pending c ->
  checkingPending pending (markChecking tasks c).
Proof.
  unfold markChecking. revert c.
  induction tasks as [|t tasks IH]; intros c Hincl Hinv; [assumption|].
  cbn [fold_left]. apply IH.
  - intros x Hx. apply Hincl. now right.
  - apply (checkingPending_mark pending c t);
      [apply Hincl; now left | assumption].
Qed.

Lemma checkingPending_writeBack (results : list CheckResult)
    (c : list Channel.t) :
  sourceIdsDistinct c ->
  Forall (fun res => resStatus res <> checking) results ->
  checkingPending (map resTask results) c ->
  checkingPending [] (writeBack results c).
Proof.
  unfold writeBack. revert c.
  induction results as [|r results IH]; intros c Hd Hres Hinv; [assumption|].
  cbn [fold_left]. inversion Hres as [|? ? Hr Hrest]; subst. apply IH.
  - apply (sourceIds_structure c); [apply applyResult_structure | assumption].
  - assumption.
  - now apply checkingPending_apply.
Qed.

(** X14: when the sources of every channel have distinct identifiers and no
    source is marked as being checked, a check cycle leaves no source marked
    as being checked when it is over, whatever its targets and whatever the
    network does (no result has that status, and every source that the
    cycle marks is written to).  The identifiers stay distinct, so the same
    holds of the next cycle. *)
Theorem cycle_leaves_no_source_checking (net : nat -> FetchOutcome)
    (targetChannels prev : list Channel.t) :
  sourceIdsDistinct prev ->
  noneChecking prev ->
  noneChecking (last (runCheck net false targetChannels prev) prev)
  /\ sourceIdsDistinct (last (runCheck net false targetChannels prev) prev).
Proof.
  intros Hd Hprev. rewrite runCheck_last.
  destruct targetChannels as [|t0 ts]; [now split|].
  set (tasks := flattenTasks (t0 :: ts)).
  assert (Hstart : checkingPending tasks prev).
  { intros i ch s Hch Hs Hst. exfalso.
    apply (Hprev ch (nth_error_In _ _ Hch) s Hs Hst). }
  assert (Hend : checkingPending []
            (writeBack (allResults net 0 (batchesOf tasks))
               (markChecking tasks prev))).
  { apply checkingPending_writeBack.
    - apply (sourceIds_structure prev);
        [apply markChecking_structure | assumption].
    - apply allResults_final.
    - rewrite allResults_tasks, batchesOf_concat.
      apply checkingPending_markChecking; [apply incl_refl | assumption]. }
  split.
  - intros ch Hch s Hs Hst. apply In_nth_error in Hch as [i Hi].
    now destruct (Hend i ch s Hi Hs Hst) as (t & [] & _).
  - apply (sourceIds_structure prev); [|assumption].
    eapply sameStructure_trans;
      [apply markChecking_structure | apply writeBack_structure].
Qed.

Lemma cycle_leaves_no_source_checking_witness :
  map (fun ch => map Source.status (Channel.sources ch)) probed720
  = [[online]]
  /\ noneChecking probed720
  /\ sourceIdsDistinct probed720.
Proof.
  split; [reflexivity|].
  apply (cycle_leaves_no_source_checking netOnline720
           (Env.run [oneChannel]) (Env.run [oneChannel])).
  - intros ch [<-|[]]. vm_compute. repeat constructor. intros [].
  - intros ch [<-|[]] s [<-|[]]. vm_compute. discriminate.
Defined.

(** ** The ranking of the sources of a channel *)

Lemma StronglySorted_impl_In (A : Type) (R R' : A -> A -> Prop) (l : list A) :
  (forall a b, In a l -> In b l -> R a b -> R' a b) ->
  StronglySorted R l -> StronglySorted R' l.
Proof.
  intros Himpl Hs. induction Hs as [|x r Hr IH Hx]; constructor.
  - apply IH. intros a b Ha Hb. apply Himpl; now right.
  - rewrite Forall_forall in *. intros y Hy.
    apply Himpl; [now left | now right | now apply Hx].
Qed.

Lemma by_score_ranked (a b : Source.t) :
  (Source.status a = online -> (latencyOf a < 50000)%Z) ->
  (Source.status b = online -> (latencyOf b < 50000)%Z) ->
  by_score_desc a b -> rankedBefore a b.
Proof.
  unfold by_score_desc, rankedBefore, getScore, statusRank, latencyOf.
  intros Ha Hb.
  destruct (Source.status a), (Source.status b);
    try specialize (Ha eq_refl); try specialize (Hb eq_refl);
    destruct (Source.latency a), (Source.latency b); intros H;
    first [ left; lia | right; split; [reflexivity|]; intros; try discriminate; lia
          | exfalso; lia ].
Qed.

(** X15: when every online source of a channel has a latency under 50000 ms,
    the re-ranking of a write-back puts the online sources first, by
    ascending latency, then the sources whose probe was rejected, then the
    sources being checked, then the others; so the source at the head, which
    becomes the best source, is an online source of the least latency
    whenever a source is online. *)
Theorem best_source_is_fastest_online (l : list Source.t) :
  (forall s, In s l -> Source.status s = online -> (latencyOf s < 50000)%Z) ->
  StronglySorted rankedBefore (sortSources l)
  /\ forall best, hd_error (sortSources l) = Some best ->
     forall s, In s l ->
       (statusRank best <= statusRank s)%nat
       /\ (Source.status s = online ->
           Source.status best = online /\ (latencyOf best <= latencyOf s)%Z).
Proof.
  intros Hlat.
  assert (Hsorted : StronglySorted rankedBefore (sortSources l)).
  { apply (StronglySorted_impl_In _ by_score_desc);
      [|apply sortSources_sorted].
    intros a b Ha Hb. unfold sortSources in Ha, Hb.
    apply sort_In in Ha, Hb. apply by_score_ranked; now apply Hlat. }
  split; [exact Hsorted|].
  intros best Hbest s Hs.
  assert (Hs' : In s (sortSources l)) by (unfold sortSources; now apply sort_In).
  destruct (sortSources l) as [|b r]; [discriminate|].
  injection Hbest as ->.
  assert (Hrank : s = best \/ rankedBefore best s).
  { destruct Hs' as [->|Hs']; [now left|]. right.
    inversion Hsorted as [|? ? _ Hall]; subst.
    rewrite Forall_forall in Hall. now apply Hall. }
  destruct Hrank as [->|Hrank]; [split; [lia|]; intros; split; [assumption|lia]|].
  unfold rankedBefore, statusRank in *.
  destruct Hrank as [Hlt|[Heq Hle]].
  - split; [lia|]. intros Hon. rewrite Hon in Hlt. lia.
  - split; [lia|]. intros Hon. rewrite Hon in Heq.
    assert (Hb : Source.status best = online)
      by (destruct (Source.status best); try discriminate; reflexivity).
    split; [exact Hb | now apply Hle].
Qed.

Lemma best_source_is_fastest_online_witness :
  map statusAndLatency (sortSources [srcOffline; srcOnline; srcError; srcOnline120])
  = [(online, Some 120%Z); (online, Some 300%Z); (error, None); (offline, None)]
  /\ StronglySorted rankedBefore
       (sortSources [srcOffline; srcOnline; srcError; srcOnline120]).
Proof.
  split; [reflexivity|].
  apply (best_source_is_fastest_online
           [srcOffline; srcOnline; srcError; srcOnline120]).
  intros s [<-|[<-|[<-|[<-|[]]]]] _; vm_compute; reflexivity.
Defined.

Lemma insertSorted_withScore (v : Z) (x : Source.t) (l : list Source.t) :
  withScore v (insertSorted (fun a b => (getScore b - getScore a)%Z) x l)
  = withScore v (x :: l).
Proof.
  unfold withScore. induction l as [|y r IH]; [reflexivity|].
  cbn [insertSorted].
  destruct (Z.leb_spec (getScore y - getScore x) 0) as [Hle|Hgt];
    [reflexivity|].
  cbn [filter] in *. rewrite IH.
  destruct (Z.eqb_spec (getScore x) v) as [Hx|Hx];
    destruct (Z.eqb_spec (getScore y) v) as [Hy|Hy]; try reflexivity.
  exfalso. lia.
Qed.

Lemma sortSources_sorted_fixed (l : list Source.t) :
  StronglySorted by_score_desc l -> sortSources l = l.
Proof.
  unfold sortSources. induction 1 as [|x r Hr IH Hx]; [reflexivity|].
  cbn [sort fold_right]. fold (sort (fun a b => (getScore b - getScore a)%Z) r).
  rewrite IH. destruct r as [|y r']; [reflexivity|].
  cbn [insertSorted]. inversion Hx as [|? ? Hy _]; subst.
  unfold by_score_desc in Hy.
  destruct (Z.leb_spec (getScore y - getScore x) 0); [reflexivity | lia].
Qed.

(** X16: the re-ranking of a write-back keeps the order of the sources of
    equal score (the sources that are offline or not checked yet stay in the
    order of the playlists), and ranking a ranked list changes nothing. *)
Theorem rerank_is_stable (l : list Source.t) :
  (forall v, withScore v (sortSources l) = withScore v l)
  /\ sortSources (sortSources l) = sortSources l.
Proof.
  split.
  - intros v. unfold sortSources. induction l as [|x r IH]; [reflexivity|].
    cbn [sort fold_right].
    fold (sort (fun a b => (getScore b - getScore a)%Z) r).
    rewrite insertSorted_withScore. unfold withScore in *. cbn [filter].
    now rewrite IH.
  - apply sortSources_sorted_fixed, sortSources_sorted.
Qed.

(** ** What a check cycle leaves alone *)

Lemma findIndex_true (A : Type) (p : A -> bool) (l : list A) (i : nat) (x : A) :
  findIndex p l = Some i -> nth_error l i = Some x -> p x = true.
Proof.
  revert i. induction l as [|y r IH]; intros i; cbn; [discriminate|].
  destruct (p y) eqn:Hp.
  - intros [= <-] [= <-]. exact Hp.
  - destruct (findIndex p r) as [k|]; [|discriminate].
    intros [= <-]. cbn. now apply IH.
Qed.

Lemma updateSource_other (f : Source.t -> Source.t)
    (finish : list Source.t -> option Source.t -> list Source.t * option Source.t)
    (t : Task) (c : list Channel.t) (i : nat) (ch : Channel.t) :
  channelId t <> Channel.id ch ->
  nth_error c i = Some ch ->
  nth_error (updateSource f finish t c) i = Some ch.
Proof.
  intros Hne Hch.
  destruct (updateSource_cases f finish t c)
    as [[-> _] | (i0 & j & ch0 & src & [Hi _] & Hch0 & _ & _ & ->)];
    [assumption|].
  rewrite nth_error_setNth_other; [assumption|].
  intros ->. rewrite Hch in Hch0. injection Hch0 as <-.
  apply (findIndex_true _ _ _ _ ch Hi) in Hch. apply jseqb_eq in Hch.
  now apply Hne.
Qed.

(** What every update of a cycle keeps holds of every catalog that the
    cycle sets. *)
Lemma runCheck_invariant (P : list Channel.t -> Prop) (Q : Task -> Prop)
    (net : nat -> FetchOutcome) (isChecking : bool)
    (targetChannels prev : list Channel.t) :
  (forall t c, Q t -> P c -> P (markStep c t)) ->
  (forall res c, Q (resTask res) -> P c -> P (applyResult c res)) ->
  Forall Q (flattenTasks targetChannels) ->
  P prev ->
  forall c', In c' (runCheck net isChecking targetChannels prev) -> P c'.
Proof.
  intros Hstep Hres HQ Hprev c'. unfold runCheck.
  destruct (_ || _); [intros []|].
  assert (Hmark : forall tasks c, Forall Q tasks -> P c ->
                    P (markChecking tasks c)).
  { unfold markChecking. induction tasks as [|t tasks IH]; intros c Ht Hc;
      [assumption|].
    inversion Ht; subst. cbn [fold_left]. apply IH; [assumption|].
    now apply Hstep. }
  assert (Hwrite : forall results c, Forall Q (map resTask results) -> P c ->
                     P (writeBack results c)).
  { unfold writeBack. induction results as [|r results IH]; intros c Hr Hc;
      [assumption|].
    inversion Hr; subst. cbn [fold_left]. apply IH; [assumption|].
    now apply Hres. }
  pose proof (Hmark _ _ HQ Hprev) as Hm.
  rewrite <- (batchesOf_concat (flattenTasks targetChannels)) in HQ.
  revert Hm HQ.
  generalize (markChecking (flattenTasks targetChannels) prev) as marked.
  generalize (batchesOf (flattenTasks targetChannels)) as batches.
  generalize 0%nat as i.
  intros i batches marked Hm HQ [<-|Hin]; [assumption|].
  revert i marked Hm HQ Hin.
  induction batches as [|batch rest IH]; intros i c Hc HQ Hin; [destruct Hin|].
  cbn [runBatches] in Hin. cbn [concat] in HQ.
  apply Forall_app in HQ as [Hb Hrest].
  assert (Hnext : P (writeBack (probeBatch net i batch) c)).
  { apply Hwrite; [now rewrite probeBatch_tasks | assumption]. }
  destruct Hin as [<-|Hin]; [assumption|]. eapply IH; eassumption.
Qed.

Lemma flattenTasks_channels (targetChannels : list Channel.t) :
  Forall (fun t => In (channelId t) (map Channel.id targetChannels))
    (flattenTasks targetChannels).
Proof.
  apply Forall_forall. intros t Ht. unfold flattenTasks in Ht.
  apply in_flat_map in Ht as (ch & Hch & Ht).
  apply in_map_iff in Ht as (s & <- & _). cbn [channelId].
  now apply in_map.
Qed.

Lemma runCheck_other (net : nat -> FetchOutcome) (isChecking : bool)
    (targetChannels prev c' : list Channel.t) (i : nat) (ch : Channel.t) :
  In c' (runCheck net isChecking targetChannels prev) ->
  nth_error prev i = Some ch ->
  ~ In (Channel.id ch) (map Channel.id targetChannels) ->
  nth_error c' i = Some ch.
Proof.
  intros Hin Hch Hnot.
  apply (runCheck_invariant (fun c => nth_error c i = Some ch)
           (fun t => channelId t <> Channel.id ch)
           net isChecking targetChannels prev); try assumption.
  - intros t c Ht Hc. now apply updateSource_other.
  - intros res c Ht Hc. now apply updateSource_other.
  - eapply Forall_impl; [|apply flattenTasks_channels].
    intros t Ht Heq. apply Hnot. now rewrite <- Heq.
Qed.

(** X17: a check cycle leaves alone every channel whose identifier is the
    identifier of no target: in every catalog that the cycle sets, such a
    channel is where it was, with the sources, the statuses and the best
    source that it had. *)
Theorem check_leaves_other_channels (net : nat -> FetchOutcome)
    (isChecking : bool) (targetChannels prev c' : list Channel.t)
    (i : nat) (ch : Channel.t) :
  In c' (runCheck net isChecking targetChannels prev) ->
  nth_error prev i = Some ch ->
  ~ In (Channel.id ch) (map Channel.id targetChannels) ->
  nth_error c' i = Some ch.
Proof.
  intros Hin Hch Hnot.
  apply (runCheck_invariant (fun c => nth_error c i = Some ch)
           (fun t => channelId t <> Channel.id ch)
           net isChecking targetChannels prev); try assumption.
  - intros t c Ht Hc. now apply updateSource_other.
  - intros res c Ht Hc. now apply updateSource_other.
  - eapply Forall_impl; [|apply flattenTasks_channels].
    intros t Ht Heq. apply Hnot. now rewrite <- Heq.
Qed.

Lemma check_leaves_other_channels_witness :
  map (fun ch => map Source.status (Channel.sources ch))
    (last (runCheck netOnline720 false (firstn 1 (Env.run [twoChannels]))
             (Env.run [twoChannels])) [])
  = [[online]; [idle]]
  /\ nth_error
       (last (runCheck netOnline720 false (firstn 1 (Env.run [twoChannels]))
                (Env.run [twoChannels])) []) 1
     = nth_error (Env.run [twoChannels]) 1.
Proof.
  split; [reflexivity|].
  assert (H : exists ch, nth_error (Env.run [twoChannels]) 1 = Some ch)
    by (eexists; reflexivity).
  destruct H as [ch Hch]. rewrite Hch.
  apply (check_leaves_other_channels netOnline720 false
           (firstn 1 (Env.run [twoChannels])) (Env.run [twoChannels]) _ 1 ch).
  - vm_compute. right. left. reflexivity.
  - exact Hch.
  - vm_compute in Hch. injection Hch as <-. vm_compute.
    intros [H|[]]. discriminate.
Defined.

Lemma NoDup_map_In_eq (A B : Type) (f : A -> B) (l : list A) (x y : A) :
  NoDup (map f l) -> In x l -> In y l -> f x = f y -> x = y.
Proof.
  induction l as [|z r IH]; intros Hnd Hx Hy Heq; [destruct Hx|].
  cbn [map] in Hnd. inversion Hnd as [|? ? Hz Hr]; subst.
  destruct Hx as [<-|Hx], Hy as [<-|Hy]; try reflexivity.
  - exfalso. apply Hz. rewrite Heq. now apply in_map.
  - exfalso. apply Hz. rewrite <- Heq. now apply in_map.
  - now apply IH.
Qed.

(** X18: when the channels have distinct identifiers, [Check all] leaves
    alone every channel that the filter hides, and the check of one channel
    leaves alone every other channel: in every catalog that the cycle sets
    such a channel is where it was and as it was. *)
Theorem checks_touch_only_what_is_shown (toLowerCase : jsstring -> jsstring)
    (net : nat -> FetchOutcome) (isChecking : bool)
    (channels : list Channel.t) :
  NoDup (map Channel.id channels) ->
  (forall filterText activeTab c' i ch,
     In c' (handleCheckAll toLowerCase net isChecking filterText activeTab
              channels) ->
     nth_error channels i = Some ch ->
     matchFilter toLowerCase filterText ch && matchTab activeTab ch = false ->
     nth_error c' i = Some ch)
  /\ (forall channel c' i ch,
        In channel channels ->
        In c' (handleCheckChannel net isChecking channel channels) ->
        nth_error channels i = Some ch ->
        ch <> channel ->
        nth_error c' i = Some ch).
Proof.
  intros Hnd. split.
  - intros text tab c' i ch Hin Hch Hhidden.
    apply (runCheck_other net isChecking _ channels c' i ch Hin Hch).
    intros Hid. apply in_map_iff in Hid as (ch2 & Hid & Hch2).
    unfold filteredChannels in Hch2. apply filter_In in Hch2 as [Hch2 Hshown].
    assert (ch2 = ch).
    { apply (NoDup_map_In_eq _ _ Channel.id channels); try assumption.
      eapply nth_error_In; eassumption. }
    subst ch2. congruence.
  - intros channel c' i ch Hchannel Hin Hch Hne.
    apply (runCheck_other net isChecking _ channels c' i ch Hin Hch).
    intros [Hid|[]]. apply Hne.
    apply (NoDup_map_In_eq _ _ Channel.id channels); try assumption;
      [eapply nth_error_In; eassumption | now symmetry].
Qed.

Lemma checks_touch_only_what_is_shown_witness :
  map Channel.name
    (filteredChannels (fun s => s) (str "TV2") TabAll (Env.run [twoChannels]))
  = [str "CCTV2"]
  /\ forall c',
       In c' (handleCheckAll (fun s => s) netOnline720 false (str "TV2") TabAll
                (Env.run [twoChannels])) ->
       nth_error c' 0 = nth_error (Env.run [twoChannels]) 0.
Proof.
  split; [reflexivity|]. intros c' Hin.
  assert (H : exists ch, nth_error (Env.run [twoChannels]) 0 = Some ch)
    by (eexists; reflexivity).
  destruct H as [ch Hch]. rewrite Hch.
  assert (Hnd : NoDup (map Channel.id (Env.run [twoChannels]))).
  { vm_compute. repeat constructor; cbn; intuition discriminate. }
  apply (proj1 (checks_touch_only_what_is_shown (fun s => s) netOnline720 false
                  (Env.run [twoChannels]) Hnd)
           (str "TV2") TabAll c' 0%nat ch Hin Hch).
  vm_compute in Hch. injection Hch as <-. reflexivity.
Defined.

(** ** The figures of the header *)

Lemma countSource_step (acc : StatsAcc) (s : Source.t) :
  countSource acc s
  = mkStatsAcc (totalSrc acc)
      (onlineSrc acc + (if isOnline s then 1 else 0))
      (totalLatency acc + (if timed s then latencyOf s else 0))
      (latencyCount acc + (if timed s then 1 else 0)).
Proof.
  unfold countSource, isOnline, timed, latencyOf. destruct acc as [a b c d].
  cbn [totalSrc onlineSrc totalLatency latencyCount].
  destruct (Source.status s); try (f_equal; lia).
  destruct (Source.latency s) as [t|]; [|f_equal; lia].
  destruct (t =? 0)%Z; cbn [negb]; f_equal; lia.
Qed.

Lemma countSource_fold (l : list Source.t) (acc : StatsAcc) :
  fold_left countSource l acc
  = mkStatsAcc (totalSrc acc)
      (onlineSrc acc + length (filter isOnline l))
      (totalLatency acc + latencySum (filter timed l))
      (latencyCount acc + length (filter timed l)).
Proof.
  revert acc. induction l as [|s l IH]; intros acc.
  - destruct acc as [a b c d]. cbn. f_equal; lia.
  - cbn [fold_left]. rewrite IH, countSource_step.
    cbn [totalSrc onlineSrc totalLatency latencyCount filter].
    unfold latencySum.
    destruct (isOnline s), (timed s); cbn [map fold_right length];
      f_equal; lia.
Qed.

Lemma countChannel_fold (channels : list Channel.t) (acc : StatsAcc) :
  fold_left countChannel channels acc
  = mkStatsAcc (totalSrc acc + length (sourcesOf channels))
      (onlineSrc acc + length (filter isOnline (sourcesOf channels)))
      (totalLatency acc + latencySum (filter timed (sourcesOf channels)))
      (latencyCount acc + length (filter timed (sourcesOf channels))).
Proof.
  revert acc. induction channels as [|ch channels IH]; intros acc.
  - destruct acc as [a b c d]. cbn. f_equal; lia.
  - cbn [fold_left]. rewrite IH. unfold countChannel. rewrite countSource_fold.
    cbn [totalSrc onlineSrc totalLatency latencyCount].
    unfold sourcesOf. cbn [flat_map]. fold (sourcesOf channels).
    rewrite !filter_app, !length_app. unfold latencySum.
    rewrite map_app, fold_right_app.
    assert (Hsum : forall a b : list Z,
              fold_right Z.add (fold_right Z.add 0%Z b) a
              = (fold_right Z.add 0 a + fold_right Z.add 0 b)%Z).
    { induction a as [|x a IHa]; intros b; cbn; [reflexivity|].
      rewrite IHa. lia. }
    rewrite Hsum. f_equal; lia.
Qed.

Lemma stats_closed_form (channels : list Channel.t) :
  stats channels
  = mkStats (length channels) (length (sourcesOf channels))
      (length (filter isOnline (sourcesOf channels)))
      (meanLatency (filter timed (sourcesOf channels))).
Proof.
  unfold stats, meanLatency. rewrite countChannel_fold.
  cbn [totalSrc onlineSrc totalLatency latencyCount].
  now rewrite !Nat.add_0_l, Z.add_0_l.
Qed.

Lemma flattenTasks_length (channels : list Channel.t) :
  length (flattenTasks channels) = length (sourcesOf channels).
Proof.
  unfold flattenTasks, sourcesOf.
  induction channels as [|ch channels IH]; [reflexivity|].
  cbn [flat_map]. now rewrite !length_app, length_map, IH.
Qed.

Lemma sameStructure_sizes (c c' : list Channel.t) :
  sameStructure c c' ->
  length c = length c' /\ length (sourcesOf c) = length (sourcesOf c').
Proof.
  intros [_ H]. unfold sourcesOf.
  induction H as [|ch ch' c c' Hperm _ [IH1 IH2]]; [now split|].
  cbn [length flat_map]. rewrite !length_app, IH1, IH2.
  apply Permutation_length in Hperm. rewrite !length_map in Hperm.
  now rewrite Hperm.
Qed.

Lemma runCheck_structure (net : nat -> FetchOutcome) (isChecking : bool)
    (targetChannels prev c' : list Channel.t) :
  In c' (runCheck net isChecking targetChannels prev) -> sameStructure prev c'.
Proof.
  apply (runCheck_invariant (sameStructure prev) (fun _ => True)).
  - intros t c _ Hc. eapply sameStructure_trans; [exact Hc|].
    apply updateSource_structure; [reflexivity | intros; apply Permutation_refl].
  - intros res c _ Hc. eapply sameStructure_trans; [exact Hc|].
    apply applyResult_structure.
  - apply Forall_forall. intros; exact I.
  - apply sameStructure_refl.
Qed.

(** X19: the figures of the header.  The number of sources is the number of
    probes of a check of all the channels, the number of online sources is at
    most the number of sources, the average latency is the rounded mean of
    the latencies of the online sources whose latency is neither missing nor
    zero (0 when there is none: an online source of latency 0 counts as
    online but not in the average), and a check cycle never changes the
    numbers of channels and of sources. *)
Theorem stats_figures (channels : list Channel.t) :
  totalChannels (stats channels) = length channels
  /\ totalSources (stats channels) = length (flattenTasks channels)
  /\ onlineSources (stats channels)
     = length (filter isOnline (sourcesOf channels))
  /\ (onlineSources (stats channels) <= totalSources (stats channels))%nat
  /\ avgLatency (stats channels)
     = meanLatency (filter timed (sourcesOf channels))
  /\ forall net isChecking targetChannels c',
       In c' (runCheck net isChecking targetChannels channels) ->
       totalChannels (stats c') = totalChannels (stats channels)
       /\ totalSources (stats c') = totalSources (stats channels).
Proof.
  rewrite stats_closed_form.
  cbn [totalChannels totalSources onlineSources avgLatency].
  repeat split; try reflexivity.
  - symmetry. apply flattenTasks_length.
  - apply filter_length_le.
  - rewrite stats_closed_form. cbn [totalChannels].
    symmetry. now apply (sameStructure_sizes channels c'),
      (runCheck_structure net isChecking targetChannels).
  - rewrite stats_closed_form. cbn [totalSources].
    symmetry. now apply (sameStructure_sizes channels c'),
      (runCheck_structure net isChecking targetChannels).
Qed.

Lemma latencySum_bounds (lo hi : Z) (l : list Source.t) :
  (forall s, In s l -> (lo <= latencyOf s <= hi)%Z) ->
  (lo * Z.of_nat (length l) <= latencySum l <= hi * Z.of_nat (length l))%Z.
Proof.
  unfold latencySum. induction l as [|s l IH]; intros Hb; [cbn; lia|].
  cbn [map fold_right length].
  specialize (IH (fun x Hx => Hb x (or_intror Hx))).
  specialize (Hb s (or_introl eq_refl)). lia.
Qed.

Lemma round_mean_bounds (total n lo hi : Z) :
  (0 < n)%Z -> (lo * n <= total <= hi * n)%Z ->
  (lo <= round (inject_Z total / inject_Z n) <= hi)%Z.
Proof.
  intros Hn [Hlo Hhi]. unfold round.
  set (x := (inject_Z total / inject_Z n)%Q).
  assert (Hpos : (0 < inject_Z n)%Q).
  { change 0%Q with (inject_Z 0). now rewrite <- Zlt_Qlt. }
  assert (Hxlo : (inject_Z lo <= x)%Q).
  { apply Qle_shift_div_l; [exact Hpos|].
    rewrite <- inject_Z_mult. now rewrite <- Zle_Qle. }
  assert (Hxhi : (x <= inject_Z hi)%Q).
  { apply Qle_shift_div_r; [exact Hpos|].
    rewrite <- inject_Z_mult. now rewrite <- Zle_Qle. }
  split.
  - rewrite <- (Qfloor_Z lo). apply Qfloor_resp_le.
    apply Qle_trans with x; [exact Hxlo|].
    rewrite <- (Qplus_0_r x) at 1. apply Qplus_le_r. discriminate.
  - assert (Hlt : (inject_Z (Qfloor (x + (1 # 2))) < inject_Z (hi + 1))%Q).
    { apply Qle_lt_trans with (x + (1 # 2))%Q; [apply Qfloor_le|].
      rewrite inject_Z_plus.
      apply Qle_lt_trans with (inject_Z hi + (1 # 2))%Q.
      - apply Qplus_le_l. exact Hxhi.
      - apply Qplus_lt_r. reflexivity. }
    rewrite <- Zlt_Qlt in Hlt. lia.
Qed.

(** X20: when the latency of every online source that the average counts is
    between two bounds, the average latency of the header is between the
    same bounds as soon as one such source exists. *)
Theorem avgLatency_within_bounds (channels : list Channel.t) (lo hi : Z) :
  (forall s, In s (sourcesOf channels) -> timed s = true ->
             (lo <= latencyOf s <= hi)%Z) ->
  existsb timed (sourcesOf channels) = true ->
  (lo <= avgLatency (stats channels) <= hi)%Z.
Proof.
  intros Hb Hex. rewrite stats_closed_form. cbn [avgLatency].
  unfold meanLatency.
  set (l := filter timed (sourcesOf channels)).
  assert (Hl : forall s, In s l -> (lo <= latencyOf s <= hi)%Z).
  { intros s Hs. apply filter_In in Hs as [Hs Ht]. now apply Hb. }
  assert (Hne : (0 < length l)%nat).
  { apply existsb_exists in Hex as (s & Hs & Ht).
    assert (Hin : In s l) by (apply filter_In; now split).
    destruct l; [destruct Hin | cbn; lia]. }
  apply Nat.ltb_lt in Hne as Hne'. rewrite Hne'.
  apply round_mean_bounds; [lia|]. now apply latencySum_bounds.
Qed.

Lemma avgLatency_within_bounds_witness :
  avgLatency
    (stats [Channel.mk (str "c") (str "A") (str "g") China
              [srcOnline0; srcOnline100; srcOnline; srcOffline] None])
  = 200%Z
  /\ (100 <= avgLatency
        (stats [Channel.mk (str "c") (str "A") (str "g") China
                  [srcOnline0; srcOnline100; srcOnline; srcOffline] None])
      <= 300)%Z.
Proof.
  split; [reflexivity|].
  apply (avgLatency_within_bounds
           [Channel.mk (str "c") (str "A") (str "g") China
              [srcOnline0; srcOnline100; srcOnline; srcOffline] None]
           100 300).
  - intros s [<-|[<-|[<-|[<-|[]]]]]; vm_compute; intros; try discriminate;
      split; discriminate.
  - reflexivity.
Defined.

(** ** The player *)

Lemma aggregate_sources_nonempty (up : jsstring -> jsstring)
    (rnd : nat -> jsstring) (lc : jsstring -> jsstring -> Z)
    (ps : list Playlist) (ch : Channel.t) :
  In ch (parseAndAggregate up rnd lc ps) -> Channel.sources ch <> [].
Proof.
  unfold parseAndAggregate. rewrite sort_In. revert ch.
  apply aggregate_channels_ind.
  - intros n name group category url. discriminate.
  - intros ch n url _ _. unfold withSource. cbn [Channel.sources].
    now destruct (Channel.sources ch).
Qed.

Lemma sameStructure_nonempty (c c' : list Channel.t) :
  sameStructure c c' ->
  (forall ch, In ch c -> Channel.sources ch <> []) ->
  forall ch, In ch c' -> Channel.sources ch <> [].
Proof.
  intros [_ H].
  induction H as [|ch ch' c c' Hperm _ IH]; intros Hc x Hx; [destruct Hx|].
  destruct Hx as [<-|Hx].
  - intros Hnil. rewrite Hnil in Hperm. apply Permutation_sym in Hperm.
    apply Permutation_nil, map_eq_nil in Hperm.
    now apply (Hc ch (or_introl eq_refl)).
  - apply IH; [|exact Hx]. intros y Hy. apply Hc. now right.
Qed.

Lemma settled_nonempty (c : list Channel.t) :
  Settled c -> forall ch, In ch c -> Channel.sources ch <> [].
Proof.
  induction 1 as [up rnd lc ps | c net targets _ IH].
  - intros ch. apply aggregate_sources_nonempty.
  - apply (sameStructure_nonempty c); [|exact IH].
    rewrite runCheck_last. destruct targets as [|t0 ts];
      [apply sameStructure_refl|].
    eapply sameStructure_trans;
      [apply markChecking_structure | apply writeBack_structure].
Qed.

(** X21: between two check cycles, [Play best] on a channel of the catalog
    always starts the player, on the first source of the channel, and never
    expands the row instead: the channel has a source, and its best source,
    when it is online, is its first source.  No source of the channel has a
    higher score than the one played; so when the online sources of the
    channel have latencies under 50000 ms and one of them is online, the
    source played is an online source of the least latency. *)
Theorem play_best_plays_the_first_source (c : list Channel.t)
    (ch : Channel.t) (ui : Ui) :
  Settled c -> In ch c ->
  exists s,
    hd_error (Channel.sources ch) = Some s
    /\ handlePlayBest ui ch = handlePlaySource ui s (Channel.name ch)
    /\ (forall s', In s' (Channel.sources ch) -> (getScore s' <= getScore s)%Z)
    /\ ((forall s', In s' (Channel.sources ch) -> Source.status s' = online ->
                    (latencyOf s' < 50000)%Z) ->
        forall s', In s' (Channel.sources ch) -> Source.status s' = online ->
          Source.status s = online /\ (latencyOf s <= latencyOf s')%Z).
Proof.
  intros Hc Hch.
  pose proof (settled_nonempty c Hc ch Hch) as Hne.
  pose proof (settled_ranked c Hc) as Hr. rewrite Forall_forall in Hr.
  destruct (Hr ch Hch) as [Hbest Hsorted].
  destruct (Channel.sources ch) as [|s r] eqn:Hsrc; [now destruct Hne|].
  exists s. split; [reflexivity|].
  assert (Hscore : forall s', In s' (s :: r) -> (getScore s' <= getScore s)%Z).
  { intros s' [<-|Hs']; [lia|].
    inversion Hsorted as [|? ? _ Hall]; subst.
    rewrite Forall_forall in Hall. now apply Hall. }
  split; [|split; [exact Hscore|]].
  - unfold handlePlayBest, handlePlaySource, bestIsFirst in *.
    rewrite Hsrc in *. cbn [hd_error] in *.
    destruct (Channel.bestSource ch) as [b|]; [|reflexivity].
    injection Hbest as ->. now destruct (Source.status b).
  - intros Hlat s' Hs' Hon.
    pose proof (Hscore s' Hs') as Hle.
    pose proof (Hlat s' Hs' Hon) as Hl'.
    assert (Hrank : rankedBefore s s').
    { apply by_score_ranked; [apply Hlat; now left | now intros _ | exact Hle]. }
    unfold rankedBefore, statusRank in Hrank. rewrite Hon in Hrank.
    destruct Hrank as [Hlt|[Heq Hlat']]; [lia|].
    assert (Hs : Source.status s = online)
      by (destruct (Source.status s); try discriminate; reflexivity).
    split; [exact Hs | now apply Hlat'].
Qed.

Lemma play_best_plays_the_first_source_witness :
  activeSource (handlePlayBest (mkUi None []) src720Channel)
  = Some (mkActive (str "http://a/1.m3u8") (str "CCTV1") (Some (str "720P"))
            (Some 300%Z))
  /\ exists s,
       hd_error (Channel.sources src720Channel) = Some s
       /\ handlePlayBest (mkUi None []) src720Channel
          = handlePlaySource (mkUi None []) s (Channel.name src720Channel)
       /\ (forall s', In s' (Channel.sources src720Channel) ->
                      (getScore s' <= getScore s)%Z)
       /\ ((forall s', In s' (Channel.sources src720Channel) ->
                       Source.status s' = online -> (latencyOf s' < 50000)%Z) ->
           forall s', In s' (Channel.sources src720Channel) ->
             Source.status s' = online ->
             Source.status s = online /\ (latencyOf s <= latencyOf s')%Z).
Proof.
  split; [reflexivity|].
  apply (play_best_plays_the_first_source probed720 src720Channel (mkUi None [])).
  - apply (@settled_cycle (Env.run [oneChannel]) netOnline720
             (Env.run [oneChannel])).
    apply settled_aggregate.
  - vm_compute. left. reflexivity.
Defined.

(** ** What a check cycle stores *)

Lemma probeBatchWith_cons (probe : nat -> Task -> CheckResult) (i : nat)
    (t : Task) (batch : list Task) :
  probeBatchWith probe i (t :: batch)
  = probe i t :: probeBatchWith probe (S i) batch.
Proof. reflexivity. Qed.

Lemma probeBatchWith_app (probe : nat -> Task -> CheckResult)
    (a b : list Task) (i : nat) :
  probeBatchWith probe i (a ++ b)
  = probeBatchWith probe i a ++ probeBatchWith probe (i + length a) b.
Proof.
  revert i. induction a as [|t a IH]; intros i.
  - cbn [app length]. now rewrite Nat.add_0_r.
  - cbn [app length]. rewrite !probeBatchWith_cons, IH. cbn [app].
    now rewrite Nat.add_succ_comm.
Qed.

Lemma probeBatchWith_nth (probe : nat -> Task -> CheckResult)
    (l : list Task) (i k : nat) (t : Task) :
  nth_error l k = Some t ->
  nth_error (probeBatchWith probe i l) k = Some (probe (i + k)%nat t).
Proof.
  revert i k. induction l as [|x l IH]; intros i [|k]; cbn [nth_error];
    try discriminate.
  - intros [= ->]. rewrite probeBatchWith_cons. cbn [nth_error].
    now rewrite Nat.add_0_r.
  - intros Hk. rewrite probeBatchWith_cons. cbn [nth_error].
    rewrite (IH (S i) k Hk). now rewrite Nat.add_succ_comm.
Qed.

Lemma probeBatchWith_tasks (probe : nat -> Task -> CheckResult) (i : nat)
    (batch : list Task) :
  (forall k t, resTask (probe k t) = t) ->
  map resTask (probeBatchWith probe i batch) = batch.
Proof.
  intros Hprobe. revert i.
  induction batch as [|t batch IH]; intros i; [reflexivity|].
  rewrite probeBatchWith_cons. cbn [map]. now rewrite Hprobe, IH.
Qed.

(** The catalog that a cycle leaves is the write-back of all its results, in
    the order of the tasks, to the marked catalog. *)
Lemma runBatchesWith_last (probe : nat -> Task -> CheckResult)
    (batches : list (list Task)) (i : nat) (prev : list Channel.t) :
  last (runBatchesWith probe i batches prev) prev
  = writeBack (probeBatchWith probe i (concat batches)) prev.
Proof.
  revert i prev. induction batches as [|batch rest IH]; intros i prev;
    [reflexivity|].
  cbn [runBatchesWith concat]. rewrite last_cons, IH, probeBatchWith_app.
  unfold writeBack. now rewrite fold_left_app.
Qed.

Lemma runCheckWith_last (probe : nat -> Task -> CheckResult)
    (targetChannels prev : list Channel.t) :
  last (runCheckWith probe false targetChannels prev) prev
  = match targetChannels with
    | [] => prev
    | _ :: _ =>
        writeBack (probeBatchWith probe 0 (flattenTasks targetChannels))
          (markChecking (flattenTasks targetChannels) prev)
    end.
Proof.
  unfold runCheckWith. destruct targetChannels as [|t ts]; [reflexivity|].
  cbn [orb length Nat.eqb]. rewrite last_cons, runBatchesWith_last.
  now rewrite batchesOf_concat.
Qed.

(** The cycle of the program is the cycle over the results of its own
    [checkSource]. *)
Lemma runCheck_runCheckWith (net : nat -> FetchOutcome) (isChecking : bool)
    (targetChannels prev : list Channel.t) :
  runCheck net isChecking targetChannels prev
  = runCheckWith (fun k t => checkSource t (net k)) isChecking targetChannels
      prev.
Proof.
  unfold runCheck, runCheckWith. destruct (_ || _); [reflexivity|].
  f_equal. generalize (markChecking (flattenTasks targetChannels) prev) as c.
  generalize 0%nat as i.
  induction (batchesOf (flattenTasks targetChannels)) as [|b bs IH];
    intros i c; [reflexivity|].
  cbn [runBatches runBatchesWith].
  change (probeBatchWith (fun k t => checkSource t (net k)) i b)
    with (probeBatch net i b).
  now rewrite IH.
Qed.

Lemma channelIds_structure (c c' : list Channel.t) :
  sameStructure c c' -> channelIdsDistinct c -> channelIdsDistinct c'.
Proof.
  intros [Hids _]. unfold channelIdsDistinct.
  assert (H : map Channel.id c = map Channel.id c').
  { transitivity (map (fun x => fst (fst (fst x))) (map channelIdentity c)).
    - now rewrite map_map.
    - now rewrite Hids, map_map. }
  now rewrite H.
Qed.

Lemma applyResult_cases (c : list Channel.t) (res : CheckResult) :
  (applyResult c res = c /\ forall i j, ~ foundAt c (resTask res) i j)
  \/ exists i j ch src,
       nth_error c i = Some ch
       /\ nth_error (Channel.sources ch) j = Some src
       /\ Channel.id ch = channelId (resTask res)
       /\ Source.id src = sourceId (resTask res)
       /\ applyResult c res
          = setNth i
              (Channel.mk (Channel.id ch) (Channel.name ch) (Channel.group ch)
                 (Channel.category ch)
                 (sortSources (setNth j (storeResult res src) (Channel.sources ch)))
                 (hd_error
                    (sortSources
                       (setNth j (storeResult res src) (Channel.sources ch)))))
              c.
Proof.
  unfold applyResult.
  destruct (updateSource_cases (storeResult res)
              (fun l _ => let newSources := sortSources l in
                          (newSources, hd_error newSources))
              (resTask res) c)
    as [H | (i & j & ch & src & [Hi _] & Hch & Hsrc & Hid & E)];
    [now left|].
  right. exists i, j, ch, src. repeat split; try assumption.
  - apply jseqb_eq. exact (findIndex_true _ _ _ _ ch Hi Hch).
  - now apply jseqb_eq.
Qed.

Lemma applyResult_keeps_stored (c : list Channel.t) (res res' : CheckResult) :
  taskKey (resTask res') <> taskKey (resTask res) ->
  stored res' c -> stored res' (applyResult c res).
Proof.
  intros Hkey Hst.
  destruct (applyResult_cases c res)
    as [[-> _] | (i & j & ch0 & src & Hch0 & Hsrc & Hcid & Hsid & ->)];
    [assumption|].
  intros ch s Hch Hid Hs Hsid'.
  apply setNth_In in Hch as [->|Hch]; [|now apply (Hst ch s)].
  cbn [Channel.id Channel.sources] in Hid, Hs.
  unfold sortSources in Hs. apply sort_In in Hs.
  apply setNth_In in Hs as [->|Hs].
  - exfalso. apply Hkey. unfold taskKey. cbn [storeResult Source.id] in Hsid'.
    congruence.
  - apply (Hst ch0 s); try assumption. eapply nth_error_In; eassumption.
Qed.

Lemma NoDup_map_nth_eq (A B : Type) (f : A -> B) (l : list A) (i k : nat)
    (x y : A) :
  NoDup (map f l) -> nth_error l i = Some x -> nth_error l k = Some y ->
  f x = f y -> i = k.
Proof.
  intros Hnd Hx Hy Heq. rewrite NoDup_nth_error in Hnd. apply Hnd.
  - rewrite length_map. apply nth_error_Some. congruence.
  - rewrite (map_nth_error f i _ Hx), (map_nth_error f k _ Hy). congruence.
Qed.

Lemma applyResult_stores (c : list Channel.t) (res : CheckResult) :
  channelIdsDistinct c -> sourceIdsDistinct c ->
  stored res (applyResult c res).
Proof.
  intros Hcd Hsd.
  destruct (applyResult_cases c res)
    as [[-> Hnot] | (i & j & ch0 & src & Hch0 & Hsrc & Hcid & Hsid & ->)].
  - intros ch s Hch Hid Hs Hsid. exfalso.
    destruct (findIndex_found _
                (fun x => jseqb (Channel.id x) (channelId (resTask res)))
                c ch Hch) as [i Hi]; [now apply jseqb_eq|].
    destruct (findIndex_nth_error _ _ Hi) as [ch1 Hch1].
    assert (ch1 = ch).
    { apply (NoDup_map_In_eq _ _ Channel.id c); try assumption.
      - eapply nth_error_In; eassumption.
      - pose proof (findIndex_true _ _ _ _ ch1 Hi Hch1) as H1.
        apply jseqb_eq in H1. congruence. }
    subst ch1.
    destruct (foundAt_by_id c (resTask res) i ch Hi Hch1) as [j Hj].
    { rewrite <- Hsid. now apply in_map. }
    now apply (Hnot i j).
  - intros ch s Hch Hid Hs Hsid'.
    apply setNth_In_other in Hch as [->|(k & Hk & Hchk)].
    + cbn [Channel.sources] in Hs. unfold sortSources in Hs.
      apply sort_In in Hs.
      apply setNth_In_other in Hs as [->|(k & Hk & Hsk)]; [now repeat split|].
      exfalso. apply Hk.
      apply (NoDup_map_nth_eq _ _ Source.id (Channel.sources ch0) k j s src);
        try assumption; [|congruence].
      apply Hsd. eapply nth_error_In; eassumption.
    + exfalso. apply Hk.
      apply (NoDup_map_nth_eq _ _ Channel.id c k i ch ch0); try assumption.
      congruence.
Qed.

Lemma writeBack_keeps_stored (results : list CheckResult) (c : list Channel.t)
    (res' : CheckResult) :
  ~ In (taskKey (resTask res')) (map (fun r => taskKey (resTask r)) results) ->
  stored res' c -> stored res' (writeBack results c).
Proof.
  unfold writeBack. revert c.
  induction results as [|r results IH]; intros c Hnot Hst; [assumption|].
  cbn [fold_left]. apply IH.
  - intros Hin. apply Hnot. now right.
  - apply applyResult_keeps_stored; [|assumption].
    intros Heq. apply Hnot. left. now symmetry.
Qed.

Lemma writeBack_stores (results : list CheckResult) (c : list Channel.t)
    (res : CheckResult) :
  channelIdsDistinct c -> sourceIdsDistinct c ->
  NoDup (map (fun r => taskKey (resTask r)) results) ->
  In res results -> stored res (writeBack results c).
Proof.
  revert c. induction results as [|r results IH]; intros c Hcd Hsd Hnd Hin;
    [destruct Hin|].
  cbn [map] in Hnd. inversion Hnd as [|? ? Hfresh Hrest]; subst.
  change (writeBack (r :: results) c) with (writeBack results (applyResult c r)).
  destruct Hin as [<-|Hin].
  - apply writeBack_keeps_stored; [assumption|].
    now apply applyResult_stores.
  - apply IH; try assumption.
    + apply (channelIds_structure c); [apply applyResult_structure | assumption].
    + apply (sourceIds_structure c); [apply applyResult_structure | assumption].
Qed.

(** X22: whatever [checkSource] returns for a task, as long as it returns
    the identifiers of the task, a cycle stores it in the source that the
    task is addressed to.  When the channels have distinct identifiers, the
    sources of every channel have distinct identifiers and no two tasks of
    the cycle are addressed to the same source, the catalog that the cycle
    leaves shows, in the source that has the identifiers of the [k]-th task,
    the status, the latency and the resolution of the [k]-th result,
    wherever the re-ranking has moved that source. *)
Theorem cycle_stores_every_result (probe : nat -> Task -> CheckResult)
    (targetChannels prev : list Channel.t) (k : nat) (t : Task)
    (ch : Channel.t) (s : Source.t) :
  (forall k t, resTask (probe k t) = t) ->
  channelIdsDistinct prev ->
  sourceIdsDistinct prev ->
  NoDup (map taskKey (flattenTasks targetChannels)) ->
  nth_error (flattenTasks targetChannels) k = Some t ->
  In ch (last (runCheckWith probe false targetChannels prev) prev) ->
  Channel.id ch = channelId t ->
  In s (Channel.sources ch) ->
  Source.id s = sourceId t ->
  Source.status s = resStatus (probe k t)
  /\ Source.latency s = resLatency (probe k t)
  /\ Source.resolution s = resResolution (probe k t).
Proof.
  intros Hprobe Hcd Hsd Hnd Hk Hch Hcid Hs Hsid.
  rewrite runCheckWith_last in Hch.
  destruct targetChannels as [|t0 ts]; [now destruct k|].
  set (tasks := flattenTasks (t0 :: ts)) in *.
  assert (Hst : stored (probe k t)
                  (writeBack (probeBatchWith probe 0 tasks)
                     (markChecking tasks prev))).
  { apply writeBack_stores.
    - apply (channelIds_structure prev);
        [apply markChecking_structure | assumption].
    - apply (sourceIds_structure prev);
        [apply markChecking_structure | assumption].
    - rewrite <- (map_map resTask taskKey), probeBatchWith_tasks; assumption.
    - eapply nth_error_In. apply (probeBatchWith_nth probe tasks 0 k t Hk). }
  apply (Hst ch s); try assumption; now rewrite Hprobe.
Qed.

Lemma cycle_stores_every_result_witness :
  map (fun ch => map Source.url (Channel.sources ch)) (Env.run [newsTwice])
  = [[str "http://a/1.m3u8"; str "http://a/2.m3u8"]]
  /\ map (fun ch => map (fun s => (Source.url s, Source.status s))
                    (Channel.sources ch)) secondOnly
     = [[(str "http://a/2.m3u8", online); (str "http://a/1.m3u8", offline)]]
  /\ forall ch s,
       In ch secondOnly -> In s (Channel.sources ch) ->
       Source.id s = Env.rnd 1 ->
       Source.status s = offline
       /\ Source.latency s = None
       /\ Source.resolution s = None.
Proof.
  split; [reflexivity|]. split; [reflexivity|].
  intros ch s Hch Hs Hid.
  apply (cycle_stores_every_result probeSecondOnly (Env.run [newsTwice])
           (Env.run [newsTwice]) 0
           (mkTask (Env.rnd 0) (Env.rnd 1) (str "http://a/1.m3u8")) ch s).
  - intros k t. destruct k; reflexivity.
  - vm_compute. repeat constructor. intros [].
  - intros c [<-|[]]. vm_compute. repeat constructor.
    + intros [H|[]]. discriminate H.
    + intros [].
  - vm_compute. repeat constructor.
    + intros [H|[]]. discriminate H.
    + intros [].
  - reflexivity.
  - exact Hch.
  - vm_compute in Hch. destruct Hch as [<-|[]]. reflexivity.
  - exact Hs.
  - exact Hid.
Defined.

(** ** The expanded rows *)

Lemma setHas_In (l : list jsstring) (id : jsstring) :
  setHas l id = true <-> In id l.
Proof.
  unfold setHas. rewrite existsb_exists. split.
  - intros (x & Hx & Heq). apply jseqb_eq in Heq. now subst.
  - intros Hin. exists id. split; [assumption | apply jseqb_refl].
Qed.

Lemma setHas_toggle (l : list jsstring) (id x : jsstring) :
  setHas (if setHas l id then setDelete l id else setAdd l id) x
  = if jseqb id x then negb (setHas l id) else setHas l x.
Proof.
  destruct (jseqb id x) eqn:Hx.
  - apply jseqb_eq in Hx. subst x.
    destruct (setHas l id) eqn:Hid; cbn [negb].
    + apply not_true_is_false. rewrite setHas_In. unfold setDelete.
      rewrite filter_In. intros [_ H]. now rewrite jseqb_refl in H.
    + unfold setAdd. rewrite Hid. apply setHas_In, in_or_app. right. now left.
  - destruct (setHas l id) eqn:Hid.
    + destruct (setHas l x) eqn:Hlx.
      * apply setHas_In. unfold setDelete. apply filter_In. split.
        -- now apply setHas_In.
        -- now rewrite Hx.
      * apply not_true_is_false. rewrite setHas_In. unfold setDelete.
        rewrite filter_In. intros [H _]. apply setHas_In in H. congruence.
    + unfold setAdd. rewrite Hid. unfold setHas. rewrite existsb_app.
      cbn [existsb]. fold (setHas l x).
      assert (Hx' : jseqb x id = false).
      { destruct (jseqb x id) eqn:E; [|reflexivity].
        apply jseqb_eq in E. subst. now rewrite jseqb_refl in Hx. }
      rewrite Hx'. now rewrite !orb_false_r.
Qed.

(** X23: a click on a row changes whether that row is expanded and nothing
    else: the rows of the other channels stay as they are and the player is
    not touched; a second click restores the first state of every row.
    [Play best] on a channel that has no source expands its row, or leaves
    it expanded, and does not start the player. *)
Theorem toggleExpand_flips_one_row (ui : Ui) (id : jsstring) :
  (forall x,
     setHas (expandedChannels (toggleExpand ui id)) x
     = if jseqb id x then negb (setHas (expandedChannels ui) id)
       else setHas (expandedChannels ui) x)
  /\ activeSource (toggleExpand ui id) = activeSource ui
  /\ (forall x,
        setHas (expandedChannels (toggleExpand (toggleExpand ui id) id)) x
        = setHas (expandedChannels ui) x)
  /\ forall ch,
       Channel.sources ch = [] -> Channel.bestSource ch = None ->
       setHas (expandedChannels (handlePlayBest ui ch)) (Channel.id ch) = true
       /\ activeSource (handlePlayBest ui ch) = activeSource ui.
Proof.
  assert (H1 : forall u i x,
            setHas (expandedChannels (toggleExpand u i)) x
            = if jseqb i x then negb (setHas (expandedChannels u) i)
              else setHas (expandedChannels u) x).
  { intros u i x. unfold toggleExpand. cbn [expandedChannels].
    apply setHas_toggle. }
  split; [apply H1|]. split; [reflexivity|]. split.
  - intros x. rewrite H1.
    destruct (jseqb id x) eqn:Hx; rewrite H1.
    + rewrite jseqb_refl. apply jseqb_eq in Hx. subst x.
      now rewrite negb_involutive.
    + now rewrite Hx.
  - intros ch Hsrc Hbest. unfold handlePlayBest. rewrite Hsrc, Hbest.
    cbn [hd_error].
    destruct (setHas (expandedChannels ui) (Channel.id ch)) eqn:Hhas;
      [now split|].
    split; [|reflexivity]. now rewrite H1, jseqb_refl, Hhas.
Qed.

(** ** White space around a line *)

Lemma dropWhile_all (p : N -> bool) (w s : jsstring) :
  forallb p w = true -> dropWhile p (w ++ s) = dropWhile p s.
Proof.
  induction w as [|c w IH]; [reflexivity|]. cbn [forallb app dropWhile].
  intros H. apply andb_true_iff in H as [-> H]. now apply IH.
Qed.

Lemma dropWhile_app_stop (p : N -> bool) (a b : jsstring) :
  dropWhile p a <> [] -> dropWhile p (a ++ b) = dropWhile p a ++ b.
Proof.
  induction a as [|c a IH]; [now intros []|]. cbn [app dropWhile].
  destruct (p c); [exact IH | reflexivity].
Qed.

Lemma dropWhile_nil_all (p : N -> bool) (a : jsstring) :
  dropWhile p a = [] -> forallb p a = true.
Proof.
  induction a as [|c a IH]; [reflexivity|]. cbn [dropWhile forallb].
  destruct (p c); [exact IH | discriminate].
Qed.

Lemma trim_padding (w1 w2 l : jsstring) :
  forallb isWhiteSpace w1 = true -> forallb isWhiteSpace w2 = true ->
  trim (w1 ++ l ++ w2) = trim l.
Proof.
  intros H1 H2. unfold trim. rewrite (dropWhile_all _ _ _ H1).
  destruct (dropWhile isWhiteSpace l) as [|c r] eqn:Hl.
  - apply dropWhile_nil_all in Hl.
    rewrite <- (app_nil_r (l ++ w2)), <- app_assoc, (dropWhile_all _ _ _ Hl).
    rewrite (dropWhile_all _ _ _ H2). reflexivity.
  - rewrite dropWhile_app_stop by (rewrite Hl; discriminate).
    rewrite Hl, rev_app_distr. rewrite dropWhile_all; [reflexivity|].
    rewrite forallb_forall in *. intros x Hx. apply H2. now apply in_rev.
Qed.

Lemma split_no_separator (sep : N) (p : jsstring) :
  existsb (N.eqb sep) p = false -> split sep p = [p].
Proof.
  induction p as [|c p IH]; [reflexivity|]. cbn [existsb split].
  intros H. apply orb_false_iff in H as [Hc Hp].
  rewrite N.eqb_sym in Hc. rewrite Hc, (IH Hp). reflexivity.
Qed.

Lemma split_app_separator (sep : N) (p s : jsstring) :
  existsb (N.eqb sep) p = false ->
  split sep (p ++ sep :: s) = p :: split sep s.
Proof.
  induction p as [|c p IH]; cbn [existsb app split].
  - intros _. now rewrite N.eqb_refl.
  - intros H. apply orb_false_iff in H as [Hc Hp].
    rewrite N.eqb_sym in Hc. rewrite Hc, (IH Hp). reflexivity.
Qed.

Lemma split_join (sep : N) (lines : list jsstring) :
  lines <> [] ->
  Forall (fun l => existsb (N.eqb sep) l = false) lines ->
  split sep (join sep lines) = lines.
Proof.
  induction lines as [|p rest IH]; [now intros []|]. intros _ Hall.
  inversion Hall as [|? ? Hp Hrest]; subst.
  destruct rest as [|q rest].
  - cbn [join]. now apply split_no_separator.
  - change (join sep (p :: q :: rest)) with (p ++ sep :: join sep (q :: rest)).
    rewrite split_app_separator by assumption.
    rewrite IH; [reflexivity | discriminate | assumption].
Qed.

(** X24: the white space around a line is of no account: a line read with
    white space before or after it is read as the line without it.  So a
    playlist whose lines end with CR LF has the records of the same playlist
    with lines that end with LF. *)
Theorem padding_of_lines_is_ignored (category : Category)
    (lines : list jsstring) :
  Forall (fun l => includesUnit l 10 = false) lines ->
  (forall (Acc : Type)
          (add : jsstring -> jsstring -> jsstring -> Category -> Acc -> Acc)
          (st : Pending * Acc) (w1 w2 l : jsstring),
     forallb isWhiteSpace w1 = true -> forallb isWhiteSpace w2 = true ->
     processLine add category st (w1 ++ l ++ w2)
     = processLine add category st l)
  /\ recordsOf
       (mkPlaylist (join 10 (map (fun l => l ++ [13%N]) lines)) category)
     = recordsOf (mkPlaylist (join 10 lines) category).
Proof.
  intros Hlf.
  assert (Hpad : forall (Acc : Type)
            (add : jsstring -> jsstring -> jsstring -> Category -> Acc -> Acc)
            (st : Pending * Acc) (w1 w2 l : jsstring),
            forallb isWhiteSpace w1 = true -> forallb isWhiteSpace w2 = true ->
            processLine add category st (w1 ++ l ++ w2)
            = processLine add category st l).
  { intros Acc add st w1 w2 l H1 H2. unfold processLine.
    now rewrite trim_padding. }
  split; [exact Hpad|].
  destruct lines as [|l0 ls]; [reflexivity|].
  unfold recordsOf, parsePlaylist, parseLines. cbn [content playlistCategory].
  rewrite !split_join; try discriminate; try exact Hlf.
  - f_equal. generalize (mkPending [] [], @nil ParsedRecord) as st.
    generalize (l0 :: ls) as l. clear - Hpad.
    induction l as [|x l IH]; intros st; [reflexivity|].
    cbn [map fold_left]. rewrite IH. f_equal.
    apply (Hpad _ emit st [] [13%N] x); reflexivity.
  - apply Forall_forall. intros x Hx. apply in_map_iff in Hx as (y & <- & Hy).
    rewrite Forall_forall in Hlf. specialize (Hlf y Hy).
    unfold includesUnit in Hlf. rewrite existsb_app, Hlf. reflexivity.
Qed.

Lemma padding_of_lines_is_ignored_witness :
  map recUrl
    (recordsOf
       (mkPlaylist (join 10 (map (fun l => l ++ [13%N]) newsLines)) China))
  = [str "http://a/1.m3u8"; str "http://a/2.m3u8"]
  /\ recordsOf
       (mkPlaylist (join 10 (map (fun l => l ++ [13%N]) newsLines)) China)
     = recordsOf (mkPlaylist (join 10 newsLines) China).
Proof.
  split; [reflexivity|].
  apply (padding_of_lines_is_ignored China newsLines).
  repeat constructor.
Defined.
